(** * RR_weak_mutation: sequence evolution on a Russian roulette holey landscape

    A shallow embedding of [RR_weak_mutation.py]: the memoised viability
    dictionary, the sequence algebra of [Genotype], the random walk of
    [Population] and the two diverging lineages of [Orr].

    - Python strings are [string] and their characters [ascii].
    - Python ints that count or index are [nat]: every site the program
      passes around comes from [range] or from [rnd.randint(0, L)], so
      negative indices never occur inside it.  [mutate] is a static method
      that takes any int, and is given a second time over [Z], with
      Python's indexing from the end ([mutateZ]); on sites [>= 0] the two
      forms agree ([mutateZ_of_nat]).
    - The probability [p] and the robustness [nu] are rationals.
    - Dictionaries are [gmap]s.
    - The module-level dictionaries [viability_dict] and [nu_dict] and the
      numpy generator live in an explicit [World] that every effectful
      operation threads through; a failed [assert] or any other exception is
      a [Raise] outcome.
    - Objects are records.  A method that assigns attributes of [self]
      returns the updated record; [deepcopy] is the identity on records, and
      no two records share state. *)

From Stdlib Require Import ZArith QArith Lia String Ascii DecimalString.
From stdpp Require Import base option list sorting gmap strings fin_maps.

Local Open Scope nat_scope.
Set Warnings "-clear-no-such-hyp".

Create HintDb preserves.

(** ** Exceptions and results *)

Inductive exn : Type :=
| AssertionError
| IndexError
| ValueError
| ZeroDivisionError
| AttributeError
| KeyError.

(** [Unfinished] is not a Python outcome: it marks a [while] loop of the
    model that used up its iteration budget. *)
Inductive result (A : Type) : Type :=
| Ok (a : A)
| Raise (e : exn)
| Unfinished.
Arguments Ok {A} a.
Arguments Raise {A} e.
Arguments Unfinished {A}.

Definition rbind {A B} (r : result A) (k : A -> result B) : result B :=
  match r with
  | Ok a => k a
  | Raise e => Raise e
  | Unfinished => Unfinished
  end.

Declare Scope py_scope.
Delimit Scope py_scope with py.
Notation "'let?' x := r 'in' k" := (rbind r (fun x => k))
  (at level 10, x name, r at level 100, k at level 200) : py_scope.
Local Open Scope py_scope.

(** ** Strings as Python sequences *)

(** [seq[i]] for [0 <= i]; [None] stands for Python's [IndexError]. *)
Definition char_at (seq : string) (i : nat) : option ascii := String.get i seq.

(** [seq[:i]] *)
Fixpoint slice_to (i : nat) (seq : string) : string :=
  match i, seq with
  | S i', String c seq' => String c (slice_to i' seq')
  | _, _ => EmptyString
  end.

(** [seq[i:]] *)
Fixpoint slice_from (i : nat) (seq : string) : string :=
  match i, seq with
  | S i', String _ seq' => slice_from i' seq'
  | _, _ => seq
  end.

(** The position that a slice bound [i] of either sign stands for in a
    sequence of length [L]: a negative [i] counts from the end and stops at
    the start. *)
Definition slice_bound (L : nat) (i : Z) : nat :=
  if (i <? 0)%Z then Z.to_nat (Z.of_nat L + i) else Z.to_nat i.

(** [seq[i]] for an int [i] of either sign: [seq[len(seq) + i]] when
    [-len(seq) <= i < 0]; [None] stands for Python's [IndexError]. *)
Definition char_at_int (seq : string) (i : Z) : option ascii :=
  if (i <? - Z.of_nat (String.length seq))%Z then None
  else char_at seq (slice_bound (String.length seq) i).

(** [seq[:i]] for an int [i] of either sign. *)
Definition slice_to_int (i : Z) (seq : string) : string :=
  slice_to (slice_bound (String.length seq) i) seq.

(** [seq[i:]] for an int [i] of either sign. *)
Definition slice_from_int (i : Z) (seq : string) : string :=
  slice_from (slice_bound (String.length seq) i) seq.

(** [int(ch)] on a one-character string: the decimal digits convert, every
    other character raises [ValueError]. *)
Definition int_of_char (ch : ascii) : result Z :=
  match Ascii.is_nat ch with
  | Some d => Ok (Z.of_nat d)
  | None => Raise ValueError
  end.

(** [str(n)] on an integer. *)
Definition str_of_int (n : Z) : string := NilZero.string_of_int (Z.to_int n).

(** [range(n)] *)
Definition range (n : nat) : list nat := seq 0 n.

(** The binary digits of a positive number, most significant first, put in
    front of [acc]. *)
Fixpoint bin_digits (p : positive) (acc : string) : string :=
  match p with
  | xH => String "1" acc
  | xO p' => bin_digits p' (String "0" acc)
  | xI p' => bin_digits p' (String "1" acc)
  end.

(** [format(x, 'b')]: the binary digits of [x], ["0"] for zero, a leading
    ["-"] for a negative number. *)
Definition format_b (x : Z) : string :=
  match x with
  | Z0 => String "0" EmptyString
  | Zpos p => bin_digits p EmptyString
  | Zneg p => String "-" (bin_digits p EmptyString)
  end.

(** [n] copies of ["0"] in front of [s]. *)
Fixpoint zeros (n : nat) (s : string) : string :=
  match n with
  | 0 => s
  | S n' => String "0" (zeros n' s)
  end.

(** [s.zfill(width)]: zeros on the left up to [width] characters, put after
    a leading sign; [s] itself when it is long enough. *)
Definition zfill (width : nat) (s : string) : string :=
  let pad := width - String.length s in
  match s with
  | String c s' =>
      if Ascii.eqb c "+" || Ascii.eqb c "-" then String c (zeros pad s')
      else zeros pad s
  | EmptyString => zeros pad s
  end.

(** [int2seq(x, N)] *)
Definition int2seq (x : Z) (N : nat) : result string :=
  if negb (x <? 2 ^ Z.of_nat N)%Z then Raise AssertionError
  else Ok (zfill N (format_b x)).

(** ** Floats

    [p], the draws of [rnd.random()] and [nu] are floats in the source; only
    their order and equality are used, which are those of the rationals they
    denote. *)

Definition Qlt_bool (x y : Q) : bool := negb (Qle_bool y x).

(** ** The world: module-level dictionaries and the numpy generator *)

(** The generator is a tape: the [k]-th call made to it answers from cell [k].
    [rnd.random()] reads a float of [[0, 1)] there, [rnd.randint(0, high)]
    an integer that is reduced into [[0, high)]. *)
Record RandomState : Type := mkRandomState {
  next_float : nat -> Q;
  next_int : nat -> nat;
  drawn : nat
}.

Record World : Type := mkWorld {
  viability_dict : gmap string bool;
  nu_dict : gmap string Q;
  rnd : RandomState
}.

(** Effectful code: the world survives an exception, as Python's globals do. *)
Definition M (A : Type) : Type := World -> result A * World.

Definition ret {A} (a : A) : M A := fun w => (Ok a, w).

Definition bind {A B} (m : M A) (k : A -> M B) : M B :=
  fun w =>
    match m w with
    | (Ok a, w') => k a w'
    | (Raise e, w') => (Raise e, w')
    | (Unfinished, w') => (Unfinished, w')
    end.

Definition raise {A} (e : exn) : M A := fun w => (Raise e, w).

Definition lift {A} (r : result A) : M A := fun w => (r, w).

Definition unfinished {A} : M A := fun w => (Unfinished, w).

Notation "'do' x <- m ; k" := (bind m (fun x => k))
  (at level 10, x name, m at level 100, k at level 200) : py_scope.

(** [assert b] *)
Definition assert (b : bool) : M unit :=
  if b then ret tt else raise AssertionError.

(** [rnd.random()] *)
Definition rnd_random : M Q :=
  fun w =>
    let r := rnd w in
    (Ok (next_float r (drawn r)),
     mkWorld (viability_dict w) (nu_dict w)
             (mkRandomState (next_float r) (next_int r) (S (drawn r)))).

(** [rnd.randint(0, high)]: numpy raises [ValueError] when [high <= 0]. *)
Definition rnd_randint (high : nat) : M nat :=
  fun w =>
    let r := rnd w in
    if high =? 0 then (Raise ValueError, w)
    else
      (Ok (next_int r (drawn r) mod high),
       mkWorld (viability_dict w) (nu_dict w)
               (mkRandomState (next_float r) (next_int r) (S (drawn r)))).

(** [rnd.binomial(1, .5, size)]: an array of [size] draws, each 0 or 1, read
    from the next [size] cells of the tape. *)
Definition rnd_binomial (size : nat) : M (list nat) :=
  fun w =>
    let r := rnd w in
    (Ok ((fun i => next_int r (drawn r + i) mod 2) <$> seq 0 size),
     mkWorld (viability_dict w) (nu_dict w)
             (mkRandomState (next_float r) (next_int r) (drawn r + size))).

(** [seq in viability_dict] and [viability_dict[seq]] in one read. *)
Definition viability_lookup (seq : string) : M (option bool) :=
  fun w => (Ok (viability_dict w !! seq), w).

(** [viability_dict.update({seq: v})] and [viability_dict[seq] = v]. *)
Definition viability_update (seq : string) (v : bool) : M unit :=
  fun w => (Ok tt, mkWorld (<[seq := v]> (viability_dict w)) (nu_dict w) (rnd w)).

Definition nu_lookup (seq : string) : M (option Q) :=
  fun w => (Ok (nu_dict w !! seq), w).

(** [nu_dict.update({seq: nu})] *)
Definition nu_update (seq : string) (nu : Q) : M unit :=
  fun w => (Ok tt, mkWorld (viability_dict w) (<[seq := nu]> (nu_dict w)) (rnd w)).

Module Genotype.

(** *** Pure sequence algebra (the static methods) *)

(** One turn of the loop of [mutate]:
    [mut = str(abs(int(seq[i]) - 1)); seq = seq[:i] + mut + seq[i + 1:]]. *)
Definition mutate_step (seq : string) (i : nat) : result string :=
  match char_at seq i with
  | None => Raise IndexError
  | Some ch =>
      let? d := int_of_char ch in
      let mut := str_of_int (Z.abs (d - 1)) in
      Ok (slice_to i seq +:+ mut +:+ slice_from (i + 1) seq)
  end.

(** [mutate(seq, site)] with [site] a list of sites. *)
Fixpoint mutate (seq : string) (site : list nat) : result string :=
  match site with
  | [] => Ok seq
  | i :: site' => let? seq' := mutate_step seq i in mutate seq' site'
  end.

(** [mutate(seq, site)] with [site] an int: [site = [site]] first. *)
Definition mutate_int (seq : string) (site : nat) : result string :=
  mutate seq [site].

(** [mutate] takes whatever int it is handed, and a negative int indexes a
    Python sequence from its end.  The three definitions above are [mutate]
    on sites [>= 0], which is all that [range] and [rnd.randint(0, L)]
    produce; the three below are [mutate] on any int. *)

(** One turn of the loop of [mutate] for an int [i] of either sign. *)
Definition mutate_stepZ (seq : string) (i : Z) : result string :=
  match char_at_int seq i with
  | None => Raise IndexError
  | Some ch =>
      let? d := int_of_char ch in
      let mut := str_of_int (Z.abs (d - 1)) in
      Ok (slice_to_int i seq +:+ mut +:+ slice_from_int (i + 1) seq)
  end.

(** [mutate(seq, site)] with [site] a list of ints of either sign. *)
Fixpoint mutateZ (seq : string) (site : list Z) : result string :=
  match site with
  | [] => Ok seq
  | i :: site' => let? seq' := mutate_stepZ seq i in mutateZ seq' site'
  end.

(** [mutate(seq, site)] with [site] an int of either sign. *)
Definition mutate_intZ (seq : string) (site : Z) : result string :=
  mutateZ seq [site].

(** The loop of [dist] over [zip(seqA, seqB)]: [zip] stops at the end of
    the shorter sequence. *)
Fixpoint dist_loop (seqA seqB : string) (diffs : nat) : nat :=
  match seqA, seqB with
  | String ch1 seqA', String ch2 seqB' =>
      dist_loop seqA' seqB' (if Ascii.eqb ch1 ch2 then diffs else diffs + 1)
  | _, _ => diffs
  end.

(** [dist(seqA, seqB)].  The only assertion compares the types of the two
    arguments, which are both [str] here, so it always passes. *)
Definition dist (seqA seqB : string) : result nat :=
  Ok (dist_loop seqA seqB 0).

(** The dictionary returned by [get_diverged_sites]. *)
Record diverged : Type := mkDiverged {
  seq1_alleles : list ascii;
  seq2_alleles : list ascii;
  sites : list nat
}.

Fixpoint diverged_loop (seq1 seq2 : string) (r : list nat) (acc : diverged)
  : result diverged :=
  match r with
  | [] => Ok acc
  | i :: r' =>
      match char_at seq1 i, char_at seq2 i with
      | Some a, Some b =>
          if Ascii.eqb a b then diverged_loop seq1 seq2 r' acc
          else diverged_loop seq1 seq2 r'
                 (mkDiverged (seq1_alleles acc ++ [a])
                             (seq2_alleles acc ++ [b])
                             (sites acc ++ [i]))
      | _, _ => Raise IndexError
      end
  end.

Definition get_diverged_sites (seq1 seq2 : string) : result diverged :=
  let L := String.length seq1 in
  if negb (String.length seq2 =? L) then Raise AssertionError
  else diverged_loop seq1 seq2 (range L) (mkDiverged [] [] []).

Fixpoint introgress_loop (recipient : string) (sites : list nat)
    (introgressions : list string) : result (list string) :=
  match sites with
  | [] => Ok introgressions
  | i :: sites' =>
      let? m := mutate_int recipient i in
      introgress_loop recipient sites' (introgressions ++ [m])
  end.

Definition introgress (recipient donor : string) : result (list string) :=
  let L := String.length recipient in
  if negb (String.length donor =? L) then Raise AssertionError
  else
    let? diverged := get_diverged_sites recipient donor in
    if 0 <? length (sites diverged)
    then introgress_loop recipient (sites diverged) []
    else Ok [].

(** *** Genotype objects *)

(** The attributes of a [Genotype] object; [nu] exists only once
    [get_robustness] has run. *)
Record t : Type := mk {
  seq : string;
  L : nat;
  p : Q;
  viable : bool;
  nu : option Q
}.

(** [get_viability(self)]; the result is the value left in [self.viable]. *)
Definition get_viability (seq : string) (p : Q) : M bool :=
  do cached <- viability_lookup seq;
  match cached with
  | Some v => ret v
  | None =>
      do rand <- rnd_random;
      let viable := if Qlt_bool rand p then true else false in
      do _ <- viability_update seq viable;
      ret viable
  end.

(** [Genotype(seq, p)] *)
Definition init (seq : string) (p : Q) : M t :=
  do _ <- assert (Qle_bool 0 p);
  do _ <- assert (Qle_bool p 1);
  do v <- get_viability seq p;
  ret (mk seq (String.length seq) p v None).

(** [Genotype.make_viable(seq, p)] *)
Definition make_viable (seq : string) (p : Q) : M t :=
  do genotype <- init seq p;
  if negb (viable genotype) then
    do _ <- viability_update seq true;
    ret (mk (Genotype.seq genotype) (L genotype) (Genotype.p genotype) true
            (nu genotype))
  else ret genotype.

(** [Genotype.mutate_random(seq)] *)
Definition mutate_random (seq : string) : M string :=
  do site <- rnd_randint (String.length seq);
  lift (mutate_int seq site).

(** [lst[0]] *)
Definition first {A} (l : list A) : result A :=
  match l with
  | [] => Raise IndexError
  | x :: _ => Ok x
  end.

(** The loop of [get_IIs] over the introgressed sequences. *)
Fixpoint get_IIs_loop (self : t) (introgressions : list string)
    (inviable : gmap nat ascii) : M (gmap nat ascii) :=
  match introgressions with
  | [] => ret inviable
  | i :: rest =>
      do g <- init i (p self);
      if negb (viable g) then
        do diverged <- lift (get_diverged_sites (seq self) i);
        do site <- lift (first (sites diverged));
        do allele <- lift (first (seq2_alleles diverged));
        get_IIs_loop self rest (<[site := allele]> inviable)
      else get_IIs_loop self rest inviable
  end.

(** [self.get_IIs(donor)] *)
Definition get_IIs (self donor : t) : M (gmap nat ascii) :=
  do _ <- assert (Qeq_bool (p self) (p donor));
  do _ <- assert (L self =? L donor);
  do _ <- assert (viable self);
  do _ <- assert (viable donor);
  do introgressions <- lift (introgress (seq self) (seq donor));
  get_IIs_loop self introgressions ∅.

Fixpoint get_viable_neighbors_loop (self : t) (r : list nat)
    (viable : list nat) : M (list nat) :=
  match r with
  | [] => ret viable
  | i :: r' =>
      do m <- lift (mutate_int (seq self) i);
      do mut <- init m (p self);
      if Genotype.viable mut
      then get_viable_neighbors_loop self r' (viable ++ [i])
      else get_viable_neighbors_loop self r' viable
  end.

(** [self.get_viable_neighbors()] *)
Definition get_viable_neighbors (self : t) : M (list nat) :=
  get_viable_neighbors_loop self (range (L self)) [].

(** [len(viable) / self.L], a true division. *)
Definition ratio (n d : nat) : result Q :=
  if d =? 0 then Raise ZeroDivisionError
  else Ok (Qmake (Z.of_nat n) (Pos.of_nat d)).

(** [self.get_robustness()]; returns [self] with its [nu] attribute set. *)
Definition get_robustness (self : t) : M t :=
  do cached <- nu_lookup (seq self);
  match cached with
  | Some v => ret (mk (seq self) (L self) (p self) (viable self) (Some v))
  | None =>
      do viable <- get_viable_neighbors self;
      do v <- lift (ratio (length viable) (L self));
      do _ <- nu_update (seq self) v;
      ret (mk (seq self) (L self) (p self) (Genotype.viable self) (Some v))
  end.

(** Reading [self.nu]. *)
Definition get_nu (self : t) : result Q :=
  match nu self with
  | Some v => Ok v
  | None => Raise AttributeError
  end.

(** The loop of [random_sequence]: [seq += str(i)] for [i] in [rand]. *)
Fixpoint random_sequence_loop (rand : list nat) (seq : string) : string :=
  match rand with
  | [] => seq
  | i :: rand' => random_sequence_loop rand' (seq +:+ str_of_int (Z.of_nat i))
  end.

(** [Genotype.random_sequence(L)] *)
Definition random_sequence (L : nat) : M string :=
  do rand <- rnd_binomial L;
  ret (random_sequence_loop rand EmptyString).

(** [Genotype.random_viable(L, p)]; [fuel] bounds the turns of the
    [while not found] loop. *)
Fixpoint random_viable (fuel : nat) (L : nat) (p : Q) : M t :=
  match fuel with
  | 0 => unfinished
  | S fuel' =>
      do s <- random_sequence L;
      do seq <- init s p;
      if viable seq then ret seq else random_viable fuel' L p
  end.

End Genotype.

Module Population.

(** One entry of [history]: [{'seq': .., 'dist': .., 'nu': ..}]. *)
Record snapshot : Type := mkSnapshot {
  snap_seq : string;
  snap_dist : nat;
  snap_nu : Q
}.

Record t : Type := mk {
  ancestor : Genotype.t;
  current : Genotype.t;
  p : Q;
  n_steps : nat;
  dist : nat;
  history : gmap nat snapshot
}.

(** [Population(ancestor)].  [deepcopy(ancestor)] is the same record. *)
Definition init (ancestor : Genotype.t) : M t :=
  do _ <- assert (Genotype.viable ancestor);
  do ancestor <- Genotype.get_robustness ancestor;
  let current := ancestor in
  do nu <- lift (Genotype.get_nu current);
  ret (mk ancestor current (Genotype.p ancestor) 0 0
          {[ 0 := mkSnapshot (Genotype.seq current) 0 nu ]}).

(** The [while not found] loop of [substitute]; returns [self.current] as
    the loop leaves it.  [fuel] bounds the number of turns. *)
Fixpoint substitute_loop (fuel : nat) (self : t) (blind : bool)
  : M Genotype.t :=
  match fuel with
  | 0 => unfinished
  | S fuel' =>
      do m <- Genotype.mutate_random (Genotype.seq (current self));
      do mut <- Genotype.init m (p self);
      if Genotype.viable mut then ret mut
      else if blind then ret (current self)
      else substitute_loop fuel' self blind
  end.

(** [self.substitute(blind)] *)
Definition substitute (fuel : nat) (self : t) (blind : bool) : M t :=
  do current <- substitute_loop fuel self blind;
  do current <- Genotype.get_robustness current;
  let n_steps := n_steps self + 1 in
  do dist <- lift (Genotype.dist (Genotype.seq current)
                                 (Genotype.seq (ancestor self)));
  do nu <- lift (Genotype.get_nu current);
  ret (mk (ancestor self) current (p self) n_steps dist
          (<[ n_steps := mkSnapshot (Genotype.seq current) dist nu ]>
             (history self))).

End Population.

Module Orr.

Record snapshot : Type := mkSnapshot {
  snap_seq1 : string;
  snap_seq2 : string;
  snap_dist01 : nat;
  snap_dist02 : nat;
  snap_dist12 : nat;
  snap_II1 : gmap nat ascii;
  snap_II2 : gmap nat ascii;
  snap_nu1 : Q;
  snap_nu2 : Q
}.

Record t : Type := mk {
  pop1 : Population.t;
  pop2 : Population.t;
  dist : nat;
  II1 : gmap nat ascii;
  II2 : gmap nat ascii;
  p : Q;
  n_steps : nat;
  history : gmap nat snapshot
}.

(** The snapshot written into [history] by [__init__] and [substitute]. *)
Definition take_snapshot (pop1 pop2 : Population.t) (dist : nat)
    (II1 II2 : gmap nat ascii) : result snapshot :=
  let? nu1 := Genotype.get_nu (Population.current pop1) in
  let? nu2 := Genotype.get_nu (Population.current pop2) in
  Ok (mkSnapshot (Genotype.seq (Population.current pop1))
                 (Genotype.seq (Population.current pop2))
                 (Population.dist pop1) (Population.dist pop2) dist
                 II1 II2 nu1 nu2).

(** [Orr(ancestor)].  [deepcopy(self.pop1)] is the same record. *)
Definition init (ancestor : Genotype.t) : M t :=
  do pop1 <- Population.init ancestor;
  let pop2 := pop1 in
  do snap <- lift (take_snapshot pop1 pop2 0 ∅ ∅);
  ret (mk pop1 pop2 0 ∅ ∅ (Genotype.p ancestor) 0 {[ 0 := snap ]}).

(** [self.get_dist()]; returns the new [self.dist]. *)
Definition get_dist (pop1 pop2 : Population.t) : result nat :=
  Genotype.dist (Genotype.seq (Population.current pop1))
                (Genotype.seq (Population.current pop2)).

(** [self.get_IIs()]; returns the new [(self.II1, self.II2)]. *)
Definition get_IIs (pop1 pop2 : Population.t)
  : M (gmap nat ascii * gmap nat ascii) :=
  do II1 <- Genotype.get_IIs (Population.current pop1) (Population.current pop2);
  do II2 <- Genotype.get_IIs (Population.current pop2) (Population.current pop1);
  ret (II1, II2).

(** [self.substitute(blind)] *)
Definition substitute (fuel : nat) (self : t) (blind : bool) : M t :=
  do rand <- rnd_random;
  do pops <-
    (if Qlt_bool rand (1 # 2)
     then do pop1 <- Population.substitute fuel (pop1 self) blind;
          ret (pop1, pop2 self)
     else do pop2 <- Population.substitute fuel (pop2 self) blind;
          ret (pop1 self, pop2));
  let pop1 := fst pops in
  let pop2 := snd pops in
  let n_steps := n_steps self + 1 in
  do dist <- lift (get_dist pop1 pop2);
  let II1 : gmap nat ascii := ∅ in
  let II2 : gmap nat ascii := ∅ in
  do IIs <- (if 1 <? dist then get_IIs pop1 pop2 else ret (II1, II2));
  do snap <- lift (take_snapshot pop1 pop2 dist (fst IIs) (snd IIs));
  ret (mk pop1 pop2 dist (fst IIs) (snd IIs) (p self) n_steps
          (<[ n_steps := snap ]> (history self))).

(** The loop of [get_stats]: [self.history[t]] for [t] in
    [range(len(self.history))], one row per step; the columns of the data
    frame are the fields of the rows. *)
Fixpoint get_stats_loop (history : gmap nat snapshot) (r : list nat)
    (rows : list snapshot) : result (list snapshot) :=
  match r with
  | [] => Ok rows
  | t :: r' =>
      match history !! t with
      | Some row => get_stats_loop history r' (rows ++ [row])
      | None => Raise KeyError
      end
  end.

Definition get_stats_rows (self : t) : result (list snapshot) :=
  get_stats_loop (history self) (range (size (history self))) [].

End Orr.

(** ** Vocabulary of the statements *)

(** A sequence of the data model: every allele is ["0"] or ["1"]. *)
Fixpoint is_binary (s : string) : bool :=
  match s with
  | EmptyString => true
  | String c s' => (Ascii.eqb c "0" || Ascii.eqb c "1") && is_binary s'
  end.

(** The other allele of a binary site. *)
Definition flip_allele (c : ascii) : ascii :=
  if Ascii.eqb c "0" then "1"%char else "0"%char.

(** [s] with the character at [i] replaced by [c]. *)
Fixpoint set_char (i : nat) (c : ascii) (s : string) {struct s} : string :=
  match s with
  | EmptyString => EmptyString
  | String a s' =>
      match i with
      | 0 => String c s'
      | S i' => String a (set_char i' c s')
      end
  end.

(** The positions, in ascending order, at which two sequences differ. *)
Definition differing_positions (a b : string) : list nat :=
  filter (fun i => char_at a i <> char_at b i) (range (String.length a)).

(** The alleles a sequence carries at the listed sites. *)
Definition alleles_at (s : string) (sites : list nat) : list ascii :=
  omap (char_at s) sites.

(** [s] with the binary allele at site [i] flipped. *)
Definition flipped (s : string) (i : nat) : string :=
  match char_at s i with
  | Some c => set_char i (flip_allele c) s
  | None => s
  end.

(** An effectful operation keeps the world inside a relation [R], whatever
    its outcome. *)
Definition preserves (R : relation World) {A} (m : M A) : Prop :=
  forall w, R w (snd (m w)).

(** Both dictionaries keep every entry they have, with its value. *)
Definition grows (w w' : World) : Prop :=
  viability_dict w ⊆ viability_dict w' /\ nu_dict w ⊆ nu_dict w'.

(** The robustness cache is left as it is. *)
Definition same_nu (w w' : World) : Prop := nu_dict w = nu_dict w'.

(** What forcing [seq] viable may do to the viability dictionary: every entry
    stays, and only the entry of [seq] may change, from [False] to [True]. *)
Definition forces (seq : string) (w w' : World) : Prop :=
  forall s v,
    viability_dict w !! s = Some v ->
    viability_dict w' !! s = Some v \/
    (s = seq /\ v = false /\ viability_dict w' !! s = Some true).

(** An effectful operation keeps every entry of the viability dictionary,
    with its value, whatever its outcome. *)
Definition keeps_viability {A} (m : M A) : Prop :=
  forall w, viability_dict w ⊆ viability_dict (snd (m w)).

(** One operation of the program takes the world from [w] to [w'], whatever
    its outcome; [forced] is the sequence that the operation forces viable,
    which only [make_viable] does. *)
Inductive operation : option string -> World -> World -> Prop :=
| op_get_viability seq p w :
    operation None w (snd (Genotype.get_viability seq p w))
| op_Genotype_init seq p w :
    operation None w (snd (Genotype.init seq p w))
| op_make_viable seq p w :
    operation (Some seq) w (snd (Genotype.make_viable seq p w))
| op_random_viable fuel L p w :
    operation None w (snd (Genotype.random_viable fuel L p w))
| op_mutate_random seq w :
    operation None w (snd (Genotype.mutate_random seq w))
| op_Genotype_get_IIs self donor w :
    operation None w (snd (Genotype.get_IIs self donor w))
| op_get_viable_neighbors self w :
    operation None w (snd (Genotype.get_viable_neighbors self w))
| op_get_robustness self w :
    operation None w (snd (Genotype.get_robustness self w))
| op_Population_init ancestor w :
    operation None w (snd (Population.init ancestor w))
| op_Population_substitute fuel self blind w :
    operation None w (snd (Population.substitute fuel self blind w))
| op_Orr_init ancestor w :
    operation None w (snd (Orr.init ancestor w))
| op_Orr_get_IIs pop1 pop2 w :
    operation None w (snd (Orr.get_IIs pop1 pop2 w))
| op_Orr_substitute fuel self blind w :
    operation None w (snd (Orr.substitute fuel self blind w)).

(** [w'] comes after [w] in a run of the program. *)
Inductive later : World -> World -> Prop :=
| later_refl w : later w w
| later_step forced w w1 w2 :
    later w w1 -> operation forced w1 w2 -> later w w2.

(** [w'] comes after [w] in a run of the program that does not call
    [make_viable] on [seq] in between. *)
Inductive later_unforced (seq : string) : World -> World -> Prop :=
| later_unforced_refl w : later_unforced seq w w
| later_unforced_step forced w w1 w2 :
    later_unforced seq w w1 -> operation forced w1 w2 ->
    forced <> Some seq -> later_unforced seq w w2.

(** A fresh world whose generator draws [0.75] every time. *)
Definition inviable_draw_world : World :=
  mkWorld ∅ ∅ (mkRandomState (fun _ => 3 # 4) (fun _ => 0) 0).

(** A world whose viability dictionary already holds a drawn outcome. *)
Definition drawn_inviable_world : World :=
  mkWorld {[ "0" := false ]} ∅ (mkRandomState (fun _ => 0%Q) (fun _ => 0) 1).

(** The processes a run can hold: built by [Orr(ancestor)] and then stepped
    by calls of [substitute] that returned. *)
Inductive reachable : Orr.t -> Prop :=
| reachable_init ancestor w self w' :
    Orr.init ancestor w = (Ok self, w') -> reachable self
| reachable_substitute self fuel blind w self' w' :
    reachable self ->
    Orr.substitute fuel self blind w = (Ok self', w') ->
    reachable self'.

(** A probability the constructor of [Genotype] accepts. *)
Definition valid_p (p : Q) : Prop := Qle_bool 0 p = true /\ Qle_bool p 1 = true.

(** The genotypes of the data model, as [Genotype(seq, p)] builds them from a
    binary sequence. *)
Record wf_genotype (g : Genotype.t) : Prop := mk_wf_genotype {
  wf_binary : is_binary (Genotype.seq g) = true;
  wf_L : Genotype.L g = String.length (Genotype.seq g);
  wf_p : valid_p (Genotype.p g)
}.

(** The world after one call to the generator. *)
Definition advance (w : World) : World :=
  mkWorld (viability_dict w) (nu_dict w)
    (mkRandomState (next_float (rnd w)) (next_int (rnd w)) (S (drawn (rnd w)))).

(** The populations a run can hold, in a world [w]: the current genotype is a
    non-empty genotype of the data model whose [nu] is the one cached for its
    sequence, and [history] has no key beyond [n_steps]. *)
Record wf_population (w : World) (self : Population.t) : Prop := mk_wf_population {
  wf_current : wf_genotype (Population.current self);
  wf_nonempty : 0 < Genotype.L (Population.current self);
  wf_pop_p : valid_p (Population.p self);
  wf_nu : exists v,
      Genotype.nu (Population.current self) = Some v /\
      nu_dict w !! Genotype.seq (Population.current self) = Some v;
  wf_history :
    map_Forall (fun k _ => k <= Population.n_steps self) (Population.history self)
}.

(** The processes a run can hold, in a world [w]: two well-formed
    populations whose current genotypes are viable, of one length, and carry
    the one [p] of the run. *)
Record wf_process (w : World) (self : Orr.t) : Prop := mk_wf_process {
  wf_pop1 : wf_population w (Orr.pop1 self);
  wf_pop2 : wf_population w (Orr.pop2 self);
  wf_viable1 : Genotype.viable (Population.current (Orr.pop1 self)) = true;
  wf_viable2 : Genotype.viable (Population.current (Orr.pop2 self)) = true;
  wf_p1 : Genotype.p (Population.current (Orr.pop1 self))
          = Population.p (Orr.pop1 self);
  wf_p2 : Genotype.p (Population.current (Orr.pop2 self))
          = Population.p (Orr.pop2 self);
  wf_same_p : Population.p (Orr.pop1 self) = Population.p (Orr.pop2 self);
  wf_same_L : Genotype.L (Population.current (Orr.pop1 self))
              = Genotype.L (Population.current (Orr.pop2 self))
}.

(** ** Vocabulary of the further properties *)

(** The number a binary sequence writes, most significant allele first
    (Python's [int(s, 2)]), on top of [acc]. *)
Fixpoint seq_value_acc (s : string) (acc : Z) : Z :=
  match s with
  | EmptyString => acc
  | String c s' =>
      seq_value_acc s' (2 * acc + (if Ascii.eqb c "1" then 1 else 0))%Z
  end.

Definition seq_value (s : string) : Z := seq_value_acc s 0.

(** The allele [mutate] writes over a decimal digit [c]: the digit of
    [abs(int(c) - 1)]. *)
Definition mutated_allele (c : ascii) : option ascii :=
  match Ascii.is_nat c with
  | Some 0 => Some "1"%char
  | Some 1 => Some "0"%char
  | Some 2 => Some "1"%char
  | Some 3 => Some "2"%char
  | Some 4 => Some "3"%char
  | Some 5 => Some "4"%char
  | Some 6 => Some "5"%char
  | Some 7 => Some "6"%char
  | Some 8 => Some "7"%char
  | Some 9 => Some "8"%char
  | _ => None
  end.

(** Every cached robustness is a fraction of [[0, 1]]. *)
Definition nu_dict_bounded (w : World) : Prop :=
  map_Forall (fun _ v => (0 <= v)%Q /\ (v <= 1)%Q) (nu_dict w).

(** The populations a run can hold: built by [Population(ancestor)] and then
    stepped by calls of [substitute] that returned, in either regime. *)
Inductive population_reachable : Population.t -> Prop :=
| population_reachable_init ancestor w self w' :
    Population.init ancestor w = (Ok self, w') -> population_reachable self
| population_reachable_substitute self fuel blind w self' w' :
    population_reachable self ->
    Population.substitute fuel self blind w = (Ok self', w') ->
    population_reachable self'.

(** The bookkeeping a population keeps in step with its genotypes. *)
Record population_consistent (self : Population.t) : Prop :=
  mk_population_consistent {
  pc_length :
    String.length (Genotype.seq (Population.current self))
    = String.length (Genotype.seq (Population.ancestor self));
  pc_dist :
    Genotype.dist (Genotype.seq (Population.current self))
                  (Genotype.seq (Population.ancestor self))
    = Ok (Population.dist self);
  pc_dist_steps : Population.dist self <= Population.n_steps self;
  pc_viable : Genotype.viable (Population.current self) = true;
  pc_snapshot : exists nu,
      Genotype.nu (Population.current self) = Some nu /\
      Population.history self !! Population.n_steps self
      = Some (Population.mkSnapshot (Genotype.seq (Population.current self))
                (Population.dist self) nu);
  pc_keys : forall k,
      is_Some (Population.history self !! k) <-> k <= Population.n_steps self
}.

(** The bookkeeping a process keeps in step with its two populations. *)
Record process_consistent (self : Orr.t) : Prop := mk_process_consistent {
  oc_pop1 : population_consistent (Orr.pop1 self);
  oc_pop2 : population_consistent (Orr.pop2 self);
  oc_ancestor :
    Population.ancestor (Orr.pop1 self) = Population.ancestor (Orr.pop2 self);
  oc_dist : Orr.get_dist (Orr.pop1 self) (Orr.pop2 self) = Ok (Orr.dist self);
  oc_steps :
    Orr.n_steps self
    = Population.n_steps (Orr.pop1 self) + Population.n_steps (Orr.pop2 self);
  oc_IIs : Orr.dist self <= 1 -> Orr.II1 self = ∅ /\ Orr.II2 self = ∅;
  oc_snapshot :
    exists snap,
      Orr.take_snapshot (Orr.pop1 self) (Orr.pop2 self) (Orr.dist self)
        (Orr.II1 self) (Orr.II2 self) = Ok snap /\
      Orr.history self !! Orr.n_steps self = Some snap
}.

(** The character [str(i)] of one draw [i] of [rnd.binomial(1, .5, L)]. *)
Definition bit_char (n : nat) : ascii :=
  if n mod 2 =? 0 then "0"%char else "1"%char.

(** The characters of the draws [l], in order. *)
Definition bit_string (l : list nat) : string :=
  fold_right (fun n s => String (bit_char n) s) EmptyString l.

(** The world after [size] calls to the generator. *)
Definition skip (size : nat) (w : World) : World :=
  mkWorld (viability_dict w) (nu_dict w)
    (mkRandomState (next_float (rnd w)) (next_int (rnd w))
                   (drawn (rnd w) + size)).

(** No sequence of length [L] is recorded viable. *)
Definition no_viable (L : nat) (w : World) : Prop :=
  forall s, String.length s = L -> viability_dict w !! s <> Some true.

(** ** A sample run

    The tape below makes ["000"], ["100"], ["010"], ["101"] and ["011"]
    viable and ["001"] and ["110"] inviable at [p = 0.5], sends the first and
    third step to pop1 and the second to pop2, and picks sites 0, 1 and 1. *)

Definition sample_floats (k : nat) : Q :=
  if bool_decide (k ∈ [3; 6; 8]) then 3 # 4 else 1 # 4.

Definition sample_ints (k : nat) : nat :=
  if bool_decide (k ∈ [9; 12]) then 1 else 0.

Definition sample_world : World :=
  mkWorld ∅ ∅ (mkRandomState sample_floats sample_ints 0).

(** [n] blind steps of the process that [start] builds. *)
Definition blind_steps (n : nat) (start : M Orr.t) : M Orr.t :=
  Nat.iter n (fun m => do self <- m; Orr.substitute 1 self true) start.

(** [Orr(Genotype.make_viable('000', 0.5))] followed by [n] blind steps. *)
Definition sample_process (n : nat) : M Orr.t :=
  blind_steps n
    (do ancestor <- Genotype.make_viable "000" (1 # 2); Orr.init ancestor).

(** The two lineages after the second step of the sample run, as fresh
    genotypes, and the landscape seen so far. *)
Definition sample_lineage1 : Genotype.t := Genotype.mk "100" 3 (1 # 2) true None.
Definition sample_lineage2 : Genotype.t := Genotype.mk "010" 3 (1 # 2) true None.

Definition sample_landscape : World :=
  mkWorld {[ "000" := true; "100" := true; "010" := true; "110" := false ]} ∅
          (mkRandomState sample_floats sample_ints 0).

(** The population [Population(Genotype.make_viable('000', 0.5))] of the
    sample run and the world it is built in. *)
Definition sample_ancestor : Genotype.t :=
  Genotype.mk "000" 3 (1 # 2) true (Some (2 # 3)).

Definition sample_population : Population.t :=
  Population.mk sample_ancestor sample_ancestor (1 # 2) 0 0
    {[ 0 := Population.mkSnapshot "000" 0 (2 # 3) ]}.

Definition sample_population_world : World :=
  mkWorld {[ "000" := true; "100" := true; "010" := true; "001" := false ]}
          {[ "000" := 2 # 3 ]}
          (mkRandomState sample_floats sample_ints 4).

(** ** Sequences: indexing, slicing, replacing a character *)

Lemma char_at_lt s i : i < String.length s -> exists c, char_at s i = Some c.
Proof.
  revert i. induction s as [|a s IH]; intros i Hi; simpl in *; [lia|].
  destruct i as [|i]; [by eexists|]. apply IH. lia.
Qed.

Lemma char_at_ge s i : String.length s <= i -> char_at s i = None.
Proof.
  revert i. induction s as [|a s IH]; intros i Hi; simpl in *; [by destruct i|].
  destruct i as [|i]; [lia|]. apply IH. lia.
Qed.

Lemma char_at_Some_lt s i c : char_at s i = Some c -> i < String.length s.
Proof.
  intros H. destruct (decide (i < String.length s)) as [|Hn]; [done|].
  rewrite char_at_ge in H by lia. done.
Qed.

Lemma length_set_char i c s : String.length (set_char i c s) = String.length s.
Proof.
  revert i. induction s as [|a s IH]; intros [|i]; simpl; auto.
Qed.

Lemma char_at_set_char_eq i c s :
  i < String.length s -> char_at (set_char i c s) i = Some c.
Proof.
  revert i. induction s as [|a s IH]; intros [|i] Hi; simpl in *; try lia; auto.
  apply IH. lia.
Qed.

Lemma char_at_set_char_ne i j c s :
  i <> j -> char_at (set_char i c s) j = char_at s j.
Proof.
  revert i j. induction s as [|a s IH]; intros [|i] [|j] Hij; simpl; auto.
  all: try done.
  all: apply IH; lia.
Qed.

Lemma set_char_set_char i c c' s :
  set_char i c (set_char i c' s) = set_char i c s.
Proof.
  revert i. induction s as [|a s IH]; intros [|i]; simpl; auto.
  by rewrite IH.
Qed.

Lemma set_char_id i c s : char_at s i = Some c -> set_char i c s = s.
Proof.
  revert i. induction s as [|a s IH]; intros [|i] H; simpl in *; auto.
  - by injection H as ->.
  - by rewrite IH.
Qed.

Lemma slice_set_char i c s :
  i < String.length s ->
  slice_to i s +:+ String c EmptyString +:+ slice_from (i + 1) s
  = set_char i c s.
Proof.
  revert i. induction s as [|a s IH]; intros i Hi; simpl in *; [lia|].
  destruct i as [|i]; cbn [slice_to slice_from set_char Nat.add].
  - reflexivity.
  - rewrite <- (IH i) by lia. reflexivity.
Qed.

Lemma append_String_r s c t :
  (s +:+ String c EmptyString) +:+ t = s +:+ String c t.
Proof. induction s as [|a s IH]; [done|]. exact (f_equal (String a) IH). Qed.

Lemma append_empty_r s : s +:+ EmptyString = s.
Proof. induction s as [|a s IH]; [done|]. exact (f_equal (String a) IH). Qed.

Lemma length_append s t :
  String.length (s +:+ t) = String.length s + String.length t.
Proof. induction s as [|a s IH]; [done|]. exact (f_equal S IH). Qed.

(** ** Binary sequences and [mutate] *)

Lemma is_binary_char_at s i c :
  is_binary s = true -> char_at s i = Some c -> c = "0"%char \/ c = "1"%char.
Proof.
  revert i. induction s as [|a s IH]; intros i Hb Hc; simpl in *.
  - by destruct i.
  - apply andb_true_iff in Hb as [Ha Hs].
    destruct i as [|i].
    + injection Hc as <-. apply orb_true_iff in Ha as [Ha|Ha];
        apply Ascii.eqb_eq in Ha; auto.
    + eauto.
Qed.

Lemma is_binary_set_char i c s :
  is_binary s = true -> (c = "0"%char \/ c = "1"%char) ->
  is_binary (set_char i c s) = true.
Proof.
  intros Hs Hc. revert i Hs.
  induction s as [|a s IH]; intros i Hs; simpl in *; auto.
  apply andb_true_iff in Hs as [Ha Hs].
  destruct i as [|i]; simpl; apply andb_true_iff; split; auto.
  destruct Hc as [-> | ->]; done.
Qed.

Lemma flip_allele_binary c : flip_allele c = "0"%char \/ flip_allele c = "1"%char.
Proof. unfold flip_allele. destruct (Ascii.eqb c "0"); auto. Qed.

Lemma flip_allele_involutive c :
  c = "0"%char \/ c = "1"%char -> flip_allele (flip_allele c) = c.
Proof. by intros [-> | ->]. Qed.

Lemma flip_allele_ne c : flip_allele c <> c.
Proof.
  unfold flip_allele. destruct (Ascii.eqb c "0") eqn:E.
  - apply Ascii.eqb_eq in E as ->. done.
  - intros <-. done.
Qed.

Lemma mutate_step_binary s i c :
  is_binary s = true -> char_at s i = Some c ->
  Genotype.mutate_step s i = Ok (set_char i (flip_allele c) s).
Proof.
  intros Hb Hc. unfold Genotype.mutate_step. rewrite Hc.
  pose proof (char_at_Some_lt _ _ _ Hc) as Hi.
  destruct (is_binary_char_at _ _ _ Hb Hc) as [-> | ->]; cbn;
    by rewrite <- slice_set_char.
Qed.

Lemma mutate_int_binary s i c :
  is_binary s = true -> char_at s i = Some c ->
  Genotype.mutate_int s i = Ok (set_char i (flip_allele c) s).
Proof.
  intros Hb Hc. unfold Genotype.mutate_int. simpl.
  by rewrite (mutate_step_binary _ _ _ Hb Hc).
Qed.

(** ** Diverged sites and the Hamming distance *)

Lemma filter_fmap_comm {A B} (f : A -> B) (P : B -> Prop)
    `{!forall x, Decision (P x)} (l : list A) :
  filter P (f <$> l) = f <$> filter (fun x => P (f x)) l.
Proof.
  induction l as [|x l IH]; [done|].
  rewrite fmap_cons, !filter_cons. case_decide; rewrite IH; done.
Qed.

Lemma differing_positions_cons c1 c2 a b :
  differing_positions (String c1 a) (String c2 b)
  = (if decide (c1 = c2) then [] else [0]) ++ (S <$> differing_positions a b).
Proof.
  unfold differing_positions, range. cbn [String.length seq].
  rewrite <- fmap_S_seq, filter_cons, filter_fmap_comm.
  cbn [char_at String.get].
  destruct (decide (c1 = c2)) as [->|Hne]; case_decide as H;
    first [done | exfalso; apply H; congruence | exfalso; congruence].
Qed.

Lemma differing_positions_lt a b i :
  i ∈ differing_positions a b -> i < String.length a.
Proof.
  unfold differing_positions, range. rewrite list_elem_of_filter, elem_of_seq. lia.
Qed.

Lemma differing_positions_spec a b i :
  String.length a = String.length b ->
  i ∈ differing_positions a b <-> char_at a i <> char_at b i.
Proof.
  intros Hlen. unfold differing_positions, range.
  rewrite list_elem_of_filter, elem_of_seq. split; [tauto|].
  intros Hne. split; [done|]. split; [lia|].
  destruct (decide (i < String.length a)); [lia|].
  rewrite !char_at_ge in Hne by lia. done.
Qed.

Lemma differing_positions_refl a : differing_positions a a = [].
Proof.
  unfold differing_positions. induction (range (String.length a)) as [|i l IH]; [done|].
  rewrite filter_cons. case_decide; done.
Qed.

Lemma StronglySorted_filter_lt (P : nat -> Prop) `{!forall x, Decision (P x)} j n :
  StronglySorted lt (filter P (seq j n)).
Proof.
  revert j. induction n as [|n IH]; intros j; cbn [seq]; [constructor|].
  rewrite filter_cons. case_decide; [|apply IH].
  constructor; [apply IH|].
  apply Forall_forall. intros k Hk.
  apply list_elem_of_filter in Hk as [_ Hk]. apply elem_of_seq in Hk. lia.
Qed.

Lemma differing_positions_sorted a b :
  StronglySorted lt (differing_positions a b).
Proof. apply StronglySorted_filter_lt. Qed.

Lemma dist_loop_acc a b n :
  Genotype.dist_loop a b n = n + Genotype.dist_loop a b 0.
Proof.
  revert b n. induction a as [|c1 a IH]; intros [|c2 b] n; simpl; try lia.
  destruct (Ascii.eqb c1 c2).
  - apply IH.
  - rewrite (IH b (n + 1)), (IH b 1). lia.
Qed.

Lemma dist_loop_differing a b :
  String.length a = String.length b ->
  Genotype.dist_loop a b 0 = length (differing_positions a b).
Proof.
  revert b. induction a as [|c1 a IH]; intros [|c2 b] Hlen; simpl in Hlen;
    try done.
  rewrite differing_positions_cons, length_app, length_fmap. simpl.
  destruct (Ascii.eqb_spec c1 c2) as [->|Hne].
  - rewrite decide_True by done. simpl. apply IH. lia.
  - rewrite decide_False by done. simpl. rewrite dist_loop_acc, IH by lia. done.
Qed.

Lemma diverged_loop_spec s1 s2 r acc :
  Forall (fun i => i < String.length s1 /\ i < String.length s2) r ->
  Genotype.diverged_loop s1 s2 r acc
  = Ok (let dp := filter (fun i => char_at s1 i <> char_at s2 i) r in
        Genotype.mkDiverged
          (Genotype.seq1_alleles acc ++ alleles_at s1 dp)
          (Genotype.seq2_alleles acc ++ alleles_at s2 dp)
          (Genotype.sites acc ++ dp)).
Proof.
  intros Hr. revert acc. induction Hr as [|i r [Hi1 Hi2] Hr IH]; intros acc.
  - simpl. unfold alleles_at. simpl. rewrite !app_nil_r. by destruct acc.
  - cbn [Genotype.diverged_loop].
    destruct (char_at_lt _ _ Hi1) as [a Ha], (char_at_lt _ _ Hi2) as [b Hb].
    rewrite Ha, Hb, filter_cons.
    destruct (Ascii.eqb_spec a b) as [->|Hne].
    + rewrite decide_False by (rewrite Ha, Hb; intros H; by apply H).
      apply IH.
    + rewrite decide_True by (rewrite Ha, Hb; congruence).
      rewrite IH. cbn. unfold alleles_at. cbn. rewrite Ha, Hb. cbn.
      by rewrite <- !app_assoc.
Qed.

Lemma get_diverged_sites_spec s1 s2 :
  String.length s1 = String.length s2 ->
  Genotype.get_diverged_sites s1 s2
  = Ok (Genotype.mkDiverged (alleles_at s1 (differing_positions s1 s2))
                            (alleles_at s2 (differing_positions s1 s2))
                            (differing_positions s1 s2)).
Proof.
  intros Hlen. unfold Genotype.get_diverged_sites.
  rewrite <- Hlen, Nat.eqb_refl. cbn [negb].
  rewrite diverged_loop_spec; [done|].
  apply Forall_forall. intros i Hi. apply elem_of_seq in Hi. lia.
Qed.

Lemma get_diverged_sites_length_mismatch s1 s2 :
  String.length s1 <> String.length s2 ->
  Genotype.get_diverged_sites s1 s2 = Raise AssertionError.
Proof.
  intros Hlen. unfold Genotype.get_diverged_sites.
  destruct (Nat.eqb_spec (String.length s2) (String.length s1)); [congruence|done].
Qed.

(** ** Introgression *)

Lemma flipped_binary s i :
  is_binary s = true -> is_binary (flipped s i) = true.
Proof.
  intros Hb. unfold flipped. destruct (char_at s i); [|done].
  apply is_binary_set_char; [done|apply flip_allele_binary].
Qed.

Lemma length_flipped s i : String.length (flipped s i) = String.length s.
Proof. unfold flipped. destruct (char_at s i); [apply length_set_char|done]. Qed.

Lemma mutate_int_flipped s i :
  is_binary s = true -> i < String.length s ->
  Genotype.mutate_int s i = Ok (flipped s i).
Proof.
  intros Hb Hi. destruct (char_at_lt _ _ Hi) as [c Hc].
  unfold flipped. rewrite Hc. by apply mutate_int_binary.
Qed.

Lemma flipped_involutive s i :
  is_binary s = true -> flipped (flipped s i) i = s.
Proof.
  intros Hb. unfold flipped at 2. destruct (char_at s i) as [c|] eqn:Hc.
  - pose proof (char_at_Some_lt _ _ _ Hc) as Hi.
    unfold flipped. rewrite char_at_set_char_eq by done.
    rewrite set_char_set_char, flip_allele_involutive
      by eauto using is_binary_char_at.
    by apply set_char_id.
  - unfold flipped. by rewrite Hc.
Qed.

Lemma char_at_flipped_ne s i j : j <> i -> char_at (flipped s i) j = char_at s j.
Proof.
  intros Hne. unfold flipped. destruct (char_at s i); [|done].
  apply char_at_set_char_ne. congruence.
Qed.

Lemma char_at_flipped_eq s i c :
  char_at s i = Some c -> char_at (flipped s i) i = Some (flip_allele c).
Proof.
  intros Hc. unfold flipped. rewrite Hc.
  apply char_at_set_char_eq. by eapply char_at_Some_lt.
Qed.

(** On binary sequences the flipped allele of a diverged site is the allele
    of the other sequence. *)
Lemma char_at_flipped_diverged r d i :
  is_binary r = true -> is_binary d = true ->
  String.length r = String.length d ->
  i ∈ differing_positions r d ->
  char_at (flipped r i) i = char_at d i.
Proof.
  intros Hr Hd Hlen Hi.
  pose proof (differing_positions_lt _ _ _ Hi) as Hlt.
  apply differing_positions_spec in Hi; [|done].
  destruct (char_at_lt r i) as [a Ha]; [done|].
  destruct (char_at_lt d i) as [b Hb]; [lia|].
  rewrite (char_at_flipped_eq _ _ _ Ha), Hb. f_equal.
  rewrite Ha, Hb in Hi.
  destruct (is_binary_char_at _ _ _ Hr Ha) as [-> | ->],
           (is_binary_char_at _ _ _ Hd Hb) as [-> | ->]; done.
Qed.

Lemma introgress_loop_spec r sites acc :
  is_binary r = true -> Forall (fun i => i < String.length r) sites ->
  Genotype.introgress_loop r sites acc = Ok (acc ++ (flipped r <$> sites)).
Proof.
  intros Hb Hs. revert acc. induction Hs as [|i sites Hi Hs IH]; intros acc.
  - simpl. by rewrite app_nil_r.
  - cbn [Genotype.introgress_loop]. rewrite mutate_int_flipped by done.
    cbn [rbind]. rewrite IH, fmap_cons. by rewrite <- app_assoc.
Qed.

Lemma introgress_spec r d :
  is_binary r = true -> String.length r = String.length d ->
  Genotype.introgress r d = Ok (flipped r <$> differing_positions r d).
Proof.
  intros Hb Hlen. unfold Genotype.introgress.
  rewrite <- Hlen, Nat.eqb_refl. cbn [negb].
  rewrite get_diverged_sites_spec by done. cbn [rbind Genotype.sites].
  destruct (differing_positions r d) as [|i l] eqn:E; [done|].
  cbn [length Nat.ltb Nat.leb]. rewrite introgress_loop_spec; [done|done|].
  apply Forall_forall. intros j Hj. rewrite <- E in Hj.
  by eapply differing_positions_lt.
Qed.

Lemma introgress_length_mismatch r d :
  String.length r <> String.length d ->
  Genotype.introgress r d = Raise AssertionError.
Proof.
  intros Hlen. unfold Genotype.introgress.
  destruct (Nat.eqb_spec (String.length d) (String.length r)); [congruence|done].
Qed.

(** ** The Hamming distance *)

Lemma dist_equal_length a b :
  String.length a = String.length b ->
  Genotype.dist a b = Ok (length (differing_positions a b)).
Proof. intros Hlen. unfold Genotype.dist. by rewrite dist_loop_differing. Qed.

(** C1.  [Genotype.dist] has no length check: on the sequences ["0"] and
    ["01"], whose lengths differ, it returns [0] (the count over the common
    prefix that [zip] walks) instead of failing, while the sibling operations
    [get_diverged_sites] and [introgress] fail their length assertion on the
    same pair. *)
Theorem dist_unequal_length_returns :
  String.length "0" <> String.length "01" /\
  Genotype.dist "0" "01" = Ok 0 /\
  Genotype.get_diverged_sites "0" "01" = Raise AssertionError /\
  Genotype.introgress "0" "01" = Raise AssertionError.
Proof. repeat split; done. Qed.

(** ** Mutation *)

(** C8.  On a binary sequence [s] and a site [i] in [[0, L)], [mutate(s, i)]
    returns a sequence of the same length whose allele at [i] is the flipped
    one and whose other positions are those of [s]; mutating the result at
    [i] again gives back [s]. *)
Theorem mutate_flips_one_site s i :
  is_binary s = true -> i < String.length s ->
  exists s' c,
    Genotype.mutate_int s i = Ok s' /\
    String.length s' = String.length s /\
    char_at s i = Some c /\
    char_at s' i = Some (flip_allele c) /\
    flip_allele c <> c /\
    (forall j, j <> i -> char_at s' j = char_at s j) /\
    Genotype.mutate_int s' i = Ok s.
Proof.
  intros Hb Hi. destruct (char_at_lt _ _ Hi) as [c Hc].
  exists (flipped s i), c. repeat split.
  - by apply mutate_int_flipped.
  - apply length_flipped.
  - done.
  - by apply char_at_flipped_eq.
  - apply flip_allele_ne.
  - intros j Hj. by apply char_at_flipped_ne.
  - rewrite mutate_int_flipped.
    + by rewrite flipped_involutive.
    + by apply flipped_binary.
    + by rewrite length_flipped.
Qed.

Lemma mutate_flips_one_site_witness :
  exists s' c,
    Genotype.mutate_int "00000" 1 = Ok s' /\
    String.length s' = String.length "00000" /\
    char_at "00000" 1 = Some c /\
    char_at s' 1 = Some (flip_allele c) /\
    flip_allele c <> c /\
    (forall j, j <> 1 -> char_at s' j = char_at "00000" j) /\
    Genotype.mutate_int s' 1 = Ok "00000".
Proof. apply (mutate_flips_one_site "00000" 1); [reflexivity | simpl; lia]. Defined.

(** ** Introgression *)

(** C7.  On binary sequences of equal length [introgress(recipient, donor)]
    returns as many sequences as the Hamming distance, one per diverged site
    in ascending order, each the recipient with that site alone replaced by
    the donor's allele; nothing when the two are identical; and the
    documented example evaluates as stated. *)
Theorem introgress_one_per_diverged_site r d :
  is_binary r = true -> is_binary d = true ->
  String.length r = String.length d ->
  exists l,
    Genotype.introgress r d = Ok l /\
    Genotype.dist r d = Ok (length l) /\
    (forall i, i ∈ differing_positions r d <-> char_at r i <> char_at d i) /\
    StronglySorted lt (differing_positions r d) /\
    Forall2 (fun site s' =>
               String.length s' = String.length r /\
               forall j, char_at s' j
                         = if decide (j = site) then char_at d j else char_at r j)
            (differing_positions r d) l /\
    (r = d -> l = []) /\
    Genotype.introgress "00000" "01110" = Ok ["01000"; "00100"; "00010"].
Proof.
  intros Hr Hd Hlen. exists (flipped r <$> differing_positions r d).
  split; [by apply introgress_spec|].
  split; [by rewrite length_fmap, dist_equal_length|].
  split; [intros i; by apply differing_positions_spec|].
  split; [apply differing_positions_sorted|].
  split; [|split; [|reflexivity]].
  - apply Forall2_fmap_r, Forall_Forall2_diag, Forall_forall.
    intros site Hsite. split; [apply length_flipped|].
    intros j. case_decide as Hj.
    + subst j. by apply char_at_flipped_diverged.
    + by apply char_at_flipped_ne.
  - intros ->. by rewrite differing_positions_refl.
Qed.

Lemma introgress_one_per_diverged_site_witness :
  exists l,
    Genotype.introgress "00000" "01110" = Ok l /\
    Genotype.dist "00000" "01110" = Ok (length l) /\
    (forall i, i ∈ differing_positions "00000" "01110"
               <-> char_at "00000" i <> char_at "01110" i) /\
    StronglySorted lt (differing_positions "00000" "01110") /\
    Forall2 (fun site s' =>
               String.length s' = String.length "00000" /\
               forall j, char_at s' j
                         = if decide (j = site) then char_at "01110" j
                           else char_at "00000" j)
            (differing_positions "00000" "01110") l /\
    ("00000" = "01110" -> l = []) /\
    Genotype.introgress "00000" "01110" = Ok ["01000"; "00100"; "00010"].
Proof.
  apply (introgress_one_per_diverged_site "00000" "01110"); reflexivity.
Defined.

(** ** Reasoning about effectful code *)

Lemma bind_Ok {A B} (m : M A) (k : A -> M B) w a w1 :
  m w = (Ok a, w1) -> bind m k w = k a w1.
Proof. intros H. unfold bind. by rewrite H. Qed.

Lemma bind_Ok_inv {A B} (m : M A) (k : A -> M B) w b w' :
  bind m k w = (Ok b, w') ->
  exists a w1, m w = (Ok a, w1) /\ k a w1 = (Ok b, w').
Proof.
  unfold bind. destruct (m w) as [[a| |] w1]; intros H; try done. eauto.
Qed.

Lemma ret_Ok_inv {A} (a b : A) w w' : ret a w = (Ok b, w') -> a = b /\ w = w'.
Proof. unfold ret. intros H. by injection H. Qed.

Lemma lift_Ok_inv {A} (r : result A) b w w' :
  lift r w = (Ok b, w') -> r = Ok b /\ w = w'.
Proof. unfold lift. intros H. by injection H. Qed.

Lemma assert_Ok_inv b u w w' : assert b w = (Ok u, w') -> b = true /\ w = w'.
Proof. destruct b; unfold assert, ret, raise; intros H; [by injection H|done]. Qed.

Lemma assert_true w : assert true w = (Ok tt, w).
Proof. reflexivity. Qed.

(** Splits a successful run of a sequence of binds into its steps. *)
Ltac inv_run :=
  repeat match goal with
  | H : bind _ _ _ = (Ok _, _) |- _ =>
      let a := fresh "a" in let w := fresh "w" in let Ha := fresh "Hrun" in
      apply bind_Ok_inv in H as (a & w & Ha & H)
  | H : ret _ _ = (Ok _, _) |- _ => apply ret_Ok_inv in H as [? ?]; subst
  | H : lift _ _ = (Ok _, _) |- _ => apply lift_Ok_inv in H as [H ?]; subst
  | H : assert _ _ = (Ok _, _) |- _ => apply assert_Ok_inv in H as [H ?]; subst
  end.

Section Preserves.
Context (R : relation World) `{!PreOrder R}.

Lemma preserves_ret {A} (a : A) : preserves R (ret a).
Proof. intros w. simpl. reflexivity. Qed.

Lemma preserves_raise {A} e : preserves R (@raise A e).
Proof. intros w. simpl. reflexivity. Qed.

Lemma preserves_unfinished {A} : preserves R (@unfinished A).
Proof. intros w. simpl. reflexivity. Qed.

Lemma preserves_lift {A} (r : result A) : preserves R (lift r).
Proof. intros w. simpl. reflexivity. Qed.

Lemma preserves_assert b : preserves R (assert b).
Proof. destruct b; [apply preserves_ret|apply preserves_raise]. Qed.

Lemma preserves_bind {A B} (m : M A) (k : A -> M B) :
  preserves R m -> (forall a, preserves R (k a)) -> preserves R (bind m k).
Proof.
  intros Hm Hk w. unfold bind. specialize (Hm w).
  destruct (m w) as [[a| |] w1]; simpl in *; try done.
  etrans; [exact Hm|apply Hk].
Qed.

Lemma preserves_run {A} (m : M A) w r w' :
  preserves R m -> m w = (r, w') -> R w w'.
Proof. intros Hm H. specialize (Hm w). by rewrite H in Hm. Qed.
End Preserves.

Global Instance grows_preorder : PreOrder grows.
Proof.
  split.
  - intros w. split; reflexivity.
  - intros w1 w2 w3 [H1 H2] [H3 H4]. split; etrans; eauto.
Qed.

(** Steps through a chain of binds, leaving the operations it does not know. *)
Ltac preserves_step :=
  lazymatch goal with
  | |- preserves _ (bind _ _) => apply preserves_bind; [apply _| |intros ?]
  | |- preserves _ (ret _) => apply preserves_ret; apply _
  | |- preserves _ (raise _) => apply preserves_raise; apply _
  | |- preserves _ unfinished => apply preserves_unfinished; apply _
  | |- preserves _ (lift _) => apply preserves_lift; apply _
  | |- preserves _ (assert _) => apply preserves_assert; apply _
  | |- preserves _ (if ?b then _ else _) => destruct b
  | |- preserves _ (match ?x with _ => _ end) => destruct x
  | |- preserves _ _ => solve [eauto with preserves]
  end.

(** ** The dictionaries only grow *)

Lemma rnd_random_grows : preserves grows rnd_random.
Proof. intros w. split; reflexivity. Qed.

Lemma rnd_randint_grows high : preserves grows (rnd_randint high).
Proof. intros w. unfold rnd_randint. destruct (high =? 0); split; reflexivity. Qed.

Lemma viability_lookup_grows s : preserves grows (viability_lookup s).
Proof. intros w. split; reflexivity. Qed.

Lemma nu_lookup_grows s : preserves grows (nu_lookup s).
Proof. intros w. split; reflexivity. Qed.

Global Hint Resolve rnd_random_grows rnd_randint_grows viability_lookup_grows
  nu_lookup_grows : preserves.

Lemma get_viability_grows s p : preserves grows (Genotype.get_viability s p).
Proof.
  intros w. unfold Genotype.get_viability, bind, viability_lookup.
  destruct (viability_dict w !! s) eqn:E; simpl; [reflexivity|].
  split; simpl; [|reflexivity]. by apply insert_subseteq.
Qed.
Global Hint Resolve get_viability_grows : preserves.

Lemma init_grows s p : preserves grows (Genotype.init s p).
Proof. unfold Genotype.init. repeat preserves_step. Qed.
Global Hint Resolve init_grows : preserves.

Lemma mutate_random_grows s : preserves grows (Genotype.mutate_random s).
Proof. unfold Genotype.mutate_random. repeat preserves_step. Qed.
Global Hint Resolve mutate_random_grows : preserves.

Lemma get_IIs_loop_grows self l acc :
  preserves grows (Genotype.get_IIs_loop self l acc).
Proof.
  revert acc. induction l as [|i l IH]; intros acc; simpl;
    repeat preserves_step; auto.
Qed.
Global Hint Resolve get_IIs_loop_grows : preserves.

Lemma get_IIs_grows self donor : preserves grows (Genotype.get_IIs self donor).
Proof. unfold Genotype.get_IIs. repeat preserves_step. Qed.
Global Hint Resolve get_IIs_grows : preserves.

Lemma get_viable_neighbors_loop_grows self r acc :
  preserves grows (Genotype.get_viable_neighbors_loop self r acc).
Proof.
  revert acc. induction r as [|i r IH]; intros acc; simpl;
    repeat preserves_step; auto.
Qed.
Global Hint Resolve get_viable_neighbors_loop_grows : preserves.

Global Instance same_nu_preorder : PreOrder same_nu.
Proof. split; unfold same_nu; [done|congruence]. Qed.

Lemma rnd_random_same_nu : preserves same_nu rnd_random.
Proof. by intros w. Qed.

Lemma viability_lookup_same_nu s : preserves same_nu (viability_lookup s).
Proof. by intros w. Qed.

Lemma viability_update_same_nu s v : preserves same_nu (viability_update s v).
Proof. by intros w. Qed.

Global Hint Resolve rnd_random_same_nu viability_lookup_same_nu
  viability_update_same_nu : preserves.

Lemma get_viability_same_nu s p : preserves same_nu (Genotype.get_viability s p).
Proof. unfold Genotype.get_viability. repeat preserves_step. Qed.
Global Hint Resolve get_viability_same_nu : preserves.

Lemma init_same_nu s p : preserves same_nu (Genotype.init s p).
Proof. unfold Genotype.init. repeat preserves_step. Qed.
Global Hint Resolve init_same_nu : preserves.

Lemma get_viable_neighbors_loop_same_nu self r acc :
  preserves same_nu (Genotype.get_viable_neighbors_loop self r acc).
Proof.
  revert acc. induction r as [|i r IH]; intros acc; simpl;
    repeat preserves_step; auto.
Qed.

Lemma get_robustness_grows self : preserves grows (Genotype.get_robustness self).
Proof.
  intros w. unfold Genotype.get_robustness, bind at 1, nu_lookup.
  destruct (nu_dict w !! Genotype.seq self) eqn:E; [reflexivity|].
  unfold Genotype.get_viable_neighbors.
  pose proof (get_viable_neighbors_loop_grows self (range (Genotype.L self)) [] w)
    as Hn.
  pose proof (get_viable_neighbors_loop_same_nu self (range (Genotype.L self)) [] w)
    as Hnu.
  unfold bind.
  destruct (Genotype.get_viable_neighbors_loop self _ [] w) as [[l| |] w1];
    simpl in *; try done.
  unfold lift. destruct (Genotype.ratio _ _) as [v| |]; simpl; try done.
  etrans; [exact Hn|]. split; simpl; [reflexivity|].
  apply insert_subseteq. unfold same_nu in Hnu. by rewrite <- Hnu.
Qed.
Global Hint Resolve get_robustness_grows : preserves.

Lemma Population_init_grows ancestor : preserves grows (Population.init ancestor).
Proof. unfold Population.init. repeat preserves_step. Qed.
Global Hint Resolve Population_init_grows : preserves.

Lemma substitute_loop_grows fuel self blind :
  preserves grows (Population.substitute_loop fuel self blind).
Proof.
  induction fuel as [|fuel IH]; simpl; repeat preserves_step; auto.
Qed.
Global Hint Resolve substitute_loop_grows : preserves.

Lemma Population_substitute_grows fuel self blind :
  preserves grows (Population.substitute fuel self blind).
Proof. unfold Population.substitute. repeat preserves_step. Qed.
Global Hint Resolve Population_substitute_grows : preserves.

Lemma Orr_init_grows ancestor : preserves grows (Orr.init ancestor).
Proof. unfold Orr.init. repeat preserves_step. Qed.

Lemma Orr_get_IIs_grows pop1 pop2 : preserves grows (Orr.get_IIs pop1 pop2).
Proof. unfold Orr.get_IIs. repeat preserves_step. Qed.
Global Hint Resolve Orr_get_IIs_grows : preserves.

Lemma Orr_substitute_grows fuel self blind :
  preserves grows (Orr.substitute fuel self blind).
Proof. unfold Orr.substitute. repeat preserves_step. Qed.

Lemma rnd_binomial_grows size : preserves grows (rnd_binomial size).
Proof. intros w. split; reflexivity. Qed.
Global Hint Resolve rnd_binomial_grows : preserves.

Lemma random_sequence_grows L : preserves grows (Genotype.random_sequence L).
Proof. unfold Genotype.random_sequence. repeat preserves_step. Qed.
Global Hint Resolve random_sequence_grows : preserves.

Lemma random_viable_grows fuel L p :
  preserves grows (Genotype.random_viable fuel L p).
Proof.
  induction fuel as [|fuel IH]; simpl; repeat preserves_step; auto.
Qed.

Lemma get_viable_neighbors_grows self :
  preserves grows (Genotype.get_viable_neighbors self).
Proof. unfold Genotype.get_viable_neighbors. repeat preserves_step. Qed.

(** ** Forcing a genotype viable *)

Lemma make_viable_forces seq p w :
  forces seq w (snd (Genotype.make_viable seq p w)) /\
  nu_dict (snd (Genotype.make_viable seq p w)) = nu_dict w.
Proof.
  pose proof (init_grows seq p w) as [Hg _].
  pose proof (init_same_nu seq p w) as Hnu. unfold same_nu in Hnu.
  unfold Genotype.make_viable, bind.
  destruct (Genotype.init seq p w) as [[g| |] w1]; simpl in *.
  - destruct (Genotype.viable g); unfold bind, viability_update, ret; simpl.
    + split; [|done]. intros s v Hs. left.
      by eapply lookup_weaken.
    + split; [|done]. intros s v Hs.
      pose proof (lookup_weaken _ _ _ _ Hs Hg) as Hs1.
      cbn [viability_dict].
      destruct (decide (s = seq)) as [->|Hne].
      * rewrite lookup_insert_eq. destruct v; auto.
      * left. by rewrite lookup_insert_ne.
  - split; [|done]. intros s v Hs. left. by eapply lookup_weaken.
  - split; [|done]. intros s v Hs. left. by eapply lookup_weaken.
Qed.


Lemma grows_keeps_viability {A} (m : M A) : preserves grows m -> keeps_viability m.
Proof. intros H w. apply H. Qed.

(** The world of the counterexample is the one a first lookup of ["0"] with
    [p = 0] leaves behind. *)
Lemma drawn_inviable_world_reached :
  Genotype.init "0" 0
    (mkWorld ∅ ∅ (mkRandomState (fun _ => 0%Q) (fun _ => 0) 0))
  = (Ok (Genotype.mk "0" 1 0 false None), drawn_inviable_world).
Proof. reflexivity. Qed.

(** C4, as stated, fails: [make_viable] overwrites a recorded [False]. *)
Lemma make_viable_overwrites_entry :
  viability_dict drawn_inviable_world !! "0" = Some false /\
  viability_dict (snd (Genotype.make_viable "0" 0 drawn_inviable_world)) !! "0"
  = Some true /\
  ~ keeps_viability (Genotype.make_viable "0" 0).
Proof.
  split; [reflexivity|]. split; [reflexivity|].
  intros H. specialize (H drawn_inviable_world).
  assert (viability_dict drawn_inviable_world !! "0" = Some false) as Hl
    by reflexivity.
  pose proof (lookup_weaken _ _ _ _ Hl H) as Hl'.
  vm_compute in Hl'. discriminate.
Qed.

(** C4, amended.  Viability lookup, genotype construction, robustness,
    incompatibility inference, population construction and substitution,
    process construction and stepping keep every entry of the viability
    dictionary with its value.  Forcing a sequence viable keeps every entry
    too, except that the entry of that sequence may go from [False] to
    [True]. *)
Theorem viability_dict_grows_except_forced :
  (forall seq p, keeps_viability (Genotype.get_viability seq p)) /\
  (forall seq p, keeps_viability (Genotype.init seq p)) /\
  (forall self, keeps_viability (Genotype.get_robustness self)) /\
  (forall self donor, keeps_viability (Genotype.get_IIs self donor)) /\
  (forall ancestor, keeps_viability (Population.init ancestor)) /\
  (forall fuel self blind,
     keeps_viability (Population.substitute fuel self blind)) /\
  (forall ancestor, keeps_viability (Orr.init ancestor)) /\
  (forall fuel self blind, keeps_viability (Orr.substitute fuel self blind)) /\
  (forall seq p w, forces seq w (snd (Genotype.make_viable seq p w))).
Proof.
  repeat split; intros; try apply grows_keeps_viability;
    auto using Orr_init_grows, Orr_substitute_grows with preserves.
  apply make_viable_forces.
Qed.

(** ** The memoised viability lookup *)

Lemma get_viability_hit seq p w v :
  viability_dict w !! seq = Some v ->
  Genotype.get_viability seq p w = (Ok v, w).
Proof.
  intros Hv. unfold Genotype.get_viability, bind, viability_lookup.
  by rewrite Hv.
Qed.

Lemma get_viability_miss seq p w :
  viability_dict w !! seq = None ->
  let v := Qlt_bool (next_float (rnd w) (drawn (rnd w))) p in
  Genotype.get_viability seq p w
  = (Ok v,
     mkWorld (<[seq := v]> (viability_dict w)) (nu_dict w)
       (mkRandomState (next_float (rnd w)) (next_int (rnd w))
                      (S (drawn (rnd w))))).
Proof.
  intros Hv. unfold Genotype.get_viability, bind, viability_lookup.
  rewrite Hv. cbn. by destruct (Qlt_bool _ _).
Qed.

Lemma get_viability_recorded seq p w :
  exists v w1,
    Genotype.get_viability seq p w = (Ok v, w1) /\
    viability_dict w1 !! seq = Some v.
Proof.
  destruct (viability_dict w !! seq) as [v|] eqn:E.
  - exists v, w. split; [by apply get_viability_hit|done].
  - eexists _, _. split; [by apply get_viability_miss|].
    cbn. by rewrite lookup_insert_eq.
Qed.

Lemma init_run seq p w :
  valid_p p ->
  exists v w1,
    Genotype.init seq p w
    = (Ok (Genotype.mk seq (String.length seq) p v None), w1) /\
    viability_dict w1 !! seq = Some v.
Proof.
  intros [Hp0 Hp1].
  destruct (get_viability_recorded seq p w) as (v & w1 & Hrun & Hv).
  exists v, w1. split; [|done].
  unfold Genotype.init. rewrite Hp0, Hp1.
  rewrite (bind_Ok _ _ _ _ _ (assert_true w)).
  rewrite (bind_Ok _ _ _ _ _ (assert_true w)).
  by rewrite (bind_Ok _ _ _ _ _ Hrun).
Qed.

Lemma operation_forces forced w w' :
  operation forced w w' ->
  forall s v,
    viability_dict w !! s = Some v ->
    viability_dict w' !! s = Some v \/
    (forced = Some s /\ v = false /\ viability_dict w' !! s = Some true).
Proof.
  intros Hop s v Hs.
  assert (forall {A} (m : M A),
            preserves grows m -> viability_dict (snd (m w)) !! s = Some v)
    as Hgrows.
  { intros A m Hm. eapply lookup_weaken; [exact Hs|]. apply (Hm w). }
  destruct Hop;
    try (left; apply Hgrows;
         auto using Orr_init_grows, Orr_substitute_grows, random_viable_grows,
           get_viable_neighbors_grows with preserves; fail).
  destruct (make_viable_forces seq p w) as [Hf _].
  destruct (Hf s v Hs) as [Hkeep|(-> & -> & Hforced)]; [by left|by right].
Qed.

Lemma later_unforced_keeps seq w w' v :
  later_unforced seq w w' ->
  viability_dict w !! seq = Some v -> viability_dict w' !! seq = Some v.
Proof.
  induction 1 as [w|forced w w1 w2 Hrun IH Hop Hforced]; intros Hv; [done|].
  destruct (operation_forces _ _ _ Hop seq v (IH Hv)) as [Hkeep|(-> & _)];
    [done|congruence].
Qed.

Lemma later_keeps_or_forces seq w w' v :
  later w w' ->
  viability_dict w !! seq = Some v ->
  viability_dict w' !! seq = Some v \/
  (v = false /\ viability_dict w' !! seq = Some true).
Proof.
  induction 1 as [w|forced w w1 w2 Hrun IH Hop]; intros Hv; [by left|].
  destruct (IH Hv) as [Hv1|[-> Hv1]].
  - destruct (operation_forces _ _ _ Hop seq v Hv1) as [Hkeep|(_ & -> & Ht)];
      [by left|by right].
  - right. split; [done|].
    destruct (operation_forces _ _ _ Hop seq true Hv1) as [Hkeep|(_ & ? & _)];
      done.
Qed.

(** C3, as stated, fails: a first lookup of ["000"] with [p = 0.5] on a draw
    of [0.75] returns and records [False]; [make_viable] on that sequence
    then overwrites the record, and the next lookup returns [True]. *)
Lemma get_viability_differs_once_forced :
  exists w1 g w2,
    Genotype.get_viability "000" (1 # 2) inviable_draw_world = (Ok false, w1) /\
    Genotype.make_viable "000" (1 # 2) w1 = (Ok g, w2) /\
    later w1 w2 /\
    Genotype.get_viability "000" (1 # 2) w2 = (Ok true, w2).
Proof.
  eexists _, _, _. split; [vm_compute; reflexivity|].
  match goal with
  | |- ?m ?w1 = (Ok ?g, ?w2) /\ _ =>
      assert (m w1 = (Ok g, w2)) as Hrun by (vm_compute; reflexivity);
      pose proof (op_make_viable "000" (1 # 2) w1) as Hop;
      rewrite Hrun in Hop
  end.
  split; [exact Hrun|].
  split; [exact (later_step _ _ _ _ (later_refl _) Hop)|].
  vm_compute. reflexivity.
Qed.

(** C3, amended.  A lookup of a sequence that is not in the dictionary draws
    one float, is viable exactly when the draw is below [p], and records the
    outcome; a lookup of a recorded sequence returns the record and changes
    nothing.  After a lookup, every later lookup of the same sequence, with
    any [p], returns the first outcome as long as the run has not called
    [make_viable] on that sequence in between; whatever the run has done in
    between, it returns the first outcome or, when [make_viable] has forced
    the sequence, [True], and it changes nothing. *)
Theorem get_viability_memoised seq p w :
  exists v w1,
    Genotype.get_viability seq p w = (Ok v, w1) /\
    (viability_dict w !! seq = None ->
       v = Qlt_bool (next_float (rnd w) (drawn (rnd w))) p /\
       viability_dict w1 = <[seq := v]> (viability_dict w) /\
       drawn (rnd w1) = S (drawn (rnd w))) /\
    (forall v0, viability_dict w !! seq = Some v0 -> v = v0 /\ w1 = w) /\
    viability_dict w1 !! seq = Some v /\
    (forall w2 p',
       later_unforced seq w1 w2 ->
       Genotype.get_viability seq p' w2 = (Ok v, w2)) /\
    (forall w2 p',
       later w1 w2 ->
       exists v',
         Genotype.get_viability seq p' w2 = (Ok v', w2) /\
         (v' = v \/ (v = false /\ v' = true))).
Proof.
  destruct (get_viability_recorded seq p w) as (v & w1 & Hrun & Hv).
  exists v, w1. split; [exact Hrun|].
  split; [|split; [|split; [exact Hv|split]]].
  - intros Hmiss. rewrite (get_viability_miss _ _ _ Hmiss) in Hrun.
    injection Hrun as <- <-. done.
  - intros v0 Hhit. rewrite (get_viability_hit _ _ _ _ Hhit) in Hrun.
    by injection Hrun as <- <-.
  - intros w2 p' Hlater. apply get_viability_hit.
    by eapply later_unforced_keeps.
  - intros w2 p' Hlater.
    destruct (later_keeps_or_forces _ _ _ _ Hlater Hv) as [Hv2|[-> Hv2]].
    + exists v. split; [by apply get_viability_hit|by left].
    + exists true. split; [by apply get_viability_hit|by right].
Qed.

(** ** One step of a population and of the process, taken apart *)

Lemma Population_init_inv ancestor w self w' :
  Population.init ancestor w = (Ok self, w') ->
  exists anc nu,
    Genotype.viable ancestor = true /\
    Genotype.get_robustness ancestor w = (Ok anc, w') /\
    Genotype.get_nu anc = Ok nu /\
    self = Population.mk anc anc (Genotype.p anc) 0 0
             {[ 0 := Population.mkSnapshot (Genotype.seq anc) 0 nu ]}.
Proof.
  unfold Population.init. intros H. inv_run. eauto 10.
Qed.

Lemma Population_substitute_inv fuel self blind w self' w' :
  Population.substitute fuel self blind w = (Ok self', w') ->
  exists cur0 w1 cur d nu,
    Population.substitute_loop fuel self blind w = (Ok cur0, w1) /\
    Genotype.get_robustness cur0 w1 = (Ok cur, w') /\
    Genotype.dist (Genotype.seq cur) (Genotype.seq (Population.ancestor self))
    = Ok d /\
    Genotype.get_nu cur = Ok nu /\
    self' = Population.mk (Population.ancestor self) cur (Population.p self)
              (Population.n_steps self + 1) d
              (<[ Population.n_steps self + 1
                  := Population.mkSnapshot (Genotype.seq cur) d nu ]>
                 (Population.history self)).
Proof.
  unfold Population.substitute. intros H. inv_run. eauto 12.
Qed.

Lemma rnd_random_run w :
  rnd_random w
  = (Ok (next_float (rnd w) (drawn (rnd w))),
     mkWorld (viability_dict w) (nu_dict w)
       (mkRandomState (next_float (rnd w)) (next_int (rnd w))
                      (S (drawn (rnd w))))).
Proof. reflexivity. Qed.

Lemma Orr_get_IIs_inv pop1 pop2 w IIs w' :
  Orr.get_IIs pop1 pop2 w = (Ok IIs, w') ->
  exists w1,
    Genotype.get_IIs (Population.current pop1) (Population.current pop2) w
    = (Ok (fst IIs), w1) /\
    Genotype.get_IIs (Population.current pop2) (Population.current pop1) w1
    = (Ok (snd IIs), w').
Proof.
  unfold Orr.get_IIs. intros H. inv_run. simpl. eauto.
Qed.

Lemma Orr_substitute_inv fuel self blind w self' w' :
  Orr.substitute fuel self blind w = (Ok self', w') ->
  exists rand w0 pop1 pop2 w1 d IIs snap,
    rnd_random w = (Ok rand, w0) /\
    (if Qlt_bool rand (1 # 2)
     then Population.substitute fuel (Orr.pop1 self) blind w0 = (Ok pop1, w1)
          /\ pop2 = Orr.pop2 self
     else Population.substitute fuel (Orr.pop2 self) blind w0 = (Ok pop2, w1)
          /\ pop1 = Orr.pop1 self) /\
    Orr.get_dist pop1 pop2 = Ok d /\
    (if 1 <? d then Orr.get_IIs pop1 pop2 w1 = (Ok IIs, w')
     else IIs = (∅, ∅) /\ w' = w1) /\
    Orr.take_snapshot pop1 pop2 d (fst IIs) (snd IIs) = Ok snap /\
    self' = Orr.mk pop1 pop2 d (fst IIs) (snd IIs) (Orr.p self)
              (Orr.n_steps self + 1)
              (<[ Orr.n_steps self + 1 := snap ]> (Orr.history self)).
Proof.
  unfold Orr.substitute. intros H. inv_run.
  match goal with H : rnd_random _ = (Ok ?r, ?w0) |- _ =>
    exists r, w0 end.
  match goal with H : (if Qlt_bool ?r ?h then _ else _) _ = (Ok ?pops, ?w1) |- _ =>
    exists (fst pops), (snd pops), w1; destruct (Qlt_bool r h) eqn:Hr; inv_run
  end.
  all: match goal with H : Orr.get_dist _ _ = Ok ?d |- _ =>
         exists d; destruct (1 <? d) eqn:Hd; inv_run end.
  all: eexists _, _; simpl; rewrite ?Hd; eauto 10.
Qed.

(** ** The divergence process *)

(** C5.  A step that returned drew one float and let one population take
    its [substitute].  Then [dist] is the Hamming distance between the two
    current sequences; if it is at most 1 both incompatibility mappings are
    empty and nothing more ran (the world is the one the population step
    left); if it exceeds 1 they are the results of [get_IIs] from pop2 into
    pop1 and then from pop1 into pop2, run from that world. *)
Theorem Orr_substitute_IIs fuel self blind w self' w' :
  Orr.substitute fuel self blind w = (Ok self', w') ->
  exists rand w0 pop w1,
    rnd_random w = (Ok rand, w0) /\
    Population.substitute fuel
      (if Qlt_bool rand (1 # 2) then Orr.pop1 self else Orr.pop2 self) blind w0
    = (Ok pop, w1) /\
    Orr.get_dist (Orr.pop1 self') (Orr.pop2 self') = Ok (Orr.dist self') /\
    (Orr.dist self' <= 1 ->
       Orr.II1 self' = ∅ /\ Orr.II2 self' = ∅ /\ w' = w1) /\
    (1 < Orr.dist self' ->
       exists w2,
         Genotype.get_IIs (Population.current (Orr.pop1 self'))
                          (Population.current (Orr.pop2 self')) w1
         = (Ok (Orr.II1 self'), w2) /\
         Genotype.get_IIs (Population.current (Orr.pop2 self'))
                          (Population.current (Orr.pop1 self')) w2
         = (Ok (Orr.II2 self'), w')).
Proof.
  intros H.
  apply Orr_substitute_inv in H
    as (rand & w0 & pop1 & pop2 & w1 & d & IIs & snap
        & Hrand & Hpop & Hd & HII & Hsnap & ->).
  exists rand, w0, (if Qlt_bool rand (1 # 2) then pop1 else pop2), w1.
  cbn [Orr.pop1 Orr.pop2 Orr.dist Orr.II1 Orr.II2].
  split; [done|].
  split; [by destruct (Qlt_bool rand (1 # 2)); destruct Hpop as [Hpop _]|].
  split; [done|].
  destruct (Nat.ltb_spec 1 d) as [Hlt|Hle].
  - split; [lia|]. intros _. by apply Orr_get_IIs_inv.
  - destruct HII as [-> ->]. split; [done|]. lia.
Qed.

Lemma Population_substitute_ancestor fuel self blind w self' w' :
  Population.substitute fuel self blind w = (Ok self', w') ->
  Population.ancestor self' = Population.ancestor self /\
  Population.p self' = Population.p self /\
  Population.n_steps self' = Population.n_steps self + 1.
Proof.
  intros H. apply Population_substitute_inv in H
    as (cur0 & w1 & cur & d & nu & _ & _ & _ & _ & ->). done.
Qed.

(** C9.  A step that returned drew one float: below 0.5 it is pop1 that
    took a [substitute] and pop2 is the record it was, otherwise it is pop2
    and pop1 is the record it was; in both cases the ancestors of both
    populations are the ones they had. *)
Theorem Orr_substitute_one_population fuel self blind w self' w' :
  Orr.substitute fuel self blind w = (Ok self', w') ->
  exists rand w0 w1,
    rnd_random w = (Ok rand, w0) /\
    (Qlt_bool rand (1 # 2) = true ->
       Population.substitute fuel (Orr.pop1 self) blind w0
       = (Ok (Orr.pop1 self'), w1) /\
       Orr.pop2 self' = Orr.pop2 self) /\
    (Qlt_bool rand (1 # 2) = false ->
       Population.substitute fuel (Orr.pop2 self) blind w0
       = (Ok (Orr.pop2 self'), w1) /\
       Orr.pop1 self' = Orr.pop1 self) /\
    Population.ancestor (Orr.pop1 self') = Population.ancestor (Orr.pop1 self) /\
    Population.ancestor (Orr.pop2 self') = Population.ancestor (Orr.pop2 self).
Proof.
  intros H.
  apply Orr_substitute_inv in H
    as (rand & w0 & pop1 & pop2 & w1 & d & IIs & snap
        & Hrand & Hpop & Hd & HII & Hsnap & ->).
  exists rand, w0, w1. cbn [Orr.pop1 Orr.pop2].
  split; [done|].
  destruct (Qlt_bool rand (1 # 2)); destruct Hpop as [Hpop ->].
  - split; [done|]. split; [done|]. split; [|done].
    by apply Population_substitute_ancestor in Hpop as [-> _].
  - split; [done|]. split; [done|]. split; [done|].
    by apply Population_substitute_ancestor in Hpop as [-> _].
Qed.

(** ** Bookkeeping of the process *)

Lemma get_stats_loop_total history r rows :
  (forall t, t ∈ r -> is_Some (history !! t)) ->
  exists rows',
    Orr.get_stats_loop history r rows = Ok rows' /\
    length rows' = length rows + length r.
Proof.
  revert rows. induction r as [|t r IH]; intros rows Hr; simpl.
  - exists rows. split; [done|lia].
  - destruct (Hr t) as [row Hrow]; [left|]. rewrite Hrow.
    destruct (IH (rows ++ [row])) as (rows' & -> & Hlen).
    { intros t' Ht'. apply Hr. by right. }
    exists rows'. split; [done|]. rewrite length_app in Hlen. simpl in Hlen. lia.
Qed.

Lemma Orr_init_inv ancestor w self w' :
  Orr.init ancestor w = (Ok self, w') ->
  exists pop1 snap,
    Population.init ancestor w = (Ok pop1, w') /\
    self = Orr.mk pop1 pop1 0 ∅ ∅ (Genotype.p ancestor) 0 {[ 0 := snap ]}.
Proof. unfold Orr.init. intros H. inv_run. eauto. Qed.

(** C10.  In every process a run can hold, [n_steps] is the sum of the two
    populations' [n_steps], the keys of [history] are exactly [0 .. n_steps],
    there are [n_steps + 1] of them, and the loop of [get_stats] over
    [range(len(history))] finds every row. *)
Theorem Orr_history_contiguous self :
  reachable self ->
  Orr.n_steps self
  = Population.n_steps (Orr.pop1 self) + Population.n_steps (Orr.pop2 self) /\
  (forall k, is_Some (Orr.history self !! k) <-> k <= Orr.n_steps self) /\
  size (Orr.history self) = S (Orr.n_steps self) /\
  exists rows,
    Orr.get_stats_rows self = Ok rows /\ length rows = S (Orr.n_steps self).
Proof.
  intros Hreach.
  assert (Orr.n_steps self
          = Population.n_steps (Orr.pop1 self) + Population.n_steps (Orr.pop2 self)
          /\ (forall k, is_Some (Orr.history self !! k) <-> k <= Orr.n_steps self)
          /\ size (Orr.history self) = S (Orr.n_steps self)) as (Hn & Hk & Hsz).
  { induction Hreach as [ancestor w self w' Hinit
                        |self fuel blind w self' w' _ (IHn & IHk & IHsz) Hstep].
    - apply Orr_init_inv in Hinit as (pop1 & snap & Hpop & ->).
      apply Population_init_inv in Hpop as (anc & nu & _ & _ & _ & ->).
      cbn. split; [done|]. split; [|by rewrite map_size_singleton].
      intros k. rewrite lookup_singleton_is_Some. lia.
    - apply Orr_substitute_inv in Hstep
        as (rand & w0 & pop1 & pop2 & w1 & d & IIs & snap
            & Hrand & Hpop & Hd & HII & Hsnap & ->).
      cbn [Orr.pop1 Orr.pop2 Orr.n_steps Orr.history].
      assert (Orr.history self !! (Orr.n_steps self + 1) = None) as Hfresh.
      { apply eq_None_not_Some. rewrite IHk. lia. }
      split; [|split].
      + destruct (Qlt_bool rand (1 # 2)); destruct Hpop as [Hpop ->];
          apply Population_substitute_ancestor in Hpop as (_ & _ & ->); lia.
      + intros k. rewrite lookup_insert_is_Some, IHk. lia.
      + rewrite map_size_insert_None by done. lia. }
  split; [done|]. split; [done|]. split; [done|].
  unfold Orr.get_stats_rows.
  destruct (get_stats_loop_total (Orr.history self)
              (range (size (Orr.history self))) []) as (rows & Hrows & Hlen).
  { intros t Ht. apply elem_of_seq in Ht. apply Hk. lia. }
  exists rows. split; [done|].
  rewrite Hlen. unfold range. rewrite length_seq, Hsz. done.
Qed.

(** ** Incompatible introgressions *)

Lemma flipped_cons_0 a r : flipped (String a r) 0 = String (flip_allele a) r.
Proof. reflexivity. Qed.

Lemma flipped_cons_S a r k : flipped (String a r) (S k) = String a (flipped r k).
Proof. unfold flipped. simpl. by destruct (char_at r k). Qed.

Lemma differing_positions_flipped r site :
  site < String.length r -> differing_positions r (flipped r site) = [site].
Proof.
  revert site. induction r as [|a r IH]; intros [|k] Hk; simpl in Hk; try lia.
  - rewrite flipped_cons_0, differing_positions_cons, differing_positions_refl.
    rewrite decide_False; [done|]. intros H. by apply (flip_allele_ne a).
  - rewrite flipped_cons_S, differing_positions_cons, IH by lia.
    by rewrite decide_True.
Qed.

Lemma get_diverged_sites_flipped r site c :
  char_at r site = Some c ->
  Genotype.get_diverged_sites r (flipped r site)
  = Ok (Genotype.mkDiverged [c] [flip_allele c] [site]).
Proof.
  intros Hc. pose proof (char_at_Some_lt _ _ _ Hc) as Hlt.
  rewrite get_diverged_sites_spec by (by rewrite length_flipped).
  rewrite differing_positions_flipped by done.
  unfold alleles_at. cbn. rewrite Hc, (char_at_flipped_eq _ _ _ Hc). done.
Qed.

(** The mapping the loop of [get_IIs] builds over the introgressions at
    the sites [ss]: a site is bound exactly when its introgression is
    recorded inviable, or when it was bound before and is not overwritten. *)
Lemma get_IIs_loop_run self ss acc w :
  wf_genotype self ->
  Forall (fun i => i < String.length (Genotype.seq self)) ss ->
  exists m w',
    Genotype.get_IIs_loop self (flipped (Genotype.seq self) <$> ss) acc w
    = (Ok m, w') /\
    forall site a,
      m !! site = Some a <->
      (site ∈ ss /\
       viability_dict w' !! flipped (Genotype.seq self) site = Some false /\
       char_at (flipped (Genotype.seq self) site) site = Some a) \/
      (acc !! site = Some a /\
       ~ (site ∈ ss /\
          viability_dict w' !! flipped (Genotype.seq self) site = Some false)).
Proof.
  intros Hwf Hss. revert acc w.
  induction Hss as [|site ss Hsite Hss IH]; intros acc w.
  - exists acc, w. split; [done|]. intros site a.
    rewrite elem_of_nil. naive_solver.
  - rewrite fmap_cons. cbn [Genotype.get_IIs_loop].
    destruct (init_run (flipped (Genotype.seq self) site) (Genotype.p self) w
                (wf_p _ Hwf)) as (v & w1 & Hinit & Hv).
    rewrite (bind_Ok _ _ _ _ _ Hinit). cbn [Genotype.viable].
    destruct (char_at_lt _ _ Hsite) as [c Hc].
    destruct v; cbn [negb].
    + destruct (IH acc w1) as (m & w' & Hrun & Hm).
      exists m, w'. split; [done|]. intros x a. rewrite Hm.
      assert (viability_dict w' !! flipped (Genotype.seq self) site = Some true)
        as Hv'.
      { eapply lookup_weaken; [exact Hv|].
        eapply (preserves_run grows), Hrun. apply get_IIs_loop_grows. }
      rewrite elem_of_cons.
      destruct (decide (x = site)) as [->|Hne]; [|naive_solver].
      rewrite Hv'. naive_solver.
    + rewrite (get_diverged_sites_flipped _ _ _ Hc).
      unfold lift at 1 2 3. unfold bind at 1 2 3.
      cbn [Genotype.sites Genotype.seq2_alleles Genotype.first].
      destruct (IH (<[site := flip_allele c]> acc) w1)
        as (m & w' & Hrun & Hm).
      exists m, w'. split; [done|]. intros x a. rewrite Hm.
      assert (viability_dict w' !! flipped (Genotype.seq self) site = Some false)
        as Hv'.
      { eapply lookup_weaken; [exact Hv|].
        eapply (preserves_run grows), Hrun. apply get_IIs_loop_grows. }
      rewrite elem_of_cons.
      destruct (decide (x = site)) as [->|Hne].
      * rewrite lookup_insert_eq, (char_at_flipped_eq _ _ _ Hc).
        destruct (decide (site ∈ ss)); naive_solver.
      * rewrite lookup_insert_ne by done. naive_solver.
Qed.

(** C2.  [self.get_IIs(donor)] fails its assertions, leaving the world as
    it was, whenever the two [p] differ, the two [L] differ, or one of the two
    genotypes is not viable.  Otherwise it returns a mapping that binds a
    site to an allele exactly when the two sequences differ at that site, the
    allele is the donor's there, and the sequence obtained by mutating
    [self.seq] at that site is recorded inviable in the dictionary the call
    leaves behind. *)
Theorem get_IIs_incompatible_introgressions self donor w :
  wf_genotype self -> wf_genotype donor ->
  ((Qeq_bool (Genotype.p self) (Genotype.p donor) = false \/
    Genotype.L self <> Genotype.L donor \/
    Genotype.viable self = false \/
    Genotype.viable donor = false) ->
   Genotype.get_IIs self donor w = (Raise AssertionError, w)) /\
  (Qeq_bool (Genotype.p self) (Genotype.p donor) = true ->
   Genotype.L self = Genotype.L donor ->
   Genotype.viable self = true ->
   Genotype.viable donor = true ->
   exists m w',
     Genotype.get_IIs self donor w = (Ok m, w') /\
     grows w w' /\
     forall site a,
       m !! site = Some a <->
       char_at (Genotype.seq self) site <> char_at (Genotype.seq donor) site /\
       char_at (Genotype.seq donor) site = Some a /\
       exists s',
         Genotype.mutate_int (Genotype.seq self) site = Ok s' /\
         viability_dict w' !! s' = Some false).
Proof.
  intros Hself Hdonor. split.
  - intros Hfail. unfold Genotype.get_IIs.
    destruct (Qeq_bool (Genotype.p self) (Genotype.p donor)); [|done].
    rewrite (bind_Ok _ _ _ _ _ (assert_true w)).
    destruct (Nat.eqb_spec (Genotype.L self) (Genotype.L donor)); [|done].
    rewrite (bind_Ok _ _ _ _ _ (assert_true w)).
    destruct (Genotype.viable self); [|done].
    rewrite (bind_Ok _ _ _ _ _ (assert_true w)).
    destruct (Genotype.viable donor); [|done].
    exfalso. destruct Hfail as [?|[?|[?|?]]]; done.
  - intros Hp HL Hv1 Hv2.
    pose proof (wf_binary _ Hself) as Hbs.
    pose proof (wf_binary _ Hdonor) as Hbd.
    assert (String.length (Genotype.seq self)
            = String.length (Genotype.seq donor)) as Hlen.
    { by rewrite <- (wf_L _ Hself), <- (wf_L _ Hdonor). }
    destruct (get_IIs_loop_run self
                (differing_positions (Genotype.seq self) (Genotype.seq donor))
                ∅ w Hself) as (m & w' & Hrun & Hm).
    { apply Forall_forall. intros i Hi. by eapply differing_positions_lt. }
    exists m, w'. split; [|split].
    + unfold Genotype.get_IIs. rewrite Hp, HL, Nat.eqb_refl, Hv1, Hv2.
      rewrite !(bind_Ok _ _ _ _ _ (assert_true w)).
      rewrite (introgress_spec _ _ Hbs Hlen).
      unfold lift, bind at 1. exact Hrun.
    + eapply (preserves_run grows), Hrun. apply get_IIs_loop_grows.
    + intros site a. rewrite Hm, lookup_empty.
      rewrite <- (differing_positions_spec _ _ site Hlen).
      split.
      * intros [(Hsite & Hinv & Ha)|[? _]]; [|done].
        split; [done|]. split.
        -- rewrite <- Ha. symmetry. by apply char_at_flipped_diverged.
        -- exists (flipped (Genotype.seq self) site). split; [|done].
           apply mutate_int_flipped; [done|].
           by eapply differing_positions_lt.
      * intros (Hsite & Ha & s' & Hmut & Hinv). left.
        rewrite mutate_int_flipped in Hmut;
          [|done|by eapply differing_positions_lt].
        injection Hmut as <-. split; [done|]. split; [done|].
        rewrite <- Ha. by apply char_at_flipped_diverged.
Qed.

(** ** The random walk of a population *)

Lemma rnd_randint_run high w :
  high <> 0 ->
  rnd_randint high w
  = (Ok (next_int (rnd w) (drawn (rnd w)) mod high), advance w).
Proof.
  intros Hh. unfold rnd_randint.
  destruct (Nat.eqb_spec high 0); [done|reflexivity].
Qed.

Lemma mutate_random_run seq w :
  is_binary seq = true -> 0 < String.length seq ->
  let site := next_int (rnd w) (drawn (rnd w)) mod String.length seq in
  site < String.length seq /\
  Genotype.mutate_random seq w = (Ok (flipped seq site), advance w).
Proof.
  intros Hb Hlen site.
  assert (site < String.length seq) as Hsite
    by (apply Nat.mod_upper_bound; lia).
  split; [done|]. unfold Genotype.mutate_random.
  rewrite (bind_Ok _ _ _ _ _
             (rnd_randint_run (String.length seq) w ltac:(lia))).
  fold site. by rewrite mutate_int_flipped.
Qed.

Lemma get_viable_neighbors_loop_run self r acc w :
  wf_genotype self ->
  Forall (fun i => i < String.length (Genotype.seq self)) r ->
  exists l w',
    Genotype.get_viable_neighbors_loop self r acc w = (Ok l, w').
Proof.
  intros Hwf Hr. revert acc w.
  induction Hr as [|i r Hi Hr IH]; intros acc w; simpl; [by eexists _, _|].
  rewrite mutate_int_flipped by (done || apply (wf_binary _ Hwf)).
  unfold lift, bind at 1.
  destruct (init_run (flipped (Genotype.seq self) i) (Genotype.p self) w
              (wf_p _ Hwf)) as (v & w1 & Hinit & _).
  rewrite (bind_Ok _ _ _ _ _ Hinit). cbn [Genotype.viable].
  destruct v; apply IH.
Qed.

Lemma get_robustness_run self w :
  wf_genotype self -> 0 < Genotype.L self ->
  exists v w',
    Genotype.get_robustness self w
    = (Ok (Genotype.mk (Genotype.seq self) (Genotype.L self) (Genotype.p self)
                       (Genotype.viable self) (Some v)), w') /\
    nu_dict w' !! Genotype.seq self = Some v /\
    (forall v0, nu_dict w !! Genotype.seq self = Some v0 -> v = v0 /\ w' = w).
Proof.
  intros Hwf Hpos. unfold Genotype.get_robustness, bind at 1, nu_lookup.
  destruct (nu_dict w !! Genotype.seq self) as [v0|] eqn:E.
  - exists v0, w. split; [done|]. split; [done|]. intros v1 Hv1. split; congruence.
  - unfold Genotype.get_viable_neighbors.
    destruct (get_viable_neighbors_loop_run self (range (Genotype.L self)) [] w Hwf)
      as (l & w1 & Hrun).
    { apply Forall_forall. intros i Hi. apply elem_of_seq in Hi.
      rewrite <- (wf_L _ Hwf). lia. }
    rewrite (bind_Ok _ _ _ _ _ Hrun). unfold Genotype.ratio.
    destruct (Nat.eqb_spec (Genotype.L self) 0); [lia|].
    eexists _, _. split; [reflexivity|]. cbn [nu_dict].
    split; [by rewrite lookup_insert_eq|]. intros v0 Hv0. done.
Qed.

(** C6.  In the blind regime, on a population of the run and with any loop
    budget of at least one turn, [substitute] returns.  It draws one site of
    the current sequence, builds the mutant at that site and looks its
    viability up once.  The new current genotype is the mutant (with its
    robustness filled in) when the mutant is viable and is the old current
    genotype otherwise.  [n_steps] is one more, [dist] is the Hamming
    distance from the new current sequence to the ancestor's, and [history]
    is the old one with one entry added under the new [n_steps], a key it
    did not have. *)
Theorem Population_substitute_blind fuel self w :
  wf_population w self ->
  exists site mseq mut w2 self' w' nu,
    rnd_randint (String.length (Genotype.seq (Population.current self))) w
    = (Ok site, advance w) /\
    site < String.length (Genotype.seq (Population.current self)) /\
    Genotype.mutate_int (Genotype.seq (Population.current self)) site = Ok mseq /\
    Genotype.init mseq (Population.p self) (advance w) = (Ok mut, w2) /\
    Population.substitute (S fuel) self true w = (Ok self', w') /\
    (Genotype.viable mut = true ->
       Genotype.get_robustness mut w2 = (Ok (Population.current self'), w') /\
       Genotype.seq (Population.current self') = mseq) /\
    (Genotype.viable mut = false ->
       Population.current self' = Population.current self /\ w' = w2) /\
    Population.ancestor self' = Population.ancestor self /\
    Population.n_steps self' = Population.n_steps self + 1 /\
    Genotype.dist (Genotype.seq (Population.current self'))
                  (Genotype.seq (Population.ancestor self))
    = Ok (Population.dist self') /\
    Genotype.nu (Population.current self') = Some nu /\
    Population.history self !! Population.n_steps self' = None /\
    Population.history self'
    = <[ Population.n_steps self'
         := Population.mkSnapshot (Genotype.seq (Population.current self'))
              (Population.dist self') nu ]> (Population.history self) /\
    (forall k, k <> Population.n_steps self' ->
       Population.history self' !! k = Population.history self !! k).
Proof.
  intros [Hcur Hpos Hp (nu0 & Hnu0 & Hcache) Hhist].
  pose proof (wf_binary _ Hcur) as Hb. pose proof (wf_L _ Hcur) as HL.
  set (cur := Population.current self) in *.
  destruct (mutate_random_run (Genotype.seq cur) w Hb ltac:(lia))
    as [Hsite Hmut].
  set (site := next_int (rnd w) (drawn (rnd w)) mod String.length (Genotype.seq cur))
    in *.
  destruct (init_run (flipped (Genotype.seq cur) site) (Population.p self)
              (advance w) Hp) as (v & w2 & Hinit & Hv).
  set (mut := Genotype.mk (flipped (Genotype.seq cur) site)
                (String.length (flipped (Genotype.seq cur) site))
                (Population.p self) v None) in *.
  assert (Population.substitute_loop (S fuel) self true w
          = (Ok (if v then mut else cur), w2)) as Hloop.
  { cbn [Population.substitute_loop]. fold cur.
    rewrite (bind_Ok _ _ _ _ _ Hmut), (bind_Ok _ _ _ _ _ Hinit).
    subst mut. cbn [Genotype.viable]. by destruct v. }
  assert (wf_genotype mut) as Hwfmut.
  { split; cbn; [by apply flipped_binary|done|done]. }
  assert (exists nu w',
            Genotype.get_robustness (if v then mut else cur) w2
            = (Ok (Genotype.mk (Genotype.seq (if v then mut else cur))
                     (Genotype.L (if v then mut else cur))
                     (Genotype.p (if v then mut else cur))
                     (Genotype.viable (if v then mut else cur)) (Some nu)), w')
            /\ (v = false -> nu = nu0 /\ w' = w2)) as (nu & w' & Hrob & Hstay).
  { destruct v.
    - destruct (get_robustness_run mut w2 Hwfmut) as (nu & w' & Hrob & _ & _).
      { cbn. rewrite length_flipped. lia. }
      exists nu, w'. split; [done|]. done.
    - destruct (get_robustness_run cur w2 Hcur Hpos) as (nu & w' & Hrob & _ & Hhit).
      exists nu, w'. split; [done|]. intros _. apply Hhit.
      assert (grows w w2) as [_ Hg].
      { etrans; [|eapply (preserves_run grows), Hinit; apply init_grows].
        split; reflexivity. }
      by eapply lookup_weaken. }
  eexists site, _, mut, w2, _, w', nu.
  split; [apply rnd_randint_run; lia|].
  split; [done|].
  split; [by apply mutate_int_flipped|].
  split; [exact Hinit|].
  split.
  { unfold Population.substitute.
    rewrite (bind_Ok _ _ _ _ _ Hloop), (bind_Ok _ _ _ _ _ Hrob).
    reflexivity. }
  cbn [Population.current Population.ancestor Population.n_steps
       Population.dist Population.history Genotype.seq Genotype.nu].
  split.
  { intros Hviable. subst mut. cbn in Hviable. subst v. by cbn. }
  split.
  { intros Hviable. subst mut. cbn in Hviable. subst v.
    destruct (Hstay eq_refl) as [-> ->]. split; [|done].
    rewrite <- Hnu0. by destruct cur. }
  split; [done|]. split; [done|]. split; [done|]. split; [done|].
  assert (Population.history self !! (Population.n_steps self + 1) = None)
    as Hfresh.
  { apply eq_None_not_Some. intros [snap Hsnap].
    apply (map_Forall_lookup_1 _ _ _ _ Hhist) in Hsnap. lia. }
  split; [done|]. split; [done|].
  intros k Hk. by rewrite lookup_insert_ne.
Qed.

(** *** The populations of a run are well formed *)

Lemma wf_population_grows w w' self :
  grows w w' -> wf_population w self -> wf_population w' self.
Proof.
  intros [_ Hnu] [Hcur Hpos Hp (v & Hv & Hcache) Hhist].
  split; try done. exists v. split; [done|]. by eapply lookup_weaken.
Qed.

Lemma Population_init_wf ancestor w self w' :
  wf_genotype ancestor -> 0 < Genotype.L ancestor ->
  Population.init ancestor w = (Ok self, w') ->
  wf_population w' self.
Proof.
  intros Hwf Hpos Hinit.
  apply Population_init_inv in Hinit as (anc & nu & _ & Hrob & Hnu & ->).
  destruct (get_robustness_run ancestor w Hwf Hpos) as (v & w1 & Hrun & Hv & _).
  rewrite Hrun in Hrob. injection Hrob as <- <-.
  destruct Hwf as [Hb HL Hp].
  split; cbn.
  - by split.
  - done.
  - done.
  - by exists v.
  - apply map_Forall_singleton. lia.
Qed.

Lemma substitute_loop_wf fuel self blind w cur w' :
  wf_population w self ->
  Population.substitute_loop fuel self blind w = (Ok cur, w') ->
  wf_genotype cur /\ 0 < Genotype.L cur.
Proof.
  intros [Hcur Hpos Hp _ _]. revert w.
  induction fuel as [|fuel IH]; intros w Hrun; [done|].
  cbn [Population.substitute_loop] in Hrun.
  pose proof (wf_binary _ Hcur) as Hb. pose proof (wf_L _ Hcur) as HL.
  destruct (mutate_random_run (Genotype.seq (Population.current self)) w Hb
              ltac:(lia)) as [Hsite Hmut].
  rewrite (bind_Ok _ _ _ _ _ Hmut) in Hrun.
  destruct (init_run
              (flipped (Genotype.seq (Population.current self))
                 (next_int (rnd w) (drawn (rnd w))
                  mod String.length (Genotype.seq (Population.current self))))
              (Population.p self) (advance w) Hp) as (v & w2 & Hinit & _).
  rewrite (bind_Ok _ _ _ _ _ Hinit) in Hrun. cbn [Genotype.viable] in Hrun.
  destruct v.
  - apply ret_Ok_inv in Hrun as [<- _]. split.
    + split; cbn; [by apply flipped_binary|done|done].
    + cbn. rewrite length_flipped. lia.
  - destruct blind.
    + by apply ret_Ok_inv in Hrun as [<- _].
    + by eapply IH.
Qed.

Lemma Population_substitute_wf fuel self blind w self' w' :
  wf_population w self ->
  Population.substitute fuel self blind w = (Ok self', w') ->
  wf_population w' self'.
Proof.
  intros Hwf Hrun. pose proof Hwf as [_ _ Hp _ Hhist].
  apply Population_substitute_inv in Hrun
    as (cur0 & w1 & cur & d & nu & Hloop & Hrob & _ & _ & ->).
  destruct (substitute_loop_wf _ _ _ _ _ _ Hwf Hloop) as [Hcur0 Hpos0].
  destruct (get_robustness_run cur0 w1 Hcur0 Hpos0) as (v & w2 & Hrun & Hv & _).
  rewrite Hrun in Hrob. injection Hrob as <- <-.
  destruct Hcur0 as [Hb HL Hp0].
  split; cbn.
  - by split.
  - done.
  - done.
  - by exists v.
  - apply map_Forall_insert_2; [lia|].
    eapply map_Forall_impl; [exact Hhist|]. cbn. intros. lia.
Qed.

(** *** Blind steps always return *)

Lemma substitute_loop_current fuel self blind w cur w' :
  wf_population w self ->
  Population.substitute_loop fuel self blind w = (Ok cur, w') ->
  cur = Population.current self \/
  (Genotype.viable cur = true /\
   Genotype.p cur = Population.p self /\
   Genotype.L cur = Genotype.L (Population.current self)).
Proof.
  intros [Hcur Hpos Hp _ _]. revert w.
  induction fuel as [|fuel IH]; intros w Hrun; [done|].
  cbn [Population.substitute_loop] in Hrun.
  pose proof (wf_binary _ Hcur) as Hb. pose proof (wf_L _ Hcur) as HL.
  destruct (mutate_random_run (Genotype.seq (Population.current self)) w Hb
              ltac:(lia)) as [Hsite Hmut].
  rewrite (bind_Ok _ _ _ _ _ Hmut) in Hrun.
  destruct (init_run
              (flipped (Genotype.seq (Population.current self))
                 (next_int (rnd w) (drawn (rnd w))
                  mod String.length (Genotype.seq (Population.current self))))
              (Population.p self) (advance w) Hp) as (v & w2 & Hinit & _).
  rewrite (bind_Ok _ _ _ _ _ Hinit) in Hrun. cbn [Genotype.viable] in Hrun.
  destruct v.
  - apply ret_Ok_inv in Hrun as [<- _]. right. cbn.
    by rewrite length_flipped, HL.
  - destruct blind.
    + apply ret_Ok_inv in Hrun as [<- _]. by left.
    + by eapply IH.
Qed.

Lemma Population_substitute_current fuel self blind w self' w' :
  wf_population w self ->
  Genotype.viable (Population.current self) = true ->
  Genotype.p (Population.current self) = Population.p self ->
  Population.substitute fuel self blind w = (Ok self', w') ->
  Genotype.viable (Population.current self') = true /\
  Genotype.p (Population.current self') = Population.p self' /\
  Genotype.L (Population.current self') = Genotype.L (Population.current self).
Proof.
  intros Hwf Hv Hp Hrun.
  apply Population_substitute_inv in Hrun
    as (cur0 & w1 & cur & d & nu & Hloop & Hrob & _ & _ & ->).
  destruct (substitute_loop_wf _ _ _ _ _ _ Hwf Hloop) as [Hcur0 Hpos0].
  destruct (get_robustness_run cur0 w1 Hcur0 Hpos0) as (v & w2 & Hrun & _ & _).
  rewrite Hrun in Hrob. injection Hrob as <- <-. cbn.
  destruct (substitute_loop_current _ _ _ _ _ _ Hwf Hloop)
    as [->|(Hv0 & Hp0 & HL0)]; done.
Qed.

Lemma Population_substitute_blind_returns fuel self w :
  wf_population w self ->
  exists self' w', Population.substitute (S fuel) self true w = (Ok self', w').
Proof.
  intros Hwf. pose proof Hwf as [Hcur Hpos Hp _ _].
  pose proof (wf_binary _ Hcur) as Hb. pose proof (wf_L _ Hcur) as HL.
  destruct (mutate_random_run (Genotype.seq (Population.current self)) w Hb
              ltac:(lia)) as [Hsite Hmut].
  destruct (init_run
              (flipped (Genotype.seq (Population.current self))
                 (next_int (rnd w) (drawn (rnd w))
                  mod String.length (Genotype.seq (Population.current self))))
              (Population.p self) (advance w) Hp) as (v & w2 & Hinit & _).
  assert (exists cur, Population.substitute_loop (S fuel) self true w
                      = (Ok cur, w2)) as [cur Hloop].
  { cbn [Population.substitute_loop].
    rewrite (bind_Ok _ _ _ _ _ Hmut), (bind_Ok _ _ _ _ _ Hinit).
    cbn [Genotype.viable]. destruct v; by eexists. }
  destruct (substitute_loop_wf _ _ _ _ _ _ Hwf Hloop) as [Hcur0 Hpos0].
  destruct (get_robustness_run cur w2 Hcur0 Hpos0) as (nu & w' & Hrob & _ & _).
  eexists _, w'. unfold Population.substitute.
  rewrite (bind_Ok _ _ _ _ _ Hloop), (bind_Ok _ _ _ _ _ Hrob). reflexivity.
Qed.

Lemma get_IIs_returns self donor w :
  wf_genotype self -> wf_genotype donor ->
  Genotype.p self = Genotype.p donor ->
  Genotype.L self = Genotype.L donor ->
  Genotype.viable self = true -> Genotype.viable donor = true ->
  exists m w', Genotype.get_IIs self donor w = (Ok m, w').
Proof.
  intros Hself Hdonor Hp HL Hv1 Hv2.
  assert (String.length (Genotype.seq self)
          = String.length (Genotype.seq donor)) as Hlen.
  { by rewrite <- (wf_L _ Hself), <- (wf_L _ Hdonor). }
  destruct (get_IIs_loop_run self
              (differing_positions (Genotype.seq self) (Genotype.seq donor))
              ∅ w Hself) as (m & w' & Hrun & _).
  { apply Forall_forall. intros i Hi. by eapply differing_positions_lt. }
  exists m, w'. unfold Genotype.get_IIs.
  rewrite Hp, (Qeq_bool_refl _), HL, Nat.eqb_refl, Hv1, Hv2.
  rewrite !(bind_Ok _ _ _ _ _ (assert_true w)).
  rewrite (introgress_spec _ _ (wf_binary _ Hself) Hlen).
  unfold lift, bind at 1. exact Hrun.
Qed.

Lemma Orr_init_wf ancestor w self w' :
  wf_genotype ancestor -> 0 < Genotype.L ancestor ->
  Orr.init ancestor w = (Ok self, w') ->
  wf_process w' self.
Proof.
  intros Hwf Hpos Hinit.
  apply Orr_init_inv in Hinit as (pop1 & snap & Hpop & ->).
  pose proof (Population_init_wf _ _ _ _ Hwf Hpos Hpop) as Hwfpop.
  apply Population_init_inv in Hpop as (anc & nu & Hv & Hrob & _ & ->).
  destruct (get_robustness_run ancestor w Hwf Hpos) as (v & w1 & Hrun & _ & _).
  rewrite Hrun in Hrob. injection Hrob as <- <-.
  by split.
Qed.

(** In the blind regime a step of a well-formed process returns, and the
    process it returns is well formed again. *)
Lemma Orr_substitute_blind_returns fuel self w :
  wf_process w self ->
  exists self' w',
    Orr.substitute (S fuel) self true w = (Ok self', w') /\
    wf_process w' self'.
Proof.
  intros [Hpop1 Hpop2 Hv1 Hv2 Hp1 Hp2 Hp HL].
  assert (grows w (advance w)) as Hadv by (split; reflexivity).
  assert (exists pop1 pop2 w1,
            (do pops <-
               (if Qlt_bool (next_float (rnd w) (drawn (rnd w))) (1 # 2)
                then do pop1 <- Population.substitute (S fuel) (Orr.pop1 self) true;
                     ret (pop1, Orr.pop2 self)
                else do pop2 <- Population.substitute (S fuel) (Orr.pop2 self) true;
                     ret (Orr.pop1 self, pop2));
             ret pops) (advance w) = (Ok (pop1, pop2), w1) /\
            wf_process w1
              (Orr.mk pop1 pop2 0 ∅ ∅ (Orr.p self) 0 ∅))
    as (pop1 & pop2 & w1 & Hstep & Hwf1).
  { destruct (Qlt_bool _ _).
    - destruct (Population_substitute_blind_returns fuel (Orr.pop1 self)
                  (advance w) (wf_population_grows _ _ _ Hadv Hpop1))
        as (pop1 & w1 & Hrun).
      exists pop1, (Orr.pop2 self), w1.
      split; [unfold bind at 1 2; by rewrite Hrun|].
      assert (grows w w1) as Hg.
      { etrans; [exact Hadv|].
        eapply (preserves_run grows), Hrun. apply Population_substitute_grows. }
      destruct (Population_substitute_current _ _ _ _ _ _
                  (wf_population_grows _ _ _ Hadv Hpop1) Hv1 Hp1 Hrun)
        as (Hv1' & Hp1' & HL1').
      pose proof (Population_substitute_ancestor _ _ _ _ _ _ Hrun)
        as (_ & Hpp & _).
      split; cbn; try done.
      + eapply Population_substitute_wf, Hrun.
        by eapply wf_population_grows.
      + by eapply wf_population_grows.
      + congruence.
      + congruence.
    - destruct (Population_substitute_blind_returns fuel (Orr.pop2 self)
                  (advance w) (wf_population_grows _ _ _ Hadv Hpop2))
        as (pop2 & w1 & Hrun).
      exists (Orr.pop1 self), pop2, w1.
      split; [unfold bind at 1 2; by rewrite Hrun|].
      assert (grows w w1) as Hg.
      { etrans; [exact Hadv|].
        eapply (preserves_run grows), Hrun. apply Population_substitute_grows. }
      destruct (Population_substitute_current _ _ _ _ _ _
                  (wf_population_grows _ _ _ Hadv Hpop2) Hv2 Hp2 Hrun)
        as (Hv2' & Hp2' & HL2').
      pose proof (Population_substitute_ancestor _ _ _ _ _ _ Hrun)
        as (_ & Hpp & _).
      split; cbn; try done.
      + by eapply wf_population_grows.
      + eapply Population_substitute_wf, Hrun.
        by eapply wf_population_grows.
      + congruence.
      + congruence. }
  destruct Hwf1 as [Hpop1' Hpop2' Hv1' Hv2' Hp1' Hp2' Hp' HL'].
  cbn [Orr.pop1 Orr.pop2] in *.
  apply bind_Ok_inv in Hstep as (pops & w1' & Hpops & Hret).
  apply ret_Ok_inv in Hret as [-> ->].
  set (d := Genotype.dist_loop (Genotype.seq (Population.current pop1))
              (Genotype.seq (Population.current pop2)) 0).
  assert (exists IIs w',
            (if 1 <? d then Orr.get_IIs pop1 pop2 else ret (∅, ∅)) w1
            = (Ok IIs, w') /\ grows w1 w') as (IIs & w' & HIIs & Hg').
  { destruct (1 <? d).
    - destruct (get_IIs_returns (Population.current pop1)
                  (Population.current pop2) w1)
        as (m1 & w2 & Hrun1);
        [apply Hpop1'|apply Hpop2'|congruence|done|done|done|].
      destruct (get_IIs_returns (Population.current pop2)
                  (Population.current pop1) w2)
        as (m2 & w3 & Hrun2);
        [apply Hpop2'|apply Hpop1'|congruence|done|done|done|].
      exists (m1, m2), w3. split.
      + unfold Orr.get_IIs.
        by rewrite (bind_Ok _ _ _ _ _ Hrun1), (bind_Ok _ _ _ _ _ Hrun2).
      + etrans; eapply (preserves_run grows); eauto using get_IIs_grows.
    - exists (∅, ∅), w1. split; [done|reflexivity]. }
  destruct (wf_nu _ _ Hpop1') as (nu1 & Hnu1 & _).
  destruct (wf_nu _ _ Hpop2') as (nu2 & Hnu2 & _).
  eexists _, w'. split.
  - unfold Orr.substitute.
    rewrite (bind_Ok _ _ _ _ _ (rnd_random_run w)).
    fold (advance w). rewrite (bind_Ok _ _ _ _ _ Hpops).
    cbn [fst snd]. unfold Orr.get_dist, Genotype.dist, lift at 1, bind at 1.
    fold d. rewrite (bind_Ok _ _ _ _ _ HIIs).
    unfold Orr.take_snapshot, Genotype.get_nu. rewrite Hnu1, Hnu2.
    reflexivity.
  - split; cbn; try done; by eapply wf_population_grows.
Qed.

Lemma Orr_init_returns ancestor w :
  wf_genotype ancestor -> 0 < Genotype.L ancestor ->
  Genotype.viable ancestor = true ->
  exists self w', Orr.init ancestor w = (Ok self, w').
Proof.
  intros Hwf Hpos Hv.
  destruct (get_robustness_run ancestor w Hwf Hpos) as (v & w' & Hrob & _ & _).
  assert (exists pop,
            Population.init ancestor w = (Ok pop, w') /\
            Genotype.nu (Population.current pop) = Some v)
    as (pop & Hpop & Hnu).
  { eexists. split.
    - unfold Population.init.
      rewrite Hv, (bind_Ok _ _ _ _ _ (assert_true w)), (bind_Ok _ _ _ _ _ Hrob).
      reflexivity.
    - reflexivity. }
  eexists _, w'. unfold Orr.init. rewrite (bind_Ok _ _ _ _ _ Hpop).
  unfold Orr.take_snapshot, Genotype.get_nu. rewrite Hnu. reflexivity.
Qed.

Lemma blind_steps_S n start :
  blind_steps (S n) start
  = (do self <- blind_steps n start; Orr.substitute 1 self true).
Proof. reflexivity. Qed.

(** From a viable, non-empty genotype of the data model, the construction
    of the process and any number of blind steps return; the process is
    then one a run can hold and has taken that many steps. *)
Lemma blind_steps_return n ancestor w :
  wf_genotype ancestor -> 0 < Genotype.L ancestor ->
  Genotype.viable ancestor = true ->
  exists self w',
    blind_steps n (Orr.init ancestor) w = (Ok self, w') /\
    wf_process w' self /\ reachable self /\ Orr.n_steps self = n.
Proof.
  intros Hwf Hpos Hv. induction n as [|n (self & w1 & Hrun & Hwf1 & Hreach & Hn)].
  - destruct (Orr_init_returns ancestor w Hwf Hpos Hv) as (self & w' & Hinit).
    exists self, w'. split; [done|]. split; [by eapply Orr_init_wf|].
    split; [by eapply reachable_init|].
    by apply Orr_init_inv in Hinit as (pop1 & snap & _ & ->).
  - destruct (Orr_substitute_blind_returns 0 self w1 Hwf1)
      as (self' & w' & Hstep & Hwf').
    exists self', w'. split; [|split; [done|split]].
    + rewrite blind_steps_S. by rewrite (bind_Ok _ _ _ _ _ Hrun).
    + by eapply reachable_substitute.
    + apply Orr_substitute_inv in Hstep
        as (? & ? & ? & ? & ? & ? & ? & ? & _ & _ & _ & _ & _ & ->).
      cbn. lia.
Qed.

(** ** The sample run *)

Example sample_population_built :
  (do ancestor <- Genotype.make_viable "000" (1 # 2); Population.init ancestor)
    sample_world
  = (Ok sample_population, sample_population_world).
Proof. vm_compute. reflexivity. Qed.

Example sample_process_2 :
  exists self w,
    sample_process 2 sample_world = (Ok self, w) /\
    Genotype.seq (Population.current (Orr.pop1 self)) = "100" /\
    Genotype.seq (Population.current (Orr.pop2 self)) = "010" /\
    Orr.dist self = 2 /\
    Orr.II1 self = {[ 1 := "1"%char ]} /\
    Orr.II2 self = {[ 0 := "1"%char ]} /\
    Orr.n_steps self = 2.
Proof. eexists _, _. split; [vm_compute; reflexivity|]. repeat split. Qed.

Example sample_get_IIs :
  Genotype.get_IIs sample_lineage1 sample_lineage2 sample_landscape
  = (Ok {[ 1 := "1"%char ]}, sample_landscape).
Proof. vm_compute. reflexivity. Qed.

(** ** The theorems at the sample run *)

Lemma get_IIs_incompatible_introgressions_witness :
  wf_genotype sample_lineage1 /\ wf_genotype sample_lineage2 /\
  exists m w',
    Genotype.get_IIs sample_lineage1 sample_lineage2 sample_landscape
    = (Ok m, w') /\
    grows sample_landscape w' /\
    forall site a,
      m !! site = Some a <->
      char_at (Genotype.seq sample_lineage1) site
      <> char_at (Genotype.seq sample_lineage2) site /\
      char_at (Genotype.seq sample_lineage2) site = Some a /\
      exists s',
        Genotype.mutate_int (Genotype.seq sample_lineage1) site = Ok s' /\
        viability_dict w' !! s' = Some false.
Proof.
  assert (wf_genotype sample_lineage1) as H1
    by (split; [reflexivity|reflexivity|split; reflexivity]).
  assert (wf_genotype sample_lineage2) as H2
    by (split; [reflexivity|reflexivity|split; reflexivity]).
  split; [exact H1|]. split; [exact H2|].
  apply (proj2 (get_IIs_incompatible_introgressions
                  sample_lineage1 sample_lineage2 sample_landscape H1 H2));
    reflexivity.
Defined.

Lemma Orr_substitute_IIs_witness :
  exists self w self' w',
    sample_process 1 sample_world = (Ok self, w) /\
    Orr.substitute 1 self true w = (Ok self', w') /\
    exists rand w0 pop w1,
      rnd_random w = (Ok rand, w0) /\
      Population.substitute 1
        (if Qlt_bool rand (1 # 2) then Orr.pop1 self else Orr.pop2 self) true w0
      = (Ok pop, w1) /\
      Orr.get_dist (Orr.pop1 self') (Orr.pop2 self') = Ok (Orr.dist self') /\
      (Orr.dist self' <= 1 ->
         Orr.II1 self' = ∅ /\ Orr.II2 self' = ∅ /\ w' = w1) /\
      (1 < Orr.dist self' ->
         exists w2,
           Genotype.get_IIs (Population.current (Orr.pop1 self'))
                            (Population.current (Orr.pop2 self')) w1
           = (Ok (Orr.II1 self'), w2) /\
           Genotype.get_IIs (Population.current (Orr.pop2 self'))
                            (Population.current (Orr.pop1 self')) w2
           = (Ok (Orr.II2 self'), w')).
Proof.
  eexists _, _, _, _. split; [vm_compute; reflexivity|].
  match goal with
  | |- Orr.substitute ?f ?s ?b ?w = _ /\ _ =>
      pose proof (Orr_substitute_IIs f s b w) as Hstep
  end.
  split; [vm_compute; reflexivity|].
  apply Hstep. vm_compute. reflexivity.
Defined.

Lemma Population_substitute_blind_witness :
  wf_population sample_population_world sample_population /\
  exists site mseq mut w2 self' w' nu,
    rnd_randint
      (String.length (Genotype.seq (Population.current sample_population)))
      sample_population_world
    = (Ok site, advance sample_population_world) /\
    site < String.length (Genotype.seq (Population.current sample_population)) /\
    Genotype.mutate_int (Genotype.seq (Population.current sample_population)) site
    = Ok mseq /\
    Genotype.init mseq (Population.p sample_population)
      (advance sample_population_world) = (Ok mut, w2) /\
    Population.substitute 1 sample_population true sample_population_world
    = (Ok self', w') /\
    (Genotype.viable mut = true ->
       Genotype.get_robustness mut w2 = (Ok (Population.current self'), w') /\
       Genotype.seq (Population.current self') = mseq) /\
    (Genotype.viable mut = false ->
       Population.current self' = Population.current sample_population /\
       w' = w2) /\
    Population.ancestor self' = Population.ancestor sample_population /\
    Population.n_steps self' = Population.n_steps sample_population + 1 /\
    Genotype.dist (Genotype.seq (Population.current self'))
                  (Genotype.seq (Population.ancestor sample_population))
    = Ok (Population.dist self') /\
    Genotype.nu (Population.current self') = Some nu /\
    Population.history sample_population !! Population.n_steps self' = None /\
    Population.history self'
    = <[ Population.n_steps self'
         := Population.mkSnapshot (Genotype.seq (Population.current self'))
              (Population.dist self') nu ]>
        (Population.history sample_population) /\
    (forall k, k <> Population.n_steps self' ->
       Population.history self' !! k = Population.history sample_population !! k).
Proof.
  assert (wf_population sample_population_world sample_population) as Hwf.
  { split.
    - split; [reflexivity|reflexivity|split; reflexivity].
    - cbn. lia.
    - split; reflexivity.
    - exists (2 # 3)%Q. split; reflexivity.
    - apply (bool_decide_unpack _). vm_compute. exact I. }
  split; [exact Hwf|].
  apply (Population_substitute_blind 0 sample_population sample_population_world Hwf).
Defined.

Lemma Orr_substitute_one_population_witness :
  exists self w self' w',
    sample_process 1 sample_world = (Ok self, w) /\
    Orr.substitute 1 self true w = (Ok self', w') /\
    exists rand w0 w1,
      rnd_random w = (Ok rand, w0) /\
      (Qlt_bool rand (1 # 2) = true ->
         Population.substitute 1 (Orr.pop1 self) true w0
         = (Ok (Orr.pop1 self'), w1) /\
         Orr.pop2 self' = Orr.pop2 self) /\
      (Qlt_bool rand (1 # 2) = false ->
         Population.substitute 1 (Orr.pop2 self) true w0
         = (Ok (Orr.pop2 self'), w1) /\
         Orr.pop1 self' = Orr.pop1 self) /\
      Population.ancestor (Orr.pop1 self') = Population.ancestor (Orr.pop1 self) /\
      Population.ancestor (Orr.pop2 self') = Population.ancestor (Orr.pop2 self).
Proof.
  eexists _, _, _, _. split; [vm_compute; reflexivity|].
  match goal with
  | |- Orr.substitute ?f ?s ?b ?w = _ /\ _ =>
      pose proof (Orr_substitute_one_population f s b w) as Hstep
  end.
  split; [vm_compute; reflexivity|].
  eapply Hstep. vm_compute. reflexivity.
Defined.

Lemma Orr_history_contiguous_witness :
  exists ancestor w0 self0 w1 self w2,
    Genotype.make_viable "000" (1 # 2) sample_world = (Ok ancestor, w0) /\
    Orr.init ancestor w0 = (Ok self0, w1) /\
    Orr.substitute 1 self0 true w1 = (Ok self, w2) /\
    Orr.n_steps self
    = Population.n_steps (Orr.pop1 self) + Population.n_steps (Orr.pop2 self) /\
    (forall k, is_Some (Orr.history self !! k) <-> k <= Orr.n_steps self) /\
    size (Orr.history self) = S (Orr.n_steps self) /\
    exists rows,
      Orr.get_stats_rows self = Ok rows /\ length rows = S (Orr.n_steps self).
Proof.
  eexists _, _, _, _, _, _. split; [vm_compute; reflexivity|].
  lazymatch goal with
  | |- ?A /\ _ => assert A as Hinit by (vm_compute; reflexivity)
  end.
  split; [exact Hinit|].
  lazymatch goal with
  | |- ?A /\ _ => assert A as Hstep by (vm_compute; reflexivity)
  end.
  split; [exact Hstep|].
  apply Orr_history_contiguous.
  exact (reachable_substitute _ _ _ _ _ _ (reachable_init _ _ _ _ Hinit) Hstep).
Defined.

(** * Further properties of the code *)

(** ** Further properties: [int2seq] *)

Lemma seq_value_acc_shift s a :
  seq_value_acc s a = (a * 2 ^ Z.of_nat (String.length s) + seq_value_acc s 0)%Z.
Proof.
  revert a. induction s as [|c s IH]; intros a.
  - simpl. lia.
  - cbn [seq_value_acc String.length].
    rewrite (IH (2 * a + _)%Z), (IH (2 * 0 + _)%Z).
    rewrite Nat2Z.inj_succ, Z.pow_succ_r by lia. lia.
Qed.

Lemma seq_value_bound s :
  is_binary s = true ->
  (0 <= seq_value s < 2 ^ Z.of_nat (String.length s))%Z.
Proof.
  unfold seq_value. induction s as [|c s IH]; intros Hb.
  - simpl. lia.
  - cbn [is_binary] in Hb. apply andb_true_iff in Hb as [_ Hb].
    specialize (IH Hb).
    cbn [seq_value_acc String.length]. rewrite seq_value_acc_shift.
    rewrite Nat2Z.inj_succ, Z.pow_succ_r by lia.
    destruct (Ascii.eqb c "1"); lia.
Qed.

Lemma seq_value_inj s1 s2 :
  is_binary s1 = true -> is_binary s2 = true ->
  String.length s1 = String.length s2 ->
  seq_value s1 = seq_value s2 -> s1 = s2.
Proof.
  unfold seq_value. revert s2.
  induction s1 as [|c1 s1 IH]; intros [|c2 s2] Hb1 Hb2 Hlen Hv; try done.
  cbn [is_binary] in Hb1, Hb2.
  apply andb_true_iff in Hb1 as [Hc1 Hb1], Hb2 as [Hc2 Hb2].
  cbn [String.length] in Hlen. injection Hlen as Hlen.
  cbn [seq_value_acc] in Hv.
  rewrite (seq_value_acc_shift s1), (seq_value_acc_shift s2), <- Hlen in Hv.
  pose proof (seq_value_bound s1 Hb1) as B1.
  pose proof (seq_value_bound s2 Hb2) as B2.
  unfold seq_value in B1, B2. rewrite <- Hlen in B2.
  apply orb_true_iff in Hc1, Hc2.
  assert (c1 = c2 /\ seq_value_acc s1 0 = seq_value_acc s2 0) as [-> Hv'].
  { destruct Hc1 as [H1|H1], Hc2 as [H2|H2];
      apply Ascii.eqb_eq in H1, H2; subst; cbn in Hv; split; try done; nia. }
  f_equal. by apply IH.
Qed.

Lemma length_zeros n s : String.length (zeros n s) = n + String.length s.
Proof. induction n as [|n IH]; simpl; [done|by rewrite IH]. Qed.

Lemma is_binary_zeros n s : is_binary (zeros n s) = is_binary s.
Proof. induction n as [|n IH]; simpl; done. Qed.

Lemma seq_value_zeros n s : seq_value (zeros n s) = seq_value s.
Proof. unfold seq_value. induction n as [|n IH]; simpl; done. Qed.

Lemma length_bin_digits p acc :
  String.length (bin_digits p acc) = Pos.size_nat p + String.length acc.
Proof.
  revert acc. induction p as [p IH|p IH|]; intros acc; simpl;
    rewrite ?IH; simpl; lia.
Qed.

Lemma is_binary_bin_digits p acc :
  is_binary (bin_digits p acc) = is_binary acc.
Proof.
  revert acc. induction p as [p IH|p IH|]; intros acc; simpl;
    rewrite ?IH; done.
Qed.

Lemma seq_value_acc_bin_digits p acc a :
  seq_value_acc (bin_digits p acc) a
  = seq_value_acc acc (a * 2 ^ Z.of_nat (Pos.size_nat p) + Z.pos p)%Z.
Proof.
  revert acc a. induction p as [p IH|p IH|]; intros acc a;
    cbn [bin_digits Pos.size_nat].
  - rewrite IH. cbn [seq_value_acc]. f_equal.
    rewrite Nat2Z.inj_succ, Z.pow_succ_r by lia. cbn. lia.
  - rewrite IH. cbn [seq_value_acc]. f_equal.
    rewrite Nat2Z.inj_succ, Z.pow_succ_r by lia. cbn. lia.
  - cbn. f_equal. lia.
Qed.

Lemma bin_digits_head p acc : exists s, bin_digits p acc = String "1" s.
Proof.
  revert acc. induction p as [p IH|p IH|]; intros acc; simpl; eauto.
Qed.

Lemma size_nat_le_of_lt p N :
  (Z.pos p < 2 ^ Z.of_nat N)%Z -> Pos.size_nat p <= N.
Proof.
  revert N. induction p as [p IH|p IH|]; intros N HN; simpl.
  - destruct N as [|N]; [simpl in HN; lia|].
    rewrite Nat2Z.inj_succ, Z.pow_succ_r in HN by lia.
    specialize (IH N). lia.
  - destruct N as [|N]; [simpl in HN; lia|].
    rewrite Nat2Z.inj_succ, Z.pow_succ_r in HN by lia.
    specialize (IH N). lia.
  - destruct N as [|N]; [simpl in HN; lia|]. lia.
Qed.

Lemma format_b_nonneg x :
  (0 <= x)%Z ->
  is_binary (format_b x) = true /\ seq_value (format_b x) = x /\
  forall N, zfill N (format_b x)
            = zeros (N - String.length (format_b x)) (format_b x).
Proof.
  intros Hx. destruct x as [|p|p]; [| |lia].
  - repeat split.
  - cbn [format_b]. split; [by rewrite is_binary_bin_digits|].
    split; [unfold seq_value; rewrite seq_value_acc_bin_digits; cbn; lia|].
    destruct (bin_digits_head p EmptyString) as [s Hs].
    intros N. unfold zfill. rewrite Hs. done.
Qed.

Lemma format_b_length x N :
  (0 <= x < 2 ^ Z.of_nat N)%Z ->
  0 < String.length (format_b x) <= Nat.max N 1.
Proof.
  intros [Hx0 HxN]. destruct x as [|p|p]; [| |lia].
  - cbn. lia.
  - cbn [format_b]. rewrite length_bin_digits. cbn.
    pose proof (size_nat_le_of_lt p N HxN).
    assert (0 < Pos.size_nat p) by (destruct p; simpl; lia). lia.
Qed.

Lemma int2seq_nonneg x N :
  (0 <= x < 2 ^ Z.of_nat N)%Z ->
  int2seq x N
  = Ok (zeros (N - String.length (format_b x)) (format_b x)).
Proof.
  intros [Hx0 HxN]. unfold int2seq.
  destruct (Z.ltb_spec x (2 ^ Z.of_nat N)) as [_|]; [|lia]. cbn [negb].
  destruct (format_b_nonneg x Hx0) as (_ & _ & Hz). by rewrite Hz.
Qed.

(** X1.  For [0 <= x < 2 ** N], [int2seq(x, N)] returns a binary sequence of
    [max(N, 1)] alleles that writes [x] in base two, most significant allele
    first. *)
Theorem int2seq_writes_x x N :
  (0 <= x < 2 ^ Z.of_nat N)%Z ->
  exists s,
    int2seq x N = Ok s /\
    String.length s = Nat.max N 1 /\
    is_binary s = true /\
    seq_value s = x.
Proof.
  intros Hx. pose proof (format_b_length x N Hx) as Hlen.
  destruct (format_b_nonneg x (proj1 Hx)) as (Hb & Hv & _).
  eexists. split; [by apply int2seq_nonneg|].
  rewrite length_zeros, is_binary_zeros, seq_value_zeros.
  split; [lia|done].
Qed.

Lemma int2seq_writes_x_witness :
  exists s,
    int2seq 5 4 = Ok s /\
    String.length s = Nat.max 4 1 /\
    is_binary s = true /\
    seq_value s = 5%Z.
Proof.
  apply (int2seq_writes_x 5 4). vm_compute. split; [discriminate|reflexivity].
Defined.

(** X2.  Every non-empty binary sequence is what [int2seq] returns for the
    number it writes and its own length: [int2seq] reaches every binary
    sequence of length [N], each from one number only. *)
Theorem int2seq_of_seq_value s :
  is_binary s = true -> 0 < String.length s ->
  int2seq (seq_value s) (String.length s) = Ok s /\
  forall x, (0 <= x < 2 ^ Z.of_nat (String.length s))%Z ->
            int2seq x (String.length s) = Ok s -> x = seq_value s.
Proof.
  intros Hb Hlen. pose proof (seq_value_bound s Hb) as Hx.
  pose proof (format_b_length _ _ Hx) as Hl.
  destruct (format_b_nonneg _ (proj1 Hx)) as (Hb' & Hv' & _).
  split.
  - rewrite int2seq_nonneg by done. f_equal.
    apply seq_value_inj; rewrite ?length_zeros, ?is_binary_zeros,
      ?seq_value_zeros; try done. lia.
  - intros x Hx' Hrun. rewrite int2seq_nonneg in Hrun by done.
    injection Hrun as <-.
    destruct (format_b_nonneg _ (proj1 Hx')) as (_ & Hv'' & _).
    by rewrite seq_value_zeros.
Qed.

Lemma int2seq_of_seq_value_witness :
  int2seq (seq_value "0101") (String.length "0101") = Ok "0101" /\
  forall x, (0 <= x < 2 ^ Z.of_nat (String.length "0101"))%Z ->
            int2seq x (String.length "0101") = Ok "0101" ->
            x = seq_value "0101".
Proof. apply (int2seq_of_seq_value "0101"); [reflexivity|simpl; lia]. Defined.

(** X3.  [int2seq(x, N)] fails, on its assertion, exactly when
    [x >= 2 ** N]; a negative [x] passes the assertion and comes back
    with a leading minus sign, which is not a binary sequence. *)
Theorem int2seq_assertion x N :
  (int2seq x N = Raise AssertionError <-> (2 ^ Z.of_nat N <= x)%Z) /\
  ((x < 0)%Z ->
   exists s, int2seq x N = Ok (String "-" s) /\
             is_binary (String "-" s) = false).
Proof.
  split.
  - unfold int2seq. destruct (Z.ltb_spec x (2 ^ Z.of_nat N)); cbn [negb].
    + split; [done|lia].
    + split; [done|done].
  - intros Hx. destruct x as [|p|p]; [lia|lia|].
    unfold int2seq.
    destruct (Z.ltb_spec (Z.neg p) (2 ^ Z.of_nat N)) as [_|Hge]; cbn [negb].
    + eexists. split; [reflexivity|done].
    + pose proof (Z.pow_nonneg 2 (Z.of_nat N)). lia.
Qed.

(** ** Further properties: [mutate] *)

Lemma char_at_ext s1 s2 :
  (forall i, char_at s1 i = char_at s2 i) -> s1 = s2.
Proof.
  revert s2. induction s1 as [|a s1 IH]; intros [|b s2] H.
  - done.
  - specialize (H 0). done.
  - specialize (H 0). done.
  - pose proof (H 0) as H0. simpl in H0. injection H0 as ->.
    f_equal. apply IH. intros i. apply (H (S i)).
Qed.

Lemma mutated_allele_spec c :
  match Ascii.is_nat c with
  | Some d =>
      exists c', mutated_allele c = Some c' /\ c' <> c /\
                 str_of_int (Z.abs (Z.of_nat d - 1)) = String c' EmptyString
  | None => mutated_allele c = None
  end.
Proof.
  destruct c as [[] [] [] [] [] [] [] []]; cbn; try done;
    eexists; (split; [reflexivity|split; [discriminate|reflexivity]]).
Qed.

Lemma mutate_step_outcome s i :
  Genotype.mutate_step s i
  = match char_at s i with
    | None => Raise IndexError
    | Some c =>
        match mutated_allele c with
        | Some c' => Ok (set_char i c' s)
        | None => Raise ValueError
        end
    end.
Proof.
  unfold Genotype.mutate_step. destruct (char_at s i) as [c|] eqn:Hc; [|done].
  pose proof (mutated_allele_spec c) as Hm. unfold int_of_char.
  destruct (Ascii.is_nat c) as [d|].
  - destruct Hm as (c' & -> & _ & Hstr). cbn [rbind]. rewrite Hstr.
    rewrite slice_set_char; [done|]. by eapply char_at_Some_lt.
  - by rewrite Hm.
Qed.

Lemma mutated_allele_ne c c' : mutated_allele c = Some c' -> c' <> c.
Proof.
  intros H. pose proof (mutated_allele_spec c) as Hm.
  destruct (Ascii.is_nat c); [|congruence].
  destruct Hm as (c'' & Hc'' & Hne & _). congruence.
Qed.

Lemma differing_positions_set_char s i c c' :
  char_at s i = Some c -> c' <> c ->
  differing_positions s (set_char i c' s) = [i].
Proof.
  revert i. induction s as [|a s IH]; intros [|k] Hc Hne; simpl in Hc; try done.
  - injection Hc as ->. cbn [set_char].
    rewrite differing_positions_cons, differing_positions_refl.
    by rewrite decide_False by done.
  - cbn [set_char]. rewrite differing_positions_cons, (IH k) by done.
    by rewrite decide_True.
Qed.

Lemma mutate_int_set_char s i s' :
  Genotype.mutate_int s i = Ok s' ->
  exists c c', char_at s i = Some c /\ c' <> c /\ s' = set_char i c' s.
Proof.
  unfold Genotype.mutate_int. cbn [Genotype.mutate].
  rewrite mutate_step_outcome.
  destruct (char_at s i) as [c|] eqn:Hc; [|done].
  destruct (mutated_allele c) as [c'|] eqn:Hm; [|done].
  cbn [rbind]. intros [= <-]. exists c, c'.
  split; [done|]. split; [by eapply mutated_allele_ne|done].
Qed.

Lemma length_slice_to i s :
  String.length (slice_to i s) = Nat.min i (String.length s).
Proof.
  revert i. induction s as [|a s IH]; intros [|i]; try done.
  cbn [slice_to String.length]. by rewrite IH.
Qed.

Lemma slice_bound_succ L i :
  (- Z.of_nat L <= i)%Z -> i <> (-1)%Z ->
  slice_bound L (i + 1) = slice_bound L i + 1.
Proof.
  intros Hi Hne. unfold slice_bound.
  destruct (Z.ltb_spec i 0), (Z.ltb_spec (i + 1) 0); lia.
Qed.

Lemma slice_bound_lt L i :
  (- Z.of_nat L <= i < Z.of_nat L)%Z -> slice_bound L i < L.
Proof. intros Hi. unfold slice_bound. destruct (Z.ltb_spec i 0); lia. Qed.

Lemma slice_bound_of_nat L i : slice_bound L (Z.of_nat i) = i.
Proof. unfold slice_bound. destruct (Z.ltb_spec (Z.of_nat i) 0); lia. Qed.

Lemma char_at_int_None s i :
  char_at_int s i = None <->
  (i < - Z.of_nat (String.length s) \/ Z.of_nat (String.length s) <= i)%Z.
Proof.
  unfold char_at_int.
  destruct (Z.ltb_spec i (- Z.of_nat (String.length s))) as [Hlow|Hlow].
  - split; [auto|done].
  - destruct (decide (i < Z.of_nat (String.length s))%Z) as [Hhigh|Hhigh].
    + destruct (char_at_lt s (slice_bound (String.length s) i)) as [c Hc].
      { apply slice_bound_lt. lia. }
      rewrite Hc. split; [done|lia].
    + rewrite char_at_ge; [split; [intros _; lia|done]|].
      unfold slice_bound. destruct (Z.ltb_spec i 0); lia.
Qed.

Lemma char_at_int_Some s i c :
  char_at_int s i = Some c ->
  (- Z.of_nat (String.length s) <= i < Z.of_nat (String.length s))%Z /\
  char_at s (slice_bound (String.length s) i) = Some c.
Proof.
  intros Hc. split.
  - destruct (decide (- Z.of_nat (String.length s) <= i
                      < Z.of_nat (String.length s))%Z) as [|Hout]; [done|].
    assert (char_at_int s i = None) as Hnone by (apply char_at_int_None; lia).
    congruence.
  - unfold char_at_int in Hc. by destruct (_ <? _)%Z.
Qed.

(** On an int other than [-1], [mutate] does what it does on the site that
    the int stands for. *)
Lemma mutate_stepZ_site s i :
  i <> (-1)%Z ->
  (- Z.of_nat (String.length s) <= i < Z.of_nat (String.length s))%Z ->
  Genotype.mutate_stepZ s i
  = Genotype.mutate_step s (slice_bound (String.length s) i).
Proof.
  intros Hne Hi. unfold Genotype.mutate_stepZ, Genotype.mutate_step.
  unfold char_at_int, slice_to_int, slice_from_int.
  destruct (Z.ltb_spec i (- Z.of_nat (String.length s))); [lia|].
  by rewrite slice_bound_succ by lia.
Qed.

Lemma mutate_stepZ_of_nat s i :
  Genotype.mutate_stepZ s (Z.of_nat i) = Genotype.mutate_step s i.
Proof.
  unfold Genotype.mutate_stepZ, Genotype.mutate_step.
  unfold char_at_int, slice_to_int, slice_from_int.
  destruct (Z.ltb_spec (Z.of_nat i) (- Z.of_nat (String.length s))); [lia|].
  replace (Z.of_nat i + 1)%Z with (Z.of_nat (i + 1)) by lia.
  by rewrite !slice_bound_of_nat.
Qed.

(** On sites [>= 0] the two forms of [mutate] are one. *)
Lemma mutateZ_of_nat s sites :
  Genotype.mutateZ s (Z.of_nat <$> sites) = Genotype.mutate s sites.
Proof.
  revert s. induction sites as [|i sites IH]; intros s; [done|].
  rewrite fmap_cons. cbn [Genotype.mutateZ Genotype.mutate].
  rewrite mutate_stepZ_of_nat.
  destruct (Genotype.mutate_step s i) as [s'| |]; [|done|done]. apply IH.
Qed.

Lemma mutate_stepZ_outcome s i :
  Genotype.mutate_stepZ s i
  = match char_at_int s i with
    | None => Raise IndexError
    | Some c =>
        match mutated_allele c with
        | Some c' =>
            Ok (if decide (i = (-1)%Z)
                then slice_to (String.length s - 1) s +:+ String c' s
                else set_char (slice_bound (String.length s) i) c' s)
        | None => Raise ValueError
        end
    end.
Proof.
  destruct (char_at_int s i) as [c|] eqn:Hc.
  - destruct (char_at_int_Some _ _ _ Hc) as [Hi Hc'].
    case_decide as Hm.
    + subst i. unfold Genotype.mutate_stepZ. rewrite Hc.
      pose proof (mutated_allele_spec c) as Hspec. unfold int_of_char.
      destruct (Ascii.is_nat c) as [d|]; [|by rewrite Hspec].
      destruct Hspec as (c' & -> & _ & Hstr). cbn [rbind]. rewrite Hstr.
      unfold slice_to_int, slice_from_int, slice_bound. cbn [Z.ltb Z.compare Z.add Z.opp Z.to_nat Pos.compare slice_from].
      replace (Z.to_nat (Z.of_nat (String.length s) + -1))
        with (String.length s - 1) by lia.
      done.
    + rewrite mutate_stepZ_site by done. rewrite mutate_step_outcome, Hc'.
      done.
  - unfold Genotype.mutate_stepZ. by rewrite Hc.
Qed.

Lemma mutate_intZ_outcome s i :
  Genotype.mutate_intZ s i = Genotype.mutate_stepZ s i.
Proof.
  unfold Genotype.mutate_intZ. cbn [Genotype.mutateZ].
  by destruct (Genotype.mutate_stepZ s i).
Qed.

(** X4.  Whenever [mutate(seq, site)] returns for a single int [site] other
    than [-1], the result has the length of [seq] and differs from it at the
    site, counted from the end when [site] is negative, and nowhere else, so
    its Hamming distance to [seq] is 1; this holds for every sequence of
    decimal digits, binary or not.  For [site = -1] the slice
    [seq[site + 1:]] is the whole of [seq]: the result is [seq] without its
    last allele, then the mutated allele, then all of [seq] again, twice as
    long as [seq]. *)
Theorem mutate_int_changes_one_site s i s' :
  Genotype.mutate_intZ s i = Ok s' ->
  (i <> (-1)%Z ->
   String.length s' = String.length s /\
   differing_positions s s' = [slice_bound (String.length s) i] /\
   (forall j, j <> slice_bound (String.length s) i ->
              char_at s' j = char_at s j) /\
   Genotype.dist s s' = Ok 1) /\
  (i = (-1)%Z ->
   String.length s' = 2 * String.length s /\
   exists c c',
     char_at s (String.length s - 1) = Some c /\
     mutated_allele c = Some c' /\
     s' = slice_to (String.length s - 1) s +:+ String c' s).
Proof.
  rewrite mutate_intZ_outcome, mutate_stepZ_outcome.
  destruct (char_at_int s i) as [c|] eqn:Hc; [|done].
  destruct (char_at_int_Some _ _ _ Hc) as [Hi Hc'].
  destruct (mutated_allele c) as [c'|] eqn:Hm; [|done].
  pose proof (mutated_allele_ne _ _ Hm) as Hne.
  intros [= <-]. split; intros Hi1; case_decide; try done.
  - split; [apply length_set_char|].
    split; [by eapply differing_positions_set_char|].
    split.
    + intros j Hj. apply char_at_set_char_ne. congruence.
    + rewrite dist_equal_length by (by rewrite length_set_char).
      by rewrite (differing_positions_set_char _ _ _ _ Hc' Hne).
  - subst i. split.
    + rewrite length_append, length_slice_to. cbn [String.length]. lia.
    + exists c, c'. split; [|done].
      unfold slice_bound in Hc'. cbn in Hc'.
      by replace (Z.to_nat (Z.of_nat (String.length s) + -1))
        with (String.length s - 1) in Hc' by lia.
Qed.

Lemma mutate_int_changes_one_site_witness :
  ((-3)%Z <> (-1)%Z ->
   String.length "0101" = String.length "0201" /\
   differing_positions "0201" "0101" = [slice_bound (String.length "0201") (-3)] /\
   (forall j, j <> slice_bound (String.length "0201") (-3) ->
              char_at "0101" j = char_at "0201" j) /\
   Genotype.dist "0201" "0101" = Ok 1) /\
  ((-3)%Z = (-1)%Z ->
   String.length "0101" = 2 * String.length "0201" /\
   exists c c',
     char_at "0201" (String.length "0201" - 1) = Some c /\
     mutated_allele c = Some c' /\
     "0101" = slice_to (String.length "0201" - 1) "0201" +:+ String c' "0201").
Proof.
  apply (mutate_int_changes_one_site "0201" (-3) "0101"). reflexivity.
Defined.

Example mutate_last_site : Genotype.mutate_intZ "000" (-1) = Ok "001000".
Proof. reflexivity. Qed.

(** X5.  [mutate(seq, site)] for a single int [site] raises [IndexError]
    exactly when [site] is outside [-len(seq) .. len(seq) - 1], and
    [ValueError] exactly when the character that [seq[site]] finds is not a
    decimal digit; in every other case it returns. *)
Theorem mutate_int_errors s i :
  (Genotype.mutate_intZ s i = Raise IndexError <->
   (i < - Z.of_nat (String.length s) \/ Z.of_nat (String.length s) <= i)%Z) /\
  (Genotype.mutate_intZ s i = Raise ValueError <->
   exists c, char_at_int s i = Some c /\ Ascii.is_nat c = None) /\
  ((exists s', Genotype.mutate_intZ s i = Ok s') <->
   exists c d, char_at_int s i = Some c /\ Ascii.is_nat c = Some d).
Proof.
  rewrite mutate_intZ_outcome, mutate_stepZ_outcome.
  rewrite <- char_at_int_None.
  destruct (char_at_int s i) as [c|] eqn:Hc.
  - pose proof (mutated_allele_spec c) as Hm.
    destruct (Ascii.is_nat c) as [d|] eqn:Hd.
    + destruct Hm as (c' & -> & _ & _).
      split; [done|].
      split; [split; [done|]|].
      * intros (c0 & [= <-] & ?). congruence.
      * split; eauto.
    + rewrite Hm.
      split; [done|].
      split; [split; [eauto|done]|].
      split; [by intros [? ?]|]. intros (c0 & d & [= <-] & ?). congruence.
  - split; [done|].
    split; [split; [done|by intros (c & ? & _)]|].
    split; [by intros [? ?]|by intros (c & d & ? & _)].
Qed.

Lemma mutate_step_flipped s i :
  is_binary s = true -> i < String.length s ->
  Genotype.mutate_step s i = Ok (flipped s i).
Proof.
  intros Hb Hi. pose proof (mutate_int_flipped s i Hb Hi) as H.
  unfold Genotype.mutate_int in H. cbn [Genotype.mutate] in H.
  by destruct (Genotype.mutate_step s i).
Qed.

Lemma char_at_flipped s i j :
  i < String.length s ->
  char_at (flipped s i) j
  = if decide (j = i) then flip_allele <$> char_at s j else char_at s j.
Proof.
  intros Hi. case_decide as Hj.
  - subst. destruct (char_at_lt _ _ Hi) as [c Hc].
    by rewrite (char_at_flipped_eq _ _ _ Hc), Hc.
  - by apply char_at_flipped_ne.
Qed.

(** What [mutate] returns on a binary sequence, position by position. *)
Lemma mutate_binary_chars s sites :
  is_binary s = true ->
  Forall (fun i => i < String.length s) sites ->
  exists s',
    Genotype.mutate s sites = Ok s' /\
    String.length s' = String.length s /\
    is_binary s' = true /\
    forall j,
      char_at s' j
      = if Nat.even (count_occ Nat.eq_dec sites j) then char_at s j
        else flip_allele <$> char_at s j.
Proof.
  intros Hb Hs. revert s Hb Hs.
  induction sites as [|i sites IH]; intros s Hb Hs.
  - exists s. repeat split; done.
  - apply Forall_cons in Hs as [Hi Hs].
    destruct (IH (flipped s i)) as (s' & Hrun & Hlen & Hb' & Hchar).
    { by apply flipped_binary. }
    { by rewrite length_flipped. }
    exists s'. cbn [Genotype.mutate]. rewrite mutate_step_flipped by done.
    cbn [rbind]. split; [done|]. split; [by rewrite Hlen, length_flipped|].
    split; [done|]. intros j. rewrite Hchar, char_at_flipped by done.
    cbn [count_occ]. destruct (Nat.eq_dec i j) as [->|Hne].
    + rewrite decide_True by done. rewrite Nat.even_succ, <- Nat.negb_even.
      destruct (Nat.even _); cbn [negb]; [done|].
      destruct (char_at s j) as [c|] eqn:Hc; [|done]. cbn.
      by rewrite flip_allele_involutive by eauto using is_binary_char_at.
    + rewrite decide_False by congruence. done.
Qed.

(** X6.  On a binary sequence and sites that are all in range, [mutate]
    returns a binary sequence of the same length that differs from the
    input exactly at the positions occurring an odd number of times among
    the sites. *)
Theorem mutate_flips_odd_sites s sites :
  is_binary s = true ->
  Forall (fun i => i < String.length s) sites ->
  exists s',
    Genotype.mutate s sites = Ok s' /\
    String.length s' = String.length s /\
    is_binary s' = true /\
    forall j,
      j ∈ differing_positions s s' <->
      Nat.odd (count_occ Nat.eq_dec sites j) = true.
Proof.
  intros Hb Hs.
  destruct (mutate_binary_chars s sites Hb Hs) as (s' & Hrun & Hlen & Hb' & Hc).
  exists s'. split; [done|]. split; [done|]. split; [done|].
  intros j. rewrite differing_positions_spec by done.
  rewrite Hc, <- Nat.negb_even.
  destruct (Nat.even (count_occ Nat.eq_dec sites j)) eqn:Heven; cbn [negb].
  - split; [done|discriminate].
  - split; [done|]. intros _.
    destruct (char_at s j) as [c|] eqn:Hcj.
    + cbn. intros [= H]. symmetry in H. by apply flip_allele_ne in H.
    + exfalso.
      assert (count_occ Nat.eq_dec sites j = 0) as Hzero.
      { apply count_occ_not_In. intros Hin. apply list_elem_of_In in Hin.
        apply (proj1 (Forall_forall _ _) Hs), char_at_lt in Hin.
        destruct Hin as [c Hc']. congruence. }
      by rewrite Hzero in Heven.
Qed.

Lemma mutate_flips_odd_sites_witness :
  exists s',
    Genotype.mutate "00000" [0; 1; 0] = Ok s' /\
    String.length s' = String.length "00000" /\
    is_binary s' = true /\
    forall j,
      j ∈ differing_positions "00000" s' <->
      Nat.odd (count_occ Nat.eq_dec [0; 1; 0] j) = true.
Proof.
  apply (mutate_flips_odd_sites "00000" [0; 1; 0]); [reflexivity|].
  repeat constructor.
Defined.

(** X7.  On a binary sequence, the order of in-range sites does not matter
    to [mutate]: two lists of sites that are permutations of each other give
    the same sequence. *)
Theorem mutate_permutation s sites1 sites2 :
  is_binary s = true ->
  Forall (fun i => i < String.length s) sites1 ->
  sites1 ≡ₚ sites2 ->
  Genotype.mutate s sites1 = Genotype.mutate s sites2.
Proof.
  intros Hb Hs1 Hperm.
  assert (Forall (fun i => i < String.length s) sites2) as Hs2
    by (by rewrite <- Hperm).
  destruct (mutate_binary_chars s sites1 Hb Hs1)
    as (s1 & -> & _ & _ & Hc1).
  destruct (mutate_binary_chars s sites2 Hb Hs2)
    as (s2 & -> & _ & _ & Hc2).
  f_equal. apply char_at_ext. intros j. rewrite Hc1, Hc2.
  by rewrite (proj1 (Permutation_count_occ Nat.eq_dec sites1 sites2) Hperm j).
Qed.

Lemma mutate_permutation_witness :
  Genotype.mutate "00000" [0; 1; 3] = Genotype.mutate "00000" [3; 0; 1].
Proof.
  apply (mutate_permutation "00000" [0; 1; 3] [3; 0; 1]); [reflexivity| |].
  - repeat constructor.
  - symmetry. apply (Permutation_cons_append [0; 1] 3).
Defined.

(** X8.  On a binary sequence [mutate] raises [IndexError] as soon as one of
    the ints among the sites is outside [-len(seq) .. len(seq) - 1],
    provided that none of the sites is [-1]: a site [-1] makes the sequence
    longer, so that a later site may come to lie inside it, as in
    [mutate('000', [-1, 4])], which returns ['001010']. *)
Theorem mutate_out_of_range s sites :
  is_binary s = true ->
  Forall (fun i => i <> (-1)%Z) sites ->
  Exists (fun i => (i < - Z.of_nat (String.length s)
                    \/ Z.of_nat (String.length s) <= i)%Z) sites ->
  Genotype.mutateZ s sites = Raise IndexError.
Proof.
  intros Hb Hsites. revert s Hb.
  induction Hsites as [|i sites Hi Hsites IH]; intros s Hb Hout.
  - by apply Exists_nil in Hout.
  - cbn [Genotype.mutateZ].
    destruct (decide (- Z.of_nat (String.length s) <= i
                      < Z.of_nat (String.length s))%Z) as [Hin|Hnin].
    + rewrite mutate_stepZ_site by done.
      rewrite mutate_step_flipped by (done || by apply slice_bound_lt).
      cbn [rbind]. apply IH; [by apply flipped_binary|].
      rewrite length_flipped.
      apply Exists_cons in Hout as [Hout|Hout]; [lia|done].
    + rewrite mutate_stepZ_outcome.
      assert (char_at_int s i = None) as -> by (apply char_at_int_None; lia).
      done.
Qed.

Lemma mutate_out_of_range_witness :
  Genotype.mutateZ "0000" [(-2)%Z; 1%Z; 4%Z; 0%Z] = Raise IndexError.
Proof.
  apply (mutate_out_of_range "0000" [(-2)%Z; 1%Z; 4%Z; 0%Z]).
  - reflexivity.
  - repeat constructor; lia.
  - do 2 apply Exists_cons_tl. apply Exists_cons_hd. cbn. lia.
Defined.

Example mutate_lengthened_sequence :
  Genotype.mutateZ "000" [(-1)%Z; 4%Z] = Ok "001010".
Proof. reflexivity. Qed.

(** ** Further properties: the Hamming distance *)

Lemma dist_loop_sym a b n : Genotype.dist_loop a b n = Genotype.dist_loop b a n.
Proof.
  revert b n. induction a as [|c1 a IH]; intros [|c2 b] n; simpl; try done.
  rewrite (Ascii.eqb_sym c1 c2). apply IH.
Qed.

Lemma dist_loop_bound a b :
  Genotype.dist_loop a b 0 <= Nat.min (String.length a) (String.length b).
Proof.
  revert b. induction a as [|c1 a IH]; intros [|c2 b]; simpl; try lia.
  specialize (IH b). destruct (Ascii.eqb c1 c2); [lia|].
  rewrite dist_loop_acc. lia.
Qed.

Lemma dist_loop_prefix a b x :
  String.length a <= String.length b ->
  Genotype.dist_loop a (b +:+ x) 0 = Genotype.dist_loop a b 0.
Proof.
  revert b. induction a as [|c1 a IH]; intros [|c2 b] Hlen; simpl in *;
    try done; try lia.
  destruct (Ascii.eqb c1 c2).
  - apply IH. lia.
  - rewrite (dist_loop_acc _ (b +:+ x)), (dist_loop_acc _ b), IH by lia. done.
Qed.

(** X9.  The Hamming distance is symmetric, never exceeds the length of the
    shorter sequence, and does not see what the longer sequence has beyond
    the length of the shorter one. *)
Theorem dist_symmetric_and_bounded a b :
  Genotype.dist a b = Genotype.dist b a /\
  (exists d, Genotype.dist a b = Ok d /\
             d <= Nat.min (String.length a) (String.length b)) /\
  (forall x, String.length a <= String.length b ->
             Genotype.dist a (b +:+ x) = Genotype.dist a b).
Proof.
  unfold Genotype.dist. split; [by rewrite dist_loop_sym|].
  split; [eexists; split; [done|apply dist_loop_bound]|].
  intros x Hlen. by rewrite dist_loop_prefix.
Qed.

(** X10.  Between sequences of equal length the distance is zero exactly
    when the two are the same sequence. *)
Theorem dist_zero_iff_equal a b :
  String.length a = String.length b ->
  Genotype.dist a b = Ok 0 <-> a = b.
Proof.
  intros Hlen. rewrite dist_equal_length by done. split.
  - intros [= H]. apply length_zero_iff_nil in H.
    apply char_at_ext. intros i.
    destruct (decide (char_at a i = char_at b i)) as [|Hne]; [done|].
    apply (differing_positions_spec a b i Hlen) in Hne.
    rewrite H in Hne. by apply elem_of_nil in Hne.
  - intros ->. by rewrite differing_positions_refl.
Qed.

Lemma dist_zero_iff_equal_witness :
  Genotype.dist "0110" "0110" = Ok 0 <-> "0110" = "0110".
Proof. apply (dist_zero_iff_equal "0110" "0110"). reflexivity. Defined.

Lemma dist_loop_triangle a b c :
  String.length a = String.length b -> String.length b = String.length c ->
  Genotype.dist_loop a c 0
  <= Genotype.dist_loop a b 0 + Genotype.dist_loop b c 0.
Proof.
  revert b c. induction a as [|x a IH]; intros [|y b] [|z c] Hab Hbc;
    simpl in *; try lia.
  specialize (IH b c ltac:(lia) ltac:(lia)).
  destruct (Ascii.eqb_spec x z) as [Hxz|Hxz],
           (Ascii.eqb_spec x y) as [Hxy|Hxy],
           (Ascii.eqb_spec y z) as [Hyz|Hyz];
    try congruence;
    rewrite ?(dist_loop_acc a c 1), ?(dist_loop_acc a b 1),
      ?(dist_loop_acc b c 1); lia.
Qed.

(** X11.  Among three sequences of one length the distance obeys the
    triangle inequality. *)
Theorem dist_triangle a b c dab dbc dac :
  String.length a = String.length b -> String.length b = String.length c ->
  Genotype.dist a b = Ok dab -> Genotype.dist b c = Ok dbc ->
  Genotype.dist a c = Ok dac ->
  dac <= dab + dbc.
Proof.
  unfold Genotype.dist. intros Hab Hbc [= <-] [= <-] [= <-].
  by apply dist_loop_triangle.
Qed.

Lemma dist_triangle_witness : 2 <= 1 + 1.
Proof.
  apply (dist_triangle "000" "010" "011" 1 1 2); reflexivity.
Defined.

(** ** Further properties: diverged sites and introgression *)

Lemma alleles_at_in_range s sites :
  Forall (fun i => i < String.length s) sites ->
  Some <$> alleles_at s sites = char_at s <$> sites.
Proof.
  unfold alleles_at. induction 1 as [|i sites Hi _ IH]; [done|].
  destruct (char_at_lt _ _ Hi) as [c Hc].
  cbn. rewrite Hc. cbn. by rewrite IH.
Qed.

(** X12.  On sequences of equal length [get_diverged_sites] returns three
    lists of one length, the Hamming distance: the sites where the
    sequences differ, in strictly ascending order, and at each index the
    allele of [seq1] and the allele of [seq2] at that site, which differ. *)
Theorem get_diverged_sites_lists seq1 seq2 :
  String.length seq1 = String.length seq2 ->
  exists d,
    Genotype.get_diverged_sites seq1 seq2 = Ok d /\
    Genotype.dist seq1 seq2 = Ok (length (Genotype.sites d)) /\
    length (Genotype.seq1_alleles d) = length (Genotype.sites d) /\
    length (Genotype.seq2_alleles d) = length (Genotype.sites d) /\
    StronglySorted lt (Genotype.sites d) /\
    (forall i, i ∈ Genotype.sites d <-> char_at seq1 i <> char_at seq2 i) /\
    (forall k site,
       Genotype.sites d !! k = Some site ->
       exists a b,
         Genotype.seq1_alleles d !! k = Some a /\ char_at seq1 site = Some a /\
         Genotype.seq2_alleles d !! k = Some b /\ char_at seq2 site = Some b /\
         a <> b).
Proof.
  intros Hlen. eexists. split; [by apply get_diverged_sites_spec|].
  cbn [Genotype.sites Genotype.seq1_alleles Genotype.seq2_alleles].
  split; [by apply dist_equal_length|].
  assert (Forall (fun i => i < String.length seq1)
            (differing_positions seq1 seq2)) as H1.
  { apply Forall_forall. intros i Hi. by eapply differing_positions_lt. }
  assert (Forall (fun i => i < String.length seq2)
            (differing_positions seq1 seq2)) as H2 by (by rewrite <- Hlen).
  split.
  { pose proof (f_equal length (alleles_at_in_range _ _ H1)) as E.
    by rewrite !length_fmap in E. }
  split.
  { pose proof (f_equal length (alleles_at_in_range _ _ H2)) as E.
    by rewrite !length_fmap in E. }
  split; [apply differing_positions_sorted|].
  split; [intros i; by apply differing_positions_spec|].
  intros k site Hk.
  pose proof (f_equal (.!! k) (alleles_at_in_range _ _ H1)) as E1.
  pose proof (f_equal (.!! k) (alleles_at_in_range _ _ H2)) as E2.
  rewrite !list_lookup_fmap, Hk in E1, E2. cbn in E1, E2.
  destruct (alleles_at seq1 _ !! k) as [a|]; [|done].
  destruct (alleles_at seq2 _ !! k) as [b|]; [|done].
  cbn in E1, E2. injection E1 as E1. injection E2 as E2.
  exists a, b. split; [done|]. split; [done|]. split; [done|]. split; [done|].
  apply list_elem_of_lookup_2, (differing_positions_spec _ _ _ Hlen) in Hk.
  congruence.
Qed.

Lemma get_diverged_sites_lists_witness :
  exists d,
    Genotype.get_diverged_sites "000000" "011010" = Ok d /\
    Genotype.dist "000000" "011010" = Ok (length (Genotype.sites d)) /\
    length (Genotype.seq1_alleles d) = length (Genotype.sites d) /\
    length (Genotype.seq2_alleles d) = length (Genotype.sites d) /\
    StronglySorted lt (Genotype.sites d) /\
    (forall i, i ∈ Genotype.sites d
               <-> char_at "000000" i <> char_at "011010" i) /\
    (forall k site,
       Genotype.sites d !! k = Some site ->
       exists a b,
         Genotype.seq1_alleles d !! k = Some a /\
         char_at "000000" site = Some a /\
         Genotype.seq2_alleles d !! k = Some b /\
         char_at "011010" site = Some b /\
         a <> b).
Proof. apply (get_diverged_sites_lists "000000" "011010"). reflexivity. Defined.

Lemma introgress_loop_no_assertion r sites acc :
  Genotype.introgress_loop r sites acc <> Raise AssertionError.
Proof.
  revert acc. induction sites as [|i sites IH]; intros acc; [done|].
  cbn [Genotype.introgress_loop].
  unfold Genotype.mutate_int. cbn [Genotype.mutate].
  rewrite mutate_step_outcome.
  destruct (char_at r i) as [c|]; [|done].
  destruct (mutated_allele c); [|done]. cbn [rbind]. apply IH.
Qed.

(** X13.  [get_diverged_sites] and [introgress] fail their length assertion
    exactly when the two sequences have different lengths. *)
Theorem length_assertions seq1 seq2 :
  (Genotype.get_diverged_sites seq1 seq2 = Raise AssertionError <->
   String.length seq1 <> String.length seq2) /\
  (Genotype.introgress seq1 seq2 = Raise AssertionError <->
   String.length seq1 <> String.length seq2).
Proof.
  split.
  - split.
    + intros H Hlen. by rewrite get_diverged_sites_spec in H.
    + apply get_diverged_sites_length_mismatch.
  - split.
    + intros H Hlen. unfold Genotype.introgress in H.
      rewrite <- Hlen, Nat.eqb_refl, get_diverged_sites_spec in H by done.
      cbn [negb rbind Genotype.sites] in H.
      destruct (0 <? _); [|done].
      by apply introgress_loop_no_assertion in H.
    + apply introgress_length_mismatch.
Qed.

(** ** Further properties: genotypes, viability and robustness *)

(** X14.  [Genotype(seq, p)] with [p] outside [[0, 1]] fails its assertion
    before any lookup: nothing is drawn and nothing is recorded.  With [p]
    inside, it returns the genotype of [seq] with [L = len(seq)], no [nu]
    yet, and the viability that the dictionary holds for [seq] afterwards;
    the robustness cache is untouched. *)
Theorem Genotype_init_outcome seq p w :
  (valid_p p ->
   exists v w',
     Genotype.init seq p w
     = (Ok (Genotype.mk seq (String.length seq) p v None), w') /\
     viability_dict w' !! seq = Some v /\
     nu_dict w' = nu_dict w) /\
  (~ valid_p p -> Genotype.init seq p w = (Raise AssertionError, w)).
Proof.
  split.
  - intros Hp. destruct (init_run seq p w Hp) as (v & w' & Hrun & Hv).
    exists v, w'. split; [done|]. split; [done|].
    symmetry. eapply (preserves_run same_nu), Hrun. apply init_same_nu.
  - intros Hp. unfold valid_p in Hp. unfold Genotype.init.
    destruct (Qle_bool 0 p); [|done].
    rewrite (bind_Ok _ _ _ _ _ (assert_true w)).
    destruct (Qle_bool p 1); [|done]. by destruct Hp.
Qed.

(** X15.  [make_viable(seq, p)] with a valid [p] always returns a viable
    genotype of [seq]; afterwards the dictionary holds [True] for [seq],
    every other entry is what it was, and the robustness cache is
    untouched. *)
Theorem make_viable_viable seq p w :
  valid_p p ->
  exists g w',
    Genotype.make_viable seq p w = (Ok g, w') /\
    Genotype.seq g = seq /\
    Genotype.L g = String.length seq /\
    Genotype.viable g = true /\
    viability_dict w' !! seq = Some true /\
    (forall s, s <> seq -> viability_dict w' !! s = viability_dict w !! s) /\
    nu_dict w' = nu_dict w.
Proof.
  intros Hp. destruct (init_run seq p w Hp) as (v & w1 & Hrun & Hv).
  assert (forall s, s <> seq -> viability_dict w1 !! s = viability_dict w !! s)
    as Hother.
  { intros s Hs. unfold Genotype.init in Hrun. destruct Hp as [Hp0 Hp1].
    rewrite Hp0, Hp1 in Hrun.
    rewrite !(bind_Ok _ _ _ _ _ (assert_true w)) in Hrun.
    apply bind_Ok_inv in Hrun as (v' & w1' & Hget & Hret).
    apply ret_Ok_inv in Hret as [_ ->].
    destruct (viability_dict w !! seq) as [v0|] eqn:E.
    - rewrite (get_viability_hit _ _ _ _ E) in Hget. by injection Hget as _ <-.
    - rewrite (get_viability_miss _ _ _ E) in Hget. injection Hget as _ <-.
      cbn. by rewrite lookup_insert_ne. }
  assert (nu_dict w1 = nu_dict w) as Hnu.
  { symmetry. eapply (preserves_run same_nu), Hrun. apply init_same_nu. }
  unfold Genotype.make_viable. rewrite (bind_Ok _ _ _ _ _ Hrun).
  cbn [Genotype.viable]. destruct v; cbn [negb].
  - eexists _, w1. split; [reflexivity|]. by cbn.
  - eexists _, _. split; [reflexivity|]. cbn.
    rewrite lookup_insert_eq. repeat split; try done.
    intros s Hs. rewrite lookup_insert_ne by done. by apply Hother.
Qed.

Lemma make_viable_viable_witness :
  exists g w',
    Genotype.make_viable "0" 0 drawn_inviable_world = (Ok g, w') /\
    Genotype.seq g = "0" /\
    Genotype.L g = String.length "0" /\
    Genotype.viable g = true /\
    viability_dict w' !! "0" = Some true /\
    (forall s, s <> "0" ->
               viability_dict w' !! s = viability_dict drawn_inviable_world !! s) /\
    nu_dict w' = nu_dict drawn_inviable_world.
Proof.
  apply (make_viable_viable "0" 0 drawn_inviable_world). split; reflexivity.
Defined.

Lemma get_viable_neighbors_loop_sites self r acc w :
  wf_genotype self ->
  Forall (fun i => i < String.length (Genotype.seq self)) r ->
  exists w',
    Genotype.get_viable_neighbors_loop self r acc w
    = (Ok (acc ++ filter (fun i => viability_dict w'
                                     !! flipped (Genotype.seq self) i
                                   = Some true) r), w') /\
    forall i, i ∈ r ->
              is_Some (viability_dict w' !! flipped (Genotype.seq self) i).
Proof.
  intros Hwf Hr. revert acc w.
  induction Hr as [|i r Hi Hr IH]; intros acc w.
  - exists w. cbn. rewrite app_nil_r. split; [done|].
    intros i Hi. by apply elem_of_nil in Hi.
  - cbn [Genotype.get_viable_neighbors_loop].
    rewrite mutate_int_flipped by (done || apply (wf_binary _ Hwf)).
    unfold lift, bind at 1.
    destruct (init_run (flipped (Genotype.seq self) i) (Genotype.p self) w
                (wf_p _ Hwf)) as (v & w1 & Hinit & Hv).
    rewrite (bind_Ok _ _ _ _ _ Hinit). cbn [Genotype.viable].
    destruct (IH (if v then acc ++ [i] else acc) w1) as (w' & Hrun & Hrec).
    assert (viability_dict w' !! flipped (Genotype.seq self) i = Some v) as Hv'.
    { eapply lookup_weaken; [exact Hv|].
      eapply (preserves_run grows), Hrun.
      apply get_viable_neighbors_loop_grows. }
    exists w'. split.
    + rewrite filter_cons. destruct v.
      * rewrite decide_True by done. rewrite Hrun. by rewrite <- app_assoc.
      * rewrite decide_False by congruence. done.
    + intros j Hj. apply elem_of_cons in Hj as [->|Hj]; [by eexists|].
      by apply Hrec.
Qed.

(** X16.  For a genotype of the data model [get_viable_neighbors] returns,
    in ascending order, exactly the sites whose single-site mutant the
    dictionary holds as viable afterwards; every one of the [L] mutants has
    been looked up. *)
Theorem get_viable_neighbors_sites self w :
  wf_genotype self ->
  exists l w',
    Genotype.get_viable_neighbors self w = (Ok l, w') /\
    StronglySorted lt l /\
    (forall i, i ∈ l <->
               i < Genotype.L self /\
               viability_dict w' !! flipped (Genotype.seq self) i = Some true) /\
    (forall i, i < Genotype.L self ->
               is_Some (viability_dict w' !! flipped (Genotype.seq self) i)).
Proof.
  intros Hwf. unfold Genotype.get_viable_neighbors.
  destruct (get_viable_neighbors_loop_sites self (range (Genotype.L self)) [] w
              Hwf) as (w' & Hrun & Hrec).
  { apply Forall_forall. intros i Hi. apply elem_of_seq in Hi.
    rewrite <- (wf_L _ Hwf). lia. }
  eexists _, w'. split; [exact Hrun|]. cbn [app].
  split; [apply StronglySorted_filter_lt|].
  split.
  - intros i. rewrite list_elem_of_filter. unfold range. rewrite elem_of_seq.
    split; [intros [? ?]; split; [lia|done]|intros [? ?]; split; [done|lia]].
  - intros i Hi. apply Hrec. apply elem_of_seq. lia.
Qed.

Lemma get_viable_neighbors_sites_witness :
  exists l w',
    Genotype.get_viable_neighbors sample_lineage1 sample_landscape = (Ok l, w') /\
    StronglySorted lt l /\
    (forall i, i ∈ l <->
               i < Genotype.L sample_lineage1 /\
               viability_dict w' !! flipped (Genotype.seq sample_lineage1) i
               = Some true) /\
    (forall i, i < Genotype.L sample_lineage1 ->
               is_Some (viability_dict w'
                          !! flipped (Genotype.seq sample_lineage1) i)).
Proof.
  apply (get_viable_neighbors_sites sample_lineage1 sample_landscape).
  split; [reflexivity|reflexivity|split; reflexivity].
Defined.

(** ** Robustness *)

Lemma get_viable_neighbors_loop_length self r acc w l w' :
  Genotype.get_viable_neighbors_loop self r acc w = (Ok l, w') ->
  length l <= length acc + length r.
Proof.
  revert acc w. induction r as [|i r IH]; intros acc w Hrun.
  - apply ret_Ok_inv in Hrun as [<- _]. simpl. lia.
  - cbn [Genotype.get_viable_neighbors_loop] in Hrun. inv_run.
    match goal with
    | H : (if ?b then _ else _) _ = _ |- _ =>
        destruct b; apply IH in H; rewrite ?length_app in H; simpl in *; lia
    end.
Qed.

Lemma ratio_bounds n d v :
  n <= d -> Genotype.ratio n d = Ok v -> (0 <= v)%Q /\ (v <= 1)%Q.
Proof.
  unfold Genotype.ratio. intros Hn.
  destruct (Nat.eqb_spec d 0) as [|Hd]; [done|]. intros [= <-].
  assert (Z.pos (Pos.of_nat d) = Z.of_nat d) as Hpos.
  { rewrite <- positive_nat_Z, Nat2Pos.id by done. done. }
  unfold Qle. cbn. rewrite Hpos. lia.
Qed.

Lemma get_robustness_inv self w g w' :
  Genotype.get_robustness self w = (Ok g, w') ->
  exists v,
    g = Genotype.mk (Genotype.seq self) (Genotype.L self) (Genotype.p self)
          (Genotype.viable self) (Some v) /\
    nu_dict w' !! Genotype.seq self = Some v /\
    (nu_dict w !! Genotype.seq self = Some v /\ w' = w \/
     nu_dict w !! Genotype.seq self = None /\
     exists l w1,
       Genotype.get_viable_neighbors self w = (Ok l, w1) /\
       Genotype.ratio (length l) (Genotype.L self) = Ok v /\
       w' = mkWorld (viability_dict w1)
              (<[Genotype.seq self := v]> (nu_dict w1)) (rnd w1) /\
       nu_dict w1 = nu_dict w).
Proof.
  unfold Genotype.get_robustness, bind at 1, nu_lookup.
  destruct (nu_dict w !! Genotype.seq self) as [v0|] eqn:E.
  - intros Hrun. apply ret_Ok_inv in Hrun as [<- <-]. exists v0. auto.
  - intros Hrun. inv_run.
    match goal with
    | H : nu_update _ ?v ?w1 = (Ok _, ?w2) |- _ =>
        exists v; unfold nu_update in H; injection H as _ <-
    end.
    split; [done|]. cbn [nu_dict]. split; [by rewrite lookup_insert_eq|].
    right. split; [done|]. eexists _, _. split; [done|]. split; [done|].
    split; [done|]. symmetry.
    eapply (preserves_run same_nu); [|eassumption].
    apply get_viable_neighbors_loop_same_nu.
Qed.

(** X17.  Whenever [get_robustness] returns, the [nu] it leaves on the
    genotype is the value the cache now holds for the sequence, and, if the
    cache held only fractions of [[0, 1]] before, this [nu] is one too and
    the cache still holds only such fractions. *)
Theorem get_robustness_in_unit_interval self w g w' :
  nu_dict_bounded w ->
  Genotype.get_robustness self w = (Ok g, w') ->
  exists v,
    Genotype.nu g = Some v /\
    nu_dict w' !! Genotype.seq self = Some v /\
    (0 <= v)%Q /\ (v <= 1)%Q /\
    nu_dict_bounded w'.
Proof.
  intros Hb Hrun.
  apply get_robustness_inv in Hrun
    as (v & -> & Hv & [[Hhit ->]|(Hmiss & l & w1 & Hn & Hratio & -> & Hnu)]).
  - exists v. split; [done|]. split; [done|].
    destruct (map_Forall_lookup_1 _ _ _ _ Hb Hhit). done.
  - exists v. split; [done|]. split; [done|].
    assert ((0 <= v)%Q /\ (v <= 1)%Q) as [H0 H1].
    { eapply ratio_bounds, Hratio.
      apply get_viable_neighbors_loop_length in Hn. simpl in Hn.
      unfold range in Hn. by rewrite length_seq in Hn. }
    split; [done|]. split; [done|].
    unfold nu_dict_bounded. cbn [nu_dict]. rewrite Hnu.
    by apply map_Forall_insert_2.
Qed.

Lemma get_robustness_in_unit_interval_witness :
  exists g w' v,
    Genotype.get_robustness sample_lineage1 sample_landscape = (Ok g, w') /\
    Genotype.nu g = Some v /\
    nu_dict w' !! Genotype.seq sample_lineage1 = Some v /\
    (0 <= v)%Q /\ (v <= 1)%Q /\
    nu_dict_bounded w'.
Proof.
  eexists _, _.
  assert (nu_dict_bounded sample_landscape) as Hb by apply map_Forall_empty.
  pose proof (get_robustness_in_unit_interval sample_lineage1 sample_landscape)
    as Hthm.
  match goal with
  | |- exists v, ?R = (Ok ?g, ?w) /\ _ =>
      assert (R = (Ok g, w)) as Hrun by (vm_compute; reflexivity)
  end.
  destruct (Hthm _ _ Hb Hrun) as (v & H). exists v. split; [exact Hrun|exact H].
Defined.

Lemma length_filter_all {A} (P : A -> Prop) `{!forall x, Decision (P x)}
    (l : list A) :
  length (filter P l) = length l <-> Forall P l.
Proof.
  induction l as [|x l IH]; [by split|].
  rewrite filter_cons, Forall_cons. pose proof (length_filter P l).
  case_decide; simpl.
  - rewrite <- IH. split; [intros; split; [done|lia]|intros [_ ?]; lia].
  - split; [lia|tauto].
Qed.

(** X18.  For a non-empty genotype of the data model whose sequence is not
    in the cache, [get_robustness] returns [nu = n / L] where [n] counts the
    sites whose single-site mutant the dictionary now holds as viable; so
    [n = L], that is [nu = 1], exactly when every neighbour is viable. *)
Theorem get_robustness_counts_viable_neighbors self w :
  wf_genotype self -> 0 < Genotype.L self ->
  nu_dict w !! Genotype.seq self = None ->
  exists n w',
    Genotype.get_robustness self w
    = (Ok (Genotype.mk (Genotype.seq self) (Genotype.L self) (Genotype.p self)
             (Genotype.viable self)
             (Some (Z.of_nat n # Pos.of_nat (Genotype.L self)))), w') /\
    n = length (filter (fun i => viability_dict w'
                                   !! flipped (Genotype.seq self) i = Some true)
                       (range (Genotype.L self))) /\
    n <= Genotype.L self /\
    (n = Genotype.L self <->
     forall i, i < Genotype.L self ->
               viability_dict w' !! flipped (Genotype.seq self) i = Some true).
Proof.
  intros Hwf Hpos Hmiss.
  destruct (get_viable_neighbors_loop_sites self (range (Genotype.L self)) [] w
              Hwf) as (w1 & Hrun & _).
  { apply Forall_forall. intros i Hi. apply elem_of_seq in Hi.
    rewrite <- (wf_L _ Hwf). lia. }
  cbn [app] in Hrun.
  eexists _, _. split.
  { unfold Genotype.get_robustness, bind at 1, nu_lookup. rewrite Hmiss.
    unfold Genotype.get_viable_neighbors. rewrite (bind_Ok _ _ _ _ _ Hrun).
    unfold Genotype.ratio. destruct (Nat.eqb_spec (Genotype.L self) 0); [lia|].
    reflexivity. }
  cbn [viability_dict]. split; [done|].
  pose proof (length_filter
                (fun i => viability_dict w1 !! flipped (Genotype.seq self) i
                          = Some true) (range (Genotype.L self))) as Hle.
  unfold range in *. rewrite length_seq in Hle. split; [done|].
  pose proof (length_filter_all
                (fun i => viability_dict w1 !! flipped (Genotype.seq self) i
                          = Some true) (seq 0 (Genotype.L self))) as Hall.
  rewrite length_seq, Forall_forall in Hall. rewrite Hall. split.
  - intros H i Hi. apply H, elem_of_seq. lia.
  - intros H i Hi. apply H. apply elem_of_seq in Hi. lia.
Qed.

Lemma get_robustness_counts_viable_neighbors_witness :
  exists n w',
    Genotype.get_robustness sample_lineage1 sample_landscape
    = (Ok (Genotype.mk (Genotype.seq sample_lineage1)
             (Genotype.L sample_lineage1) (Genotype.p sample_lineage1)
             (Genotype.viable sample_lineage1)
             (Some (Z.of_nat n # Pos.of_nat (Genotype.L sample_lineage1)))),
       w') /\
    n = length (filter (fun i => viability_dict w'
                                   !! flipped (Genotype.seq sample_lineage1) i
                                 = Some true)
                       (range (Genotype.L sample_lineage1))) /\
    n <= Genotype.L sample_lineage1 /\
    (n = Genotype.L sample_lineage1 <->
     forall i, i < Genotype.L sample_lineage1 ->
               viability_dict w' !! flipped (Genotype.seq sample_lineage1) i
               = Some true).
Proof.
  apply (get_robustness_counts_viable_neighbors sample_lineage1 sample_landscape).
  - split; [reflexivity|reflexivity|split; reflexivity].
  - cbn. lia.
  - reflexivity.
Defined.

(** X19.  [get_robustness] is memoised per sequence: once it has returned,
    calling it again on the result changes nothing, and calling it on the
    same genotype in any later world that kept the cache entries returns
    the same genotype without touching that world. *)
Theorem get_robustness_memoised self w g w' :
  Genotype.get_robustness self w = (Ok g, w') ->
  Genotype.get_robustness g w' = (Ok g, w') /\
  forall w2, nu_dict w' ⊆ nu_dict w2 ->
             Genotype.get_robustness self w2 = (Ok g, w2).
Proof.
  intros Hrun. apply get_robustness_inv in Hrun as (v & -> & Hv & _).
  assert (forall w2, nu_dict w' ⊆ nu_dict w2 ->
            nu_dict w2 !! Genotype.seq self = Some v) as Hhit.
  { intros w2 Hsub. by eapply lookup_weaken. }
  split.
  - unfold Genotype.get_robustness, bind, nu_lookup. cbn. by rewrite Hv.
  - intros w2 Hsub.
    unfold Genotype.get_robustness, bind, nu_lookup. by rewrite (Hhit w2 Hsub).
Qed.

Lemma get_robustness_memoised_witness :
  exists g w',
    Genotype.get_robustness sample_lineage1 sample_landscape = (Ok g, w') /\
    Genotype.get_robustness g w' = (Ok g, w') /\
    forall w2, nu_dict w' ⊆ nu_dict w2 ->
               Genotype.get_robustness sample_lineage1 w2 = (Ok g, w2).
Proof.
  eexists _, _.
  pose proof (get_robustness_memoised sample_lineage1 sample_landscape) as Hthm.
  match goal with
  | |- ?R = (Ok ?g, ?w) /\ _ =>
      assert (R = (Ok g, w)) as Hrun by (vm_compute; reflexivity)
  end.
  split; [exact Hrun|]. exact (Hthm _ _ Hrun).
Defined.

(** X20.  On a genotype of length 0 whose sequence is not in the cache
    [get_robustness] raises [ZeroDivisionError] and leaves the world as it
    was; so a population or a process cannot be founded on an empty
    sequence. *)
Theorem get_robustness_empty_sequence self w :
  Genotype.L self = 0 ->
  nu_dict w !! Genotype.seq self = None ->
  Genotype.get_robustness self w = (Raise ZeroDivisionError, w) /\
  (Genotype.viable self = true ->
   Population.init self w = (Raise ZeroDivisionError, w) /\
   Orr.init self w = (Raise ZeroDivisionError, w)).
Proof.
  intros HL Hmiss.
  assert (Genotype.get_robustness self w = (Raise ZeroDivisionError, w)) as Hrob.
  { unfold Genotype.get_robustness, bind at 1, nu_lookup. rewrite Hmiss.
    unfold Genotype.get_viable_neighbors. rewrite HL. reflexivity. }
  split; [done|]. intros Hv.
  assert (Population.init self w = (Raise ZeroDivisionError, w)) as Hpop.
  { unfold Population.init. rewrite Hv, (bind_Ok _ _ _ _ _ (assert_true w)).
    unfold bind. by rewrite Hrob. }
  split; [done|]. unfold Orr.init, bind. by rewrite Hpop.
Qed.

Lemma get_robustness_empty_sequence_witness :
  Genotype.get_robustness (Genotype.mk EmptyString 0 (1 # 2) true None)
    sample_world
  = (Raise ZeroDivisionError, sample_world) /\
  (Genotype.viable (Genotype.mk EmptyString 0 (1 # 2) true None) = true ->
   Population.init (Genotype.mk EmptyString 0 (1 # 2) true None) sample_world
   = (Raise ZeroDivisionError, sample_world) /\
   Orr.init (Genotype.mk EmptyString 0 (1 # 2) true None) sample_world
   = (Raise ZeroDivisionError, sample_world)).
Proof.
  apply (get_robustness_empty_sequence
           (Genotype.mk EmptyString 0 (1 # 2) true None) sample_world);
    reflexivity.
Defined.

(** ** Further properties: the random walk of a population *)

Lemma init_inv seq p w g w' :
  Genotype.init seq p w = (Ok g, w') ->
  exists v, g = Genotype.mk seq (String.length seq) p v None /\
            viability_dict w' !! seq = Some v.
Proof.
  unfold Genotype.init. intros Hrun. inv_run.
  match goal with
  | H : Genotype.get_viability _ _ ?w0 = (Ok ?v, _) |- _ =>
      exists v; split; [done|];
      destruct (get_viability_recorded seq p w0) as (v' & wv & Hrun' & Hv');
      rewrite Hrun' in H; by injection H as <- <-
  end.
Qed.

Lemma mutate_random_inv seq w m w' :
  Genotype.mutate_random seq w = (Ok m, w') ->
  exists site, Genotype.mutate_int seq site = Ok m.
Proof. unfold Genotype.mutate_random. intros Hrun. inv_run. eauto. Qed.

(** What the loop of [substitute] leaves as current genotype: the old one,
    in the blind regime only, or a viable single-site mutant of it. *)
Lemma substitute_loop_inv fuel self blind w cur w' :
  Population.substitute_loop fuel self blind w = (Ok cur, w') ->
  (blind = true /\ cur = Population.current self) \/
  (Genotype.viable cur = true /\
   Genotype.nu cur = None /\
   Genotype.p cur = Population.p self /\
   Genotype.L cur = String.length (Genotype.seq cur) /\
   viability_dict w' !! Genotype.seq cur = Some true /\
   exists site,
     Genotype.mutate_int (Genotype.seq (Population.current self)) site
     = Ok (Genotype.seq cur)).
Proof.
  revert w. induction fuel as [|fuel IH]; intros w Hrun; [done|].
  cbn [Population.substitute_loop] in Hrun. inv_run.
  match goal with
  | H : Genotype.mutate_random _ _ = _ |- _ =>
      apply mutate_random_inv in H as [site Hsite]
  end.
  match goal with
  | H : Genotype.init _ _ _ = _ |- _ => apply init_inv in H as (v & -> & Hv)
  end.
  cbn [Genotype.viable] in Hrun. destruct v.
  - apply ret_Ok_inv in Hrun as [<- <-]. right. cbn. eauto 10.
  - destruct blind.
    + apply ret_Ok_inv in Hrun as [<- _]. by left.
    + apply IH in Hrun as [[? _]|Hrun]; [done|by right].
Qed.

Lemma dist_loop_refl a : Genotype.dist_loop a a 0 = 0.
Proof. by rewrite dist_loop_differing, differing_positions_refl. Qed.

Lemma dist_loop_mutate_int s i s' :
  Genotype.mutate_int s i = Ok s' ->
  String.length s' = String.length s /\ Genotype.dist_loop s s' 0 = 1.
Proof.
  intros Hrun. apply mutate_int_set_char in Hrun as (c & c' & Hc & Hne & ->).
  rewrite length_set_char. split; [done|].
  rewrite dist_loop_differing by (by rewrite length_set_char).
  by rewrite (differing_positions_set_char _ _ _ _ Hc Hne).
Qed.

Lemma Population_init_consistent ancestor w self w' :
  Population.init ancestor w = (Ok self, w') -> population_consistent self.
Proof.
  intros Hinit.
  apply Population_init_inv in Hinit as (anc & nu & Hv & Hrob & Hnu & ->).
  apply get_robustness_inv in Hrob as (v & -> & _).
  cbn in Hnu. injection Hnu as <-.
  split; cbn.
  - done.
  - unfold Genotype.dist. by rewrite dist_loop_refl.
  - done.
  - done.
  - exists v. split; [done|]. by rewrite lookup_singleton_eq.
  - intros k. rewrite lookup_singleton_is_Some. lia.
Qed.

Lemma Population_substitute_consistent fuel self blind w self' w' :
  population_consistent self ->
  Population.substitute fuel self blind w = (Ok self', w') ->
  population_consistent self' /\
  Population.dist self' <= Population.dist self + 1 /\
  Population.dist self <= Population.dist self' + 1 /\
  (Genotype.seq (Population.current self')
   = Genotype.seq (Population.current self) /\ blind = true \/
   Genotype.dist (Genotype.seq (Population.current self))
                 (Genotype.seq (Population.current self')) = Ok 1).
Proof.
  intros [Hlen Hdist Hsteps Hviable (nu0 & Hnu0 & Hsnap) Hkeys] Hrun.
  apply Population_substitute_inv in Hrun
    as (cur0 & w1 & cur & d & nu & Hloop & Hrob & Hd & Hnu & ->).
  apply get_robustness_inv in Hrob as (v & -> & _).
  cbn in Hnu. injection Hnu as <-.
  cbn [Genotype.seq] in Hd. unfold Genotype.dist in Hd, Hdist.
  injection Hd as <-. injection Hdist as Hdist.
  cbn [Population.current Population.ancestor Population.dist
       Population.n_steps Population.history Genotype.seq Genotype.viable
       Genotype.nu].
  assert (String.length (Genotype.seq cur0)
          = String.length (Genotype.seq (Population.current self)) /\
          Genotype.viable cur0 = true /\
          (Genotype.seq cur0 = Genotype.seq (Population.current self) /\
           blind = true \/
           Genotype.dist_loop (Genotype.seq (Population.current self))
             (Genotype.seq cur0) 0 = 1)) as (Hlen0 & Hv0 & Hmove).
  { apply substitute_loop_inv in Hloop
      as [[-> ->]|(Hv & _ & _ & _ & _ & site & Hsite)].
    - auto.
    - apply dist_loop_mutate_int in Hsite as [? ?]. auto. }
  assert (Genotype.dist_loop (Genotype.seq (Population.current self))
            (Genotype.seq cur0) 0 <= 1) as Hstep.
  { destruct Hmove as [[-> _] | ->]; [rewrite dist_loop_refl|]; lia. }
  pose proof (dist_loop_triangle (Genotype.seq cur0)
                (Genotype.seq (Population.current self))
                (Genotype.seq (Population.ancestor self)) Hlen0 Hlen) as T1.
  pose proof (dist_loop_triangle (Genotype.seq (Population.current self))
                (Genotype.seq cur0)
                (Genotype.seq (Population.ancestor self))
                (eq_sym Hlen0) ltac:(congruence)) as T2.
  rewrite (dist_loop_sym (Genotype.seq cur0)
             (Genotype.seq (Population.current self))) in T1.
  split; [|split; [lia|split; [lia|]]].
  - split; cbn.
    + congruence.
    + done.
    + lia.
    + done.
    + exists v. split; [done|]. by rewrite lookup_insert_eq.
    + intros k. rewrite lookup_insert_is_Some, Hkeys. lia.
  - destruct Hmove as [?|Hone]; [by left|right].
    unfold Genotype.dist. by rewrite Hone.
Qed.

Lemma population_reachable_consistent self :
  population_reachable self -> population_consistent self.
Proof.
  induction 1 as [ancestor w self w' Hinit|self fuel blind w self' w' _ IH Hstep].
  - by eapply Population_init_consistent.
  - by eapply Population_substitute_consistent.
Qed.

(** X21.  In every population a run can hold, the current sequence has the
    ancestor's length, [dist] is its Hamming distance to the ancestor and is
    at most [n_steps] and at most the sequence length, the current genotype
    is viable, the keys of [history] are exactly [0 .. n_steps], and the
    last entry of [history] is the snapshot of the current sequence, [dist]
    and [nu]. *)
Theorem population_bookkeeping self :
  population_reachable self ->
  String.length (Genotype.seq (Population.current self))
  = String.length (Genotype.seq (Population.ancestor self)) /\
  Genotype.dist (Genotype.seq (Population.current self))
                (Genotype.seq (Population.ancestor self))
  = Ok (Population.dist self) /\
  Population.dist self <= Population.n_steps self /\
  Population.dist self
  <= String.length (Genotype.seq (Population.ancestor self)) /\
  Genotype.viable (Population.current self) = true /\
  (forall k, is_Some (Population.history self !! k)
             <-> k <= Population.n_steps self) /\
  exists nu,
    Genotype.nu (Population.current self) = Some nu /\
    Population.history self !! Population.n_steps self
    = Some (Population.mkSnapshot (Genotype.seq (Population.current self))
              (Population.dist self) nu).
Proof.
  intros Hreach.
  destruct (population_reachable_consistent self Hreach)
    as [Hlen Hdist Hsteps Hviable Hsnap Hkeys].
  split; [done|]. split; [done|]. split; [done|]. split; [|by split].
  unfold Genotype.dist in Hdist. injection Hdist as <-.
  pose proof (dist_loop_bound (Genotype.seq (Population.current self))
                (Genotype.seq (Population.ancestor self))). lia.
Qed.

Lemma population_bookkeeping_witness :
  exists self1 w1 self2 w2,
    Population.substitute 1 sample_population true sample_population_world
    = (Ok self1, w1) /\
    Population.substitute 1 self1 true w1 = (Ok self2, w2) /\
    Population.n_steps self2 = 2 /\
    String.length (Genotype.seq (Population.current self2))
    = String.length (Genotype.seq (Population.ancestor self2)) /\
    Genotype.dist (Genotype.seq (Population.current self2))
                  (Genotype.seq (Population.ancestor self2))
    = Ok (Population.dist self2) /\
    Population.dist self2 <= Population.n_steps self2 /\
    Population.dist self2
    <= String.length (Genotype.seq (Population.ancestor self2)) /\
    Genotype.viable (Population.current self2) = true /\
    (forall k, is_Some (Population.history self2 !! k)
               <-> k <= Population.n_steps self2) /\
    exists nu,
      Genotype.nu (Population.current self2) = Some nu /\
      Population.history self2 !! Population.n_steps self2
      = Some (Population.mkSnapshot
                (Genotype.seq (Population.current self2))
                (Population.dist self2) nu).
Proof.
  eexists _, _, _, _.
  assert (exists w', Population.init
                       (Genotype.mk "000" 3 (1 # 2) true None)
                       (snd (Genotype.make_viable "000" (1 # 2) sample_world))
                     = (Ok sample_population, w')) as [w' Hinit]
    by (eexists; vm_compute; reflexivity).
  lazymatch goal with
  | |- ?A /\ _ => assert A as Hstep1 by (vm_compute; reflexivity)
  end.
  split; [exact Hstep1|].
  lazymatch goal with
  | |- ?A /\ _ => assert A as Hstep2 by (vm_compute; reflexivity)
  end.
  split; [exact Hstep2|].
  split; [reflexivity|].
  apply population_bookkeeping.
  exact (population_reachable_substitute _ _ _ _ _ _
           (population_reachable_substitute _ _ _ _ _ _
              (population_reachable_init _ _ _ _ Hinit) Hstep1) Hstep2).
Defined.

(** X22.  A step of a population a run can hold, in either regime, changes
    [dist] by at most one, keeps every earlier entry of [history], and
    either leaves the current sequence as it was, which only the blind
    regime does, or moves it to a viable sequence at Hamming distance 1; in
    the myopic regime the population always moves. *)
Theorem population_step self fuel blind w self' w' :
  population_reachable self ->
  Population.substitute fuel self blind w = (Ok self', w') ->
  Population.dist self' <= Population.dist self + 1 /\
  Population.dist self <= Population.dist self' + 1 /\
  Genotype.viable (Population.current self') = true /\
  (forall k, k <= Population.n_steps self ->
             Population.history self' !! k = Population.history self !! k) /\
  (Genotype.seq (Population.current self')
   = Genotype.seq (Population.current self) /\ blind = true \/
   Genotype.dist (Genotype.seq (Population.current self))
                 (Genotype.seq (Population.current self')) = Ok 1).
Proof.
  intros Hreach Hstep.
  pose proof (population_reachable_consistent self Hreach) as Hc.
  destruct (Population_substitute_consistent _ _ _ _ _ _ Hc Hstep)
    as (Hc' & H1 & H2 & Hmove).
  split; [done|]. split; [done|]. split; [apply Hc'|]. split; [|done].
  intros k Hk.
  apply Population_substitute_inv in Hstep
    as (cur0 & w1 & cur & d & nu & _ & _ & _ & _ & ->).
  cbn. rewrite lookup_insert_ne by lia. done.
Qed.

Lemma population_step_witness :
  exists self' w',
    Population.substitute 1 sample_population true sample_population_world
    = (Ok self', w') /\
    Population.dist self' <= Population.dist sample_population + 1 /\
    Population.dist sample_population <= Population.dist self' + 1 /\
    Genotype.viable (Population.current self') = true /\
    (forall k, k <= Population.n_steps sample_population ->
               Population.history self' !! k
               = Population.history sample_population !! k) /\
    (Genotype.seq (Population.current self')
     = Genotype.seq (Population.current sample_population) /\ true = true \/
     Genotype.dist (Genotype.seq (Population.current sample_population))
                   (Genotype.seq (Population.current self')) = Ok 1).
Proof.
  eexists _, _.
  assert (population_reachable sample_population) as Hreach.
  { assert (exists w', Population.init
                         (Genotype.mk "000" 3 (1 # 2) true None)
                         (snd (Genotype.make_viable "000" (1 # 2) sample_world))
                       = (Ok sample_population, w')) as [w' Hinit]
      by (eexists; vm_compute; reflexivity).
    exact (population_reachable_init _ _ _ _ Hinit). }
  match goal with
  | |- ?R = (Ok ?s, ?w) /\ _ =>
      assert (R = (Ok s, w)) as Hrun by (vm_compute; reflexivity)
  end.
  split; [exact Hrun|].
  exact (population_step _ _ _ _ _ _ Hreach Hrun).
Defined.

(** ** Further properties: distances and incompatibilities of the process *)

Lemma dist_loop_flipped s a i :
  is_binary s = true -> is_binary a = true ->
  String.length s = String.length a -> i < String.length s ->
  if decide (char_at s i = char_at a i)
  then Genotype.dist_loop (flipped s i) a 0 = Genotype.dist_loop s a 0 + 1
  else Genotype.dist_loop s a 0 = Genotype.dist_loop (flipped s i) a 0 + 1.
Proof.
  revert a i. induction s as [|c s IH]; intros [|x a] [|k] Hs Ha Hlen Hi;
    simpl in Hlen, Hi; try lia.
  - cbn [is_binary] in Hs, Ha.
    apply andb_true_iff in Hs as [Hc _], Ha as [Hx _].
    rewrite flipped_cons_0. cbn [char_at String.get Genotype.dist_loop].
    apply orb_true_iff in Hc, Hx.
    rewrite (dist_loop_acc s a (if Ascii.eqb (flip_allele c) x then _ else _)),
            (dist_loop_acc s a (if Ascii.eqb c x then _ else _)).
    destruct Hc as [Hc|Hc], Hx as [Hx|Hx];
      apply Ascii.eqb_eq in Hc, Hx; subst; case_decide; try done;
      cbn [flip_allele Ascii.eqb Bool.eqb]; lia.
  - cbn [is_binary] in Hs, Ha.
    apply andb_true_iff in Hs as [_ Hs], Ha as [_ Ha].
    rewrite flipped_cons_S. cbn [char_at String.get Genotype.dist_loop].
    specialize (IH a k Hs Ha ltac:(lia) ltac:(lia)).
    rewrite (dist_loop_acc (flipped s k) a), (dist_loop_acc s a).
    unfold char_at in IH. destruct (decide (String.get k s = String.get k a));
      lia.
Qed.

(** X23.  Mutating one site of a binary sequence moves it exactly one step
    away from, or one step towards, any other binary sequence of the same
    length: away when the two agreed at that site, towards when they
    differed. *)
Theorem mutate_moves_one_step s a i :
  is_binary s = true -> is_binary a = true ->
  String.length s = String.length a -> i < String.length s ->
  exists s' d d',
    Genotype.mutate_int s i = Ok s' /\
    Genotype.dist s a = Ok d /\
    Genotype.dist s' a = Ok d' /\
    (char_at s i = char_at a i -> d' = d + 1) /\
    (char_at s i <> char_at a i -> d = d' + 1).
Proof.
  intros Hs Ha Hlen Hi.
  exists (flipped s i), (Genotype.dist_loop s a 0),
         (Genotype.dist_loop (flipped s i) a 0).
  split; [by apply mutate_int_flipped|]. split; [done|]. split; [done|].
  pose proof (dist_loop_flipped s a i Hs Ha Hlen Hi) as H.
  destruct (decide (char_at s i = char_at a i)); split; done.
Qed.

Lemma mutate_moves_one_step_witness :
  exists s' d d',
    Genotype.mutate_int "0100" 1 = Ok s' /\
    Genotype.dist "0100" "0000" = Ok d /\
    Genotype.dist s' "0000" = Ok d' /\
    (char_at "0100" 1 = char_at "0000" 1 -> d' = d + 1) /\
    (char_at "0100" 1 <> char_at "0000" 1 -> d = d' + 1).
Proof.
  apply (mutate_moves_one_step "0100" "0000" 1);
    [reflexivity|reflexivity|reflexivity|simpl; lia].
Defined.

Lemma Orr_init_consistent ancestor w self w' :
  Orr.init ancestor w = (Ok self, w') -> process_consistent self.
Proof.
  intros Hinit. unfold Orr.init in Hinit. inv_run.
  match goal with
  | H : Population.init _ _ = (Ok ?pop, _) |- _ =>
      pose proof (Population_init_consistent _ _ _ _ H) as Hc;
      apply Population_init_inv in H as (anc & nu & _ & _ & _ & Hpop)
  end.
  split; cbn [Orr.pop1 Orr.pop2 Orr.dist Orr.II1 Orr.II2 Orr.n_steps
              Orr.history]; try done.
  - subst. unfold Orr.get_dist, Genotype.dist. cbn. by rewrite dist_loop_refl.
  - subst. done.
  - eexists. split; [eassumption|]. by rewrite lookup_singleton_eq.
Qed.

Lemma Orr_substitute_consistent fuel self blind w self' w' :
  process_consistent self ->
  Orr.substitute fuel self blind w = (Ok self', w') ->
  process_consistent self'.
Proof.
  intros [Hc1 Hc2 Hanc Hdist Hsteps HIIs Hsnap] Hstep.
  apply Orr_substitute_inv in Hstep
    as (rand & w0 & pop1 & pop2 & w1 & d & IIs & snap
        & Hrand & Hpop & Hd & HII & Hsnap' & ->).
  assert (population_consistent pop1 /\ population_consistent pop2 /\
          Population.ancestor pop1 = Population.ancestor pop2 /\
          Population.n_steps pop1 + Population.n_steps pop2
          = Orr.n_steps self + 1) as (Hc1' & Hc2' & Hanc' & Hsteps').
  { destruct (Qlt_bool rand (1 # 2)); destruct Hpop as [Hpop ->].
    - pose proof (Population_substitute_ancestor _ _ _ _ _ _ Hpop)
        as (Ha & _ & Hn).
      destruct (Population_substitute_consistent _ _ _ _ _ _ Hc1 Hpop)
        as [Hc1' _].
      split; [done|]. split; [done|]. split; [congruence|lia].
    - pose proof (Population_substitute_ancestor _ _ _ _ _ _ Hpop)
        as (Ha & _ & Hn).
      destruct (Population_substitute_consistent _ _ _ _ _ _ Hc2 Hpop)
        as [Hc2' _].
      split; [done|]. split; [done|]. split; [congruence|lia]. }
  split; cbn [Orr.pop1 Orr.pop2 Orr.dist Orr.II1 Orr.II2 Orr.n_steps
              Orr.history]; try done.
  - intros Hle. destruct (Nat.ltb_spec 1 d); [lia|].
    destruct HII as [-> _]. done.
  - exists snap. split; [done|]. by rewrite lookup_insert_eq.
Qed.

Lemma reachable_consistent self : reachable self -> process_consistent self.
Proof.
  induction 1 as [ancestor w self w' Hinit|self fuel blind w self' w' _ IH Hstep].
  - by eapply Orr_init_consistent.
  - by eapply Orr_substitute_consistent.
Qed.

(** X24.  In every process a run can hold the two populations share their
    ancestor genotype, [dist] is the Hamming distance between the two
    current sequences, it is at most the sum of the two populations'
    distances to the ancestor and at most [n_steps], the incompatibility
    mappings are empty whenever [dist <= 1], and the last entry of
    [history] is the snapshot of the current state. *)
Theorem process_bookkeeping self :
  reachable self ->
  Population.ancestor (Orr.pop1 self) = Population.ancestor (Orr.pop2 self) /\
  Orr.get_dist (Orr.pop1 self) (Orr.pop2 self) = Ok (Orr.dist self) /\
  Orr.dist self
  <= Population.dist (Orr.pop1 self) + Population.dist (Orr.pop2 self) /\
  Orr.dist self <= Orr.n_steps self /\
  (Orr.dist self <= 1 -> Orr.II1 self = ∅ /\ Orr.II2 self = ∅) /\
  exists nu1 nu2,
    Genotype.nu (Population.current (Orr.pop1 self)) = Some nu1 /\
    Genotype.nu (Population.current (Orr.pop2 self)) = Some nu2 /\
    Orr.history self !! Orr.n_steps self
    = Some (Orr.mkSnapshot
              (Genotype.seq (Population.current (Orr.pop1 self)))
              (Genotype.seq (Population.current (Orr.pop2 self)))
              (Population.dist (Orr.pop1 self))
              (Population.dist (Orr.pop2 self))
              (Orr.dist self) (Orr.II1 self) (Orr.II2 self) nu1 nu2).
Proof.
  intros Hreach.
  destruct (reachable_consistent self Hreach)
    as [Hc1 Hc2 Hanc Hdist Hsteps HIIs (snap & Hsnap & Hlast)].
  assert (Orr.dist self
          <= Population.dist (Orr.pop1 self) + Population.dist (Orr.pop2 self))
    as Htri.
  { destruct Hc1 as [Hl1 Hd1 _ _ _ _], Hc2 as [Hl2 Hd2 _ _ _ _].
    unfold Orr.get_dist, Genotype.dist in *.
    injection Hdist as <-. injection Hd1 as <-. injection Hd2 as <-.
    rewrite <- Hanc in Hl2 |- *.
    rewrite (dist_loop_sym (Genotype.seq (Population.current (Orr.pop2 self)))).
    apply dist_loop_triangle; congruence. }
  split; [done|]. split; [done|]. split; [done|].
  split; [pose proof (pc_dist_steps _ Hc1); pose proof (pc_dist_steps _ Hc2);
          lia|].
  split; [done|].
  unfold Orr.take_snapshot, Genotype.get_nu in Hsnap.
  destruct (Genotype.nu (Population.current (Orr.pop1 self))) as [nu1|];
    [|done].
  destruct (Genotype.nu (Population.current (Orr.pop2 self))) as [nu2|];
    [|done].
  cbn in Hsnap. injection Hsnap as <-. by exists nu1, nu2.
Qed.

Lemma process_bookkeeping_witness :
  exists ancestor w0 self0 w1 self w2,
    Genotype.make_viable "000" (1 # 2) sample_world = (Ok ancestor, w0) /\
    Orr.init ancestor w0 = (Ok self0, w1) /\
    Orr.substitute 1 self0 true w1 = (Ok self, w2) /\
    Population.ancestor (Orr.pop1 self) = Population.ancestor (Orr.pop2 self) /\
    Orr.get_dist (Orr.pop1 self) (Orr.pop2 self) = Ok (Orr.dist self) /\
    Orr.dist self
    <= Population.dist (Orr.pop1 self) + Population.dist (Orr.pop2 self) /\
    Orr.dist self <= Orr.n_steps self /\
    (Orr.dist self <= 1 -> Orr.II1 self = ∅ /\ Orr.II2 self = ∅) /\
    exists nu1 nu2,
      Genotype.nu (Population.current (Orr.pop1 self)) = Some nu1 /\
      Genotype.nu (Population.current (Orr.pop2 self)) = Some nu2 /\
      Orr.history self !! Orr.n_steps self
      = Some (Orr.mkSnapshot
                (Genotype.seq (Population.current (Orr.pop1 self)))
                (Genotype.seq (Population.current (Orr.pop2 self)))
                (Population.dist (Orr.pop1 self))
                (Population.dist (Orr.pop2 self))
                (Orr.dist self) (Orr.II1 self) (Orr.II2 self) nu1 nu2).
Proof.
  eexists _, _, _, _, _, _. split; [vm_compute; reflexivity|].
  lazymatch goal with
  | |- ?A /\ _ => assert A as Hinit by (vm_compute; reflexivity)
  end.
  split; [exact Hinit|].
  lazymatch goal with
  | |- ?A /\ _ => assert A as Hstep by (vm_compute; reflexivity)
  end.
  split; [exact Hstep|].
  apply process_bookkeeping.
  exact (reachable_substitute _ _ _ _ _ _ (reachable_init _ _ _ _ Hinit) Hstep).
Defined.

(** ** Size of the incompatibility mappings *)

Lemma get_IIs_inv self donor w m w' :
  wf_genotype self -> wf_genotype donor ->
  Genotype.get_IIs self donor w = (Ok m, w') ->
  String.length (Genotype.seq self) = String.length (Genotype.seq donor) /\
  Genotype.get_IIs_loop self
    (flipped (Genotype.seq self)
       <$> differing_positions (Genotype.seq self) (Genotype.seq donor)) ∅ w
  = (Ok m, w').
Proof.
  intros Hself Hdonor Hrun. unfold Genotype.get_IIs in Hrun. inv_run.
  match goal with H : (_ =? _) = true |- _ => apply Nat.eqb_eq in H end.
  assert (String.length (Genotype.seq self)
          = String.length (Genotype.seq donor)) as Hlen.
  { by rewrite <- (wf_L _ Hself), <- (wf_L _ Hdonor). }
  split; [done|].
  match goal with
  | H : Genotype.introgress _ _ = Ok _ |- _ =>
      rewrite (introgress_spec _ _ (wf_binary _ Hself) Hlen) in H;
      injection H as <-
  end.
  done.
Qed.

Lemma get_IIs_loop_recorded self ss acc w m w' :
  wf_genotype self ->
  Forall (fun i => i < String.length (Genotype.seq self)) ss ->
  Genotype.get_IIs_loop self (flipped (Genotype.seq self) <$> ss) acc w
  = (Ok m, w') ->
  forall site, site ∈ ss ->
               is_Some (viability_dict w' !! flipped (Genotype.seq self) site).
Proof.
  intros Hwf Hss. revert acc w.
  induction Hss as [|i ss Hi Hss IH]; intros acc w Hrun site Hsite.
  - by apply elem_of_nil in Hsite.
  - rewrite fmap_cons in Hrun. cbn [Genotype.get_IIs_loop] in Hrun.
    destruct (init_run (flipped (Genotype.seq self) i) (Genotype.p self) w
                (wf_p _ Hwf)) as (v & w1 & Hinit & Hv).
    rewrite (bind_Ok _ _ _ _ _ Hinit) in Hrun. cbn [Genotype.viable] in Hrun.
    assert (exists acc',
              Genotype.get_IIs_loop self (flipped (Genotype.seq self) <$> ss)
                acc' w1 = (Ok m, w')) as [acc' Hrest].
    { destruct v; cbn [negb] in Hrun; [by eexists|]. inv_run. by eexists. }
    apply elem_of_cons in Hsite as [->|Hsite]; [|by eapply IH].
    exists v. eapply lookup_weaken; [exact Hv|].
    eapply proj1, (preserves_run grows), Hrest. apply get_IIs_loop_grows.
Qed.

(** X25.  Between genotypes of the data model, every site that [get_IIs]
    binds is a site where the two sequences differ, so the mapping never
    has more entries than the Hamming distance; and afterwards the
    dictionary holds an outcome for the introgression at every diverged
    site. *)
Theorem get_IIs_at_most_dist self donor w m w' :
  wf_genotype self -> wf_genotype donor ->
  Genotype.get_IIs self donor w = (Ok m, w') ->
  (forall site, is_Some (m !! site) ->
                char_at (Genotype.seq self) site
                <> char_at (Genotype.seq donor) site) /\
  (exists d, Genotype.dist (Genotype.seq self) (Genotype.seq donor) = Ok d /\
             size m <= d) /\
  (forall site,
     char_at (Genotype.seq self) site <> char_at (Genotype.seq donor) site ->
     is_Some (viability_dict w' !! flipped (Genotype.seq self) site)).
Proof.
  intros Hself Hdonor Hrun.
  destruct (get_IIs_inv _ _ _ _ _ Hself Hdonor Hrun) as [Hlen Hloop].
  assert (Forall (fun i => i < String.length (Genotype.seq self))
            (differing_positions (Genotype.seq self) (Genotype.seq donor)))
    as Hdp.
  { apply Forall_forall. intros i Hi. by eapply differing_positions_lt. }
  destruct (get_IIs_loop_run self _ ∅ w Hself Hdp) as (m0 & w0 & Hrun0 & Hm).
  rewrite Hloop in Hrun0. injection Hrun0 as <- <-.
  assert (forall site, is_Some (m !! site) ->
            site ∈ differing_positions (Genotype.seq self) (Genotype.seq donor))
    as Hkeys.
  { intros site [a Ha]. apply Hm in Ha as [(Hin & _)|[Ha _]]; [done|].
    by rewrite lookup_empty in Ha. }
  split; [|split].
  - intros site Hsite. apply (differing_positions_spec _ _ _ Hlen). auto.
  - eexists. split; [by apply dist_equal_length|].
    rewrite <- size_dom.
    trans (size (list_to_set (C := gset nat)
                   (differing_positions (Genotype.seq self)
                      (Genotype.seq donor)))).
    + apply subseteq_size. intros site Hsite.
      apply elem_of_dom in Hsite. apply elem_of_list_to_set. auto.
    + rewrite size_list_to_set; [done|].
      unfold differing_positions, range. apply NoDup_filter, NoDup_seq.
  - intros site Hsite.
    eapply get_IIs_loop_recorded; [done|exact Hdp|exact Hloop|].
    by apply (differing_positions_spec _ _ _ Hlen).
Qed.

Lemma get_IIs_at_most_dist_witness :
  exists m w',
    Genotype.get_IIs sample_lineage1 sample_lineage2 sample_landscape
    = (Ok m, w') /\
    (forall site, is_Some (m !! site) ->
                  char_at (Genotype.seq sample_lineage1) site
                  <> char_at (Genotype.seq sample_lineage2) site) /\
    (exists d, Genotype.dist (Genotype.seq sample_lineage1)
                             (Genotype.seq sample_lineage2) = Ok d /\
               size m <= d) /\
    (forall site,
       char_at (Genotype.seq sample_lineage1) site
       <> char_at (Genotype.seq sample_lineage2) site ->
       is_Some (viability_dict w'
                  !! flipped (Genotype.seq sample_lineage1) site)).
Proof.
  eexists _, _.
  match goal with
  | |- ?R = (Ok ?m, ?w') /\ _ =>
      assert (R = (Ok m, w')) as Hrun by (vm_compute; reflexivity)
  end.
  split; [exact Hrun|].
  refine (get_IIs_at_most_dist _ _ _ _ _ _ _ Hrun);
    (split; [reflexivity|reflexivity|split; reflexivity]).
Defined.

(** ** Random sequences and the search for a viable one *)

Lemma str_of_int_bit n :
  n < 2 -> str_of_int (Z.of_nat n) = String (bit_char n) EmptyString.
Proof. intros Hn. destruct n as [|[|n]]; [done|done|lia]. Qed.

Lemma random_sequence_loop_bits l seq :
  Forall (fun n => n < 2) l ->
  Genotype.random_sequence_loop l seq = seq +:+ bit_string l.
Proof.
  intros Hl. revert seq. induction Hl as [|n l Hn Hl IH]; intros seq.
  - cbn [Genotype.random_sequence_loop bit_string fold_right].
    by rewrite append_empty_r.
  - cbn [Genotype.random_sequence_loop bit_string fold_right].
    rewrite IH, (str_of_int_bit _ Hn). apply append_String_r.
Qed.

Lemma bit_char_binary n :
  Ascii.eqb (bit_char n) "0" || Ascii.eqb (bit_char n) "1" = true.
Proof. unfold bit_char. by destruct (_ =? _). Qed.

Lemma length_bit_string l : String.length (bit_string l) = length l.
Proof. induction l as [|n l IH]; [done|]. cbn. by rewrite <- IH. Qed.

Lemma is_binary_bit_string l : is_binary (bit_string l) = true.
Proof.
  induction l as [|n l IH]; [done|].
  cbn [bit_string fold_right is_binary]. fold (bit_string l).
  by rewrite bit_char_binary, IH.
Qed.

Lemma char_at_bit_string l i : char_at (bit_string l) i = bit_char <$> l !! i.
Proof.
  revert i. induction l as [|n l IH]; intros [|i]; try done. apply IH.
Qed.

Lemma bit_string_fmap_mod (f : nat -> nat) l :
  bit_string ((fun i => f i mod 2) <$> l) = bit_string (f <$> l).
Proof.
  induction l as [|i l IH]; [done|].
  rewrite !fmap_cons. unfold bit_string in *. cbn [fold_right].
  rewrite IH. f_equal. unfold bit_char. by rewrite Nat.Div0.mod_mod.
Qed.

Lemma random_sequence_run L w :
  Genotype.random_sequence L w
  = (Ok (bit_string
           ((fun i => next_int (rnd w) (drawn (rnd w) + i)) <$> seq 0 L)),
     skip L w).
Proof.
  unfold Genotype.random_sequence, bind, rnd_binomial, ret, skip.
  rewrite random_sequence_loop_bits.
  - by rewrite bit_string_fmap_mod.
  - apply Forall_fmap, Forall_forall. intros i _.
    apply (Nat.mod_upper_bound _ 2). lia.
Qed.

Lemma random_sequence_post L w :
  exists s,
    Genotype.random_sequence L w = (Ok s, skip L w) /\
    String.length s = L /\ is_binary s = true.
Proof.
  eexists. split; [apply random_sequence_run|]. split.
  - by rewrite length_bit_string, length_fmap, length_seq.
  - apply is_binary_bit_string.
Qed.

(** X26.  [random_sequence(L)] always returns: a sequence of exactly [L]
    alleles, each ["0"] or ["1"], whose [i]-th allele is the [i]-th of the
    [L] draws it takes from the generator; both dictionaries are left as
    they were. *)
Theorem random_sequence_spells_draws L w :
  exists s,
    Genotype.random_sequence L w = (Ok s, skip L w) /\
    String.length s = L /\
    is_binary s = true /\
    forall i, i < L ->
              char_at s i
              = Some (bit_char (next_int (rnd w) (drawn (rnd w) + i))).
Proof.
  eexists. split; [apply random_sequence_run|].
  split; [|split].
  - by rewrite length_bit_string, length_fmap, length_seq.
  - apply is_binary_bit_string.
  - intros i Hi. rewrite char_at_bit_string, list_lookup_fmap.
    by rewrite lookup_seq_lt.
Qed.

Lemma init_valid seq p w :
  valid_p p ->
  Genotype.init seq p w
  = bind (Genotype.get_viability seq p)
         (fun v => ret (Genotype.mk seq (String.length seq) p v None)) w.
Proof. intros [Hp0 Hp1]. unfold Genotype.init. by rewrite Hp0, Hp1. Qed.

(** X27.  What [random_viable(L, p)] returns is a viable genotype of the
    data model with [L] sites, recorded viable in the dictionary; the
    dictionary has only grown, the robustness cache is untouched, at least
    [L] draws were taken, and every sequence that the search recorded on
    the way, other than the one returned, has length [L] and is recorded
    inviable. *)
Theorem random_viable_returns_viable fuel L p w g w' :
  Genotype.random_viable fuel L p w = (Ok g, w') ->
  wf_genotype g /\ Genotype.L g = L /\ Genotype.p g = p /\
  Genotype.viable g = true /\ Genotype.nu g = None /\
  viability_dict w' !! Genotype.seq g = Some true /\
  viability_dict w ⊆ viability_dict w' /\
  nu_dict w' = nu_dict w /\
  drawn (rnd w) + L <= drawn (rnd w') /\
  forall s, viability_dict w !! s = None ->
            is_Some (viability_dict w' !! s) ->
            String.length s = L /\
            (s <> Genotype.seq g -> viability_dict w' !! s = Some false).
Proof.
  revert w. induction fuel as [|fuel IH]; intros w Hrun; [done|].
  cbn [Genotype.random_viable] in Hrun.
  destruct (random_sequence_post L w) as (s & Hs & Hlen & Hbin).
  rewrite (bind_Ok _ _ _ _ _ Hs) in Hrun.
  apply bind_Ok_inv in Hrun as (g0 & w1 & Hinit & Hrun).
  assert (valid_p p) as Hp.
  { unfold Genotype.init in Hinit. inv_run. by split. }
  rewrite (init_valid _ _ _ Hp) in Hinit.
  apply bind_Ok_inv in Hinit as (v & w1' & Hv & Hret).
  apply ret_Ok_inv in Hret as [<- ->].
  cbn [Genotype.viable] in Hrun.
  assert (viability_dict (skip L w) ⊆ viability_dict w1 /\
          nu_dict w1 = nu_dict (skip L w) /\
          drawn (rnd (skip L w)) <= drawn (rnd w1) /\
          viability_dict w1 !! s = Some v /\
          forall s', s' <> s ->
                     viability_dict w1 !! s' = viability_dict (skip L w) !! s')
    as (Hsub & Hnu & Hdrawn & Hrec & Hother).
  { destruct (viability_dict (skip L w) !! s) as [v'|] eqn:E.
    - rewrite (get_viability_hit _ _ _ _ E) in Hv. injection Hv as <- <-.
      done.
    - rewrite (get_viability_miss _ _ _ E) in Hv. injection Hv as <- <-.
      cbn. split; [by apply insert_subseteq|]. split; [done|].
      split; [lia|]. split; [by rewrite lookup_insert_eq|].
      intros s' Hs'. by rewrite lookup_insert_ne. }
  cbn [skip viability_dict nu_dict rnd drawn] in Hsub, Hnu, Hdrawn, Hother.
  destruct v.
  - apply ret_Ok_inv in Hrun as [<- <-]. cbn.
    split; [by split|]. do 4 (split; [done|]). split; [done|].
    split; [done|]. split; [done|]. split; [lia|].
    intros s' Hnone [b Hb].
    destruct (decide (s' = s)) as [->|Hne]; [done|].
    rewrite (Hother _ Hne), Hnone in Hb. done.
  - destruct (IH _ Hrun)
      as (Hwf & HL & Hgp & Hviable & Hgnu & Hg & Hsub' & Hnu' & Hdrawn' & Hnew).
    do 5 (split; [done|]). split; [done|].
    split; [by trans (viability_dict w1)|].
    split; [congruence|]. split; [lia|].
    intros s' Hnone Hsome.
    destruct (decide (s' = s)) as [->|Hne].
    + split; [done|]. intros _. by eapply lookup_weaken.
    + apply Hnew; [|done]. by rewrite (Hother _ Hne).
Qed.

Lemma random_viable_returns_viable_witness :
  exists g w',
    let w := mkWorld ∅ ∅ (mkRandomState sample_floats sample_ints 1) in
    Genotype.random_viable 4 2 (1 # 2) w = (Ok g, w') /\
    wf_genotype g /\ Genotype.L g = 2 /\ Genotype.p g = 1 # 2 /\
    Genotype.viable g = true /\ Genotype.nu g = None /\
    viability_dict w' !! Genotype.seq g = Some true /\
    viability_dict w ⊆ viability_dict w' /\
    nu_dict w' = nu_dict w /\
    drawn (rnd w) + 2 <= drawn (rnd w') /\
    forall s, viability_dict w !! s = None ->
              is_Some (viability_dict w' !! s) ->
              String.length s = 2 /\
              (s <> Genotype.seq g -> viability_dict w' !! s = Some false).
Proof.
  eexists _, _. intros w.
  match goal with
  | |- ?R = (Ok ?g, ?w') /\ _ =>
      assert (R = (Ok g, w')) as Hrun by (vm_compute; reflexivity)
  end.
  split; [exact Hrun|].
  exact (random_viable_returns_viable _ _ _ _ _ _ Hrun).
Defined.

Lemma random_viable_stalls fuel L p w :
  valid_p p ->
  (forall k, Qlt_bool (next_float (rnd w) k) p = false) ->
  no_viable L w ->
  exists w', Genotype.random_viable fuel L p w = (Unfinished, w').
Proof.
  intros Hp. revert w. induction fuel as [|fuel IH]; intros w Hfloat Hnone.
  - by eexists.
  - cbn [Genotype.random_viable].
    destruct (random_sequence_post L w) as (s & Hs & Hlen & _).
    rewrite (bind_Ok _ _ _ _ _ Hs), (bind_Ok _ _ _
      (Genotype.mk s (String.length s) p false None)
      (match viability_dict w !! s with
       | Some _ => skip L w
       | None =>
           mkWorld (<[s := false]> (viability_dict w)) (nu_dict w)
             (mkRandomState (next_float (rnd w)) (next_int (rnd w))
                            (S (drawn (rnd w) + L)))
       end)).
    + cbn [Genotype.viable]. apply IH.
      * intros k. destruct (viability_dict w !! s); apply Hfloat.
      * intros s' Hs'. destruct (viability_dict w !! s) eqn:E; [by apply Hnone|].
        cbn [viability_dict]. destruct (decide (s' = s)) as [->|Hne].
        -- by rewrite lookup_insert_eq.
        -- rewrite lookup_insert_ne by done. by apply Hnone.
    + rewrite (init_valid _ _ _ Hp).
      destruct (viability_dict w !! s) as [v|] eqn:E.
      * assert (v = false) as ->.
        { destruct v; [|done]. by destruct (Hnone s Hlen). }
        by rewrite (bind_Ok _ _ _ _ _ (get_viability_hit _ _ (skip L w) _ E)).
      * rewrite (bind_Ok _ _ _ _ _ (get_viability_miss _ _ (skip L w) E)).
        cbn. by rewrite Hfloat.
Qed.

(** X28.  [random_viable(L, 0)] on a landscape with no viable sequence of
    length [L] never leaves its loop: the generator's floats are never below
    [0], each turn records its sequence inviable, and whatever number of
    turns is allowed, the search is still unfinished.  The same holds for
    any valid [p] that no float of the generator falls below. *)
Theorem random_viable_never_returns L p w :
  valid_p p ->
  (forall k, Qlt_bool (next_float (rnd w) k) p = false) ->
  no_viable L w ->
  forall fuel, fst (Genotype.random_viable fuel L p w) = Unfinished.
Proof.
  intros Hp Hfloat Hnone fuel.
  destruct (random_viable_stalls fuel L p w Hp Hfloat Hnone) as [w' ->]. done.
Qed.

Lemma random_viable_never_returns_witness :
  fst (Genotype.random_viable 5 3 0 sample_world) = Unfinished.
Proof.
  refine (random_viable_never_returns 3 0 sample_world _ _ _ 5).
  - split; reflexivity.
  - intros k. cbn. unfold sample_floats. by destruct (bool_decide _).
  - intros s _. cbn. by rewrite lookup_empty.
Defined.

(** X29.  With at least one turn allowed, [random_viable(L, p)] returns the
    first sequence it draws whenever that sequence is already recorded
    viable, or is not recorded and the float drawn for it is below [p]; the
    dictionary then holds it as viable and is otherwise as before. *)
Theorem random_viable_first_draw fuel L p w :
  valid_p p ->
  let s := bit_string
             ((fun i => next_int (rnd w) (drawn (rnd w) + i)) <$> seq 0 L) in
  viability_dict w !! s = Some true \/
  (viability_dict w !! s = None /\
   Qlt_bool (next_float (rnd w) (drawn (rnd w) + L)) p = true) ->
  exists w',
    Genotype.random_viable (S fuel) L p w
    = (Ok (Genotype.mk s L p true None), w') /\
    viability_dict w' = <[s := true]> (viability_dict w) /\
    nu_dict w' = nu_dict w.
Proof.
  intros Hp s Hs. cbn [Genotype.random_viable].
  rewrite (bind_Ok _ _ _ _ _ (random_sequence_run L w)). fold s.
  assert (String.length s = L) as Hlen.
  { unfold s. by rewrite length_bit_string, length_fmap, length_seq. }
  assert (exists w',
            Genotype.init s p (skip L w)
            = (Ok (Genotype.mk s L p true None), w') /\
            viability_dict w' = <[s := true]> (viability_dict w) /\
            nu_dict w' = nu_dict w) as (w' & Hinit & Hdict & Hnu).
  { rewrite (init_valid _ _ _ Hp). destruct Hs as [Hhit|[Hmiss Hfloat]].
    - rewrite (bind_Ok _ _ _ _ _ (get_viability_hit _ _ (skip L w) _ Hhit)).
      rewrite Hlen. eexists. split; [done|]. cbn. by rewrite insert_id.
    - rewrite (bind_Ok _ _ _ _ _ (get_viability_miss _ _ (skip L w) Hmiss)).
      cbn [skip rnd drawn next_float]. rewrite Hfloat, Hlen.
      eexists. split; [done|]. done. }
  rewrite (bind_Ok _ _ _ _ _ Hinit). cbn [Genotype.viable]. by exists w'.
Qed.

Lemma random_viable_first_draw_witness :
  exists w',
    Genotype.random_viable 1 2 (1 # 2) sample_world
    = (Ok (Genotype.mk "00" 2 (1 # 2) true None), w') /\
    viability_dict w' = <[ "00" := true ]> (viability_dict sample_world) /\
    nu_dict w' = nu_dict sample_world.
Proof.
  apply (random_viable_first_draw 0 2 (1 # 2) sample_world).
  - split; reflexivity.
  - right. split; reflexivity.
Defined.

(** ** The rows of [get_stats] *)

Lemma get_stats_loop_mapM history r rows :
  Orr.get_stats_loop history r rows
  = match mapM (fun t => history !! t) r with
    | Some l => Ok (rows ++ l)
    | None => Raise KeyError
    end.
Proof.
  revert rows. induction r as [|t r IH]; intros rows.
  - cbn. by rewrite app_nil_r.
  - cbn [Orr.get_stats_loop mapM]. destruct (history !! t) as [row|]; [|done].
    rewrite IH. cbn. destruct (mapM _ r); cbn; [|done].
    by rewrite <- app_assoc.
Qed.

(** X30.  The loop of [get_stats] over [range(len(self.history))] either
    returns one row per key, row [t] being the entry [history[t]], or fails
    with [KeyError]; it fails exactly when some [t] below [len(history)] is
    not a key of [history]. *)
Theorem get_stats_rows_are_history self :
  (forall rows,
     Orr.get_stats_rows self = Ok rows <->
     length rows = size (Orr.history self) /\
     forall t, t < size (Orr.history self) ->
               rows !! t = Orr.history self !! t /\ is_Some (rows !! t)) /\
  (Orr.get_stats_rows self = Raise KeyError <->
   exists t, t < size (Orr.history self) /\ Orr.history self !! t = None) /\
  Orr.get_stats_rows self <> Unfinished.
Proof.
  unfold Orr.get_stats_rows, range. rewrite get_stats_loop_mapM.
  set (n := size (Orr.history self)). set (h := Orr.history self).
  split; [|split].
  - intros rows. destruct (mapM _ (seq 0 n)) as [l|] eqn:E.
    + cbn [app]. apply mapM_Some in E.
      pose proof (Forall2_length _ _ _ E) as Hlen. rewrite length_seq in Hlen.
      rewrite Forall2_lookup in E.
      assert (forall t, t < n -> l !! t = h !! t /\ is_Some (l !! t)) as Hl.
      { intros t Ht. specialize (E t). rewrite lookup_seq_lt in E by done.
        inversion E as [x y Hxy|]; subst. cbn in Hxy. rewrite Hxy. eauto. }
      split.
      * intros [= <-]. split; [done|exact Hl].
      * intros [Hrows Hrow]. f_equal. apply list_eq. intros t.
        destruct (decide (t < n)) as [Ht|Ht].
        -- destruct (Hl t Ht) as [-> _]. destruct (Hrow t Ht) as [-> _]. done.
        -- rewrite !lookup_ge_None_2 by lia. done.
    + split; [done|]. intros [Hrows Hrow].
      apply mapM_None, Exists_exists in E as (t & Ht & Hnone).
      apply elem_of_seq in Ht. destruct (Hrow t) as [Heq [row Hsome]]; [lia|].
      congruence.
  - destruct (mapM _ (seq 0 n)) as [l|] eqn:E.
    + split; [done|]. intros (t & Ht & Hnone).
      apply mapM_Some in E. rewrite Forall2_lookup in E. specialize (E t).
      rewrite lookup_seq_lt in E by done. inversion E as [x y Hxy|]; subst.
      cbn in Hxy. congruence.
    + split; [|done]. intros _.
      apply mapM_None, Exists_exists in E as (t & Ht & Hnone).
      apply elem_of_seq in Ht. exists t. split; [lia|done].
  - by destruct (mapM _ (seq 0 n)).
Qed.

(** ** The doctests *)

Example mutate_doctest : Genotype.mutate "00000" [0; 1] = Ok "11000".
Proof. reflexivity. Qed.

Example dist_doctest : Genotype.dist "00000" "00110" = Ok 2.
Proof. reflexivity. Qed.

Example get_diverged_sites_doctest :
  Genotype.get_diverged_sites "000000" "011010"
  = Ok (Genotype.mkDiverged ["0"; "0"; "0"]%char ["1"; "1"; "1"]%char [1; 2; 4]).
Proof. reflexivity. Qed.

Example introgress_doctest :
  Genotype.introgress "00000" "01110" = Ok ["01000"; "00100"; "00010"].
Proof. reflexivity. Qed.
